(** * Segmented translation pipeline of Translate-It: a shallow embedding

    The development follows the JavaScript sources:

    - [BaseAIProvider] (batch planning, text complexity, the streaming
      coordinator and the sequential requests, the parsing of batch
      answers);
    - [TranslationOrchestrator.processSelectedElement] (the payload that is
      sent for a selected element);
    - [TranslationUIManager] (the edit distance, the minimum-content gate of
      streamed segments, the data handed to the reassembly at the end of a
      stream and of a direct request, and, of [applyTranslationsToNodes],
      the lookup table, the lookups and the replacement decision).

    JavaScript strings are modelled by [string]: one [ascii] stands for one
    UTF-16 code unit below 256, so [String.length] is the [.length] of the
    source.  Numbers that the source only uses as sizes and counters are
    [nat]; complexity scores are [Z]; the half-integers of the complexity
    formula are rationals ([Q]).  The comparisons of the source against
    [1.10], [1.2], [1.5] and [0.1] are between a count and a count times a
    decimal constant; on counts below 2^48 the double-precision outcome of
    such a comparison is the outcome of the exact rational comparison, which
    is what the model computes. *)

From Stdlib Require Import Ascii ZArith QArith Qround Qminmax Lqa Sorted Permutation.
From stdpp Require Import base list strings gmap sorting.

Local Open Scope string_scope.
Local Open Scope list_scope.
Local Open Scope nat_scope.

(** ** JavaScript string primitives *)

Module JS.

(** [\s] of a regular expression and the white space of [trim], on code
    units below 256: TAB, LF, VT, FF, CR, SPACE and NBSP. *)
Definition is_space (c : ascii) : bool :=
  let n := nat_of_ascii c in
  (n =? 9) || (n =? 10) || (n =? 11) || (n =? 12) || (n =? 13)
  || (n =? 32) || (n =? 160).

Definition chars (s : string) : list ascii := String.list_ascii_of_string s.
Definition str (l : list ascii) : string := String.string_of_list_ascii l.

Fixpoint trimStart_chars (l : list ascii) : list ascii :=
  match l with
  | [] => []
  | c :: r => if is_space c then trimStart_chars r else l
  end.

Fixpoint trimEnd_chars (l : list ascii) : list ascii :=
  match l with
  | [] => []
  | c :: r =>
      match trimEnd_chars r with
      | [] => if is_space c then [] else [c]
      | r' => c :: r'
      end
  end.

Definition trim_chars (l : list ascii) : list ascii :=
  trimEnd_chars (trimStart_chars l).

(** [s.trim()] *)
Definition trim (s : string) : string := str (trim_chars (chars s)).

(** [s.split(/\s+/)]: the pieces between maximal runs of white space.  A
    string that starts (ends) with white space has an empty first (last)
    piece, and the empty string has the single piece [""]. *)
Fixpoint split_ws_go (cur : list ascii) (in_ws : bool) (l : list ascii)
  : list (list ascii) :=
  match l with
  | [] => [rev cur]
  | c :: r =>
      if is_space c then
        if in_ws then split_ws_go cur true r
        else rev cur :: split_ws_go [] true r
      else split_ws_go (c :: cur) false r
  end.

Definition split_ws_chars (l : list ascii) : list (list ascii) :=
  split_ws_go [] false l.

Definition split_ws (s : string) : list string :=
  map str (split_ws_chars (chars s)).

(** Number of maximal runs of characters satisfying [p]; [inrun] tells
    whether the character before [l] satisfied [p].  With a character
    class [p] this is the number of matches of the global regular
    expression [/[p]+/g]. *)
Fixpoint count_runs (p : ascii -> bool) (inrun : bool) (l : list ascii) : nat :=
  match l with
  | [] => 0
  | c :: r =>
      if p c then (if inrun then 0 else 1) + count_runs p true r
      else count_runs p false r
  end.

(** [(s.match(/[.!?]+/g) || []).length] *)
Definition is_sentence_mark (c : ascii) : bool :=
  let n := nat_of_ascii c in (n =? 46) || (n =? 33) || (n =? 63).

Definition match_sentence_marks (s : string) : nat :=
  count_runs is_sentence_mark false (chars s).

(** [s.toLowerCase()] on code units below 256: A-Z and the Latin-1 capitals
    (192-222 except the multiplication sign 215) move up by 32. *)
Definition lower_char (c : ascii) : ascii :=
  let n := nat_of_ascii c in
  if ((65 <=? n) && (n <=? 90))
     || ((192 <=? n) && (n <=? 222) && negb (n =? 215))
  then ascii_of_nat (n + 32) else c.

Definition toLowerCase (s : string) : string := str (map lower_char (chars s)).

(** [new Set(s).size]: the number of distinct characters of [s]. *)
Definition unique_chars (s : string) : nat :=
  length (remove_dups (chars s)).

(** [Math.round]: the nearest integer, halves going up. *)
Definition Math_round (q : Q) : Z := Qfloor (q + (1 # 2)).

(** [Math.ceil(a / b)] for counts [a] and [b > 0]. *)
Definition Math_ceil_div (a b : nat) : nat := (a + b - 1) / b.

(** [l.slice(i, j)] for [0 <= i <= j]. *)
Definition slice {A} (l : list A) (i j : nat) : list A := take (j - i) (drop i l).

End JS.

(** JavaScript values, as far as [_calculateTextComplexity] tells them
    apart. *)
Inductive jsvalue : Type :=
| JSNull
| JSUndefined
| JSNumber (n : Z)
| JSBoolean (b : bool)
| JSString (s : string).

(** ** BaseAIProvider: text complexity *)

(** [_calculateTextComplexity(text)] *)
Definition _calculateTextComplexity (text : jsvalue) : Z :=
  match text with
  | JSString s =>
      if String.eqb s "" then 0%Z   (* [!text] *)
      else
        let len := String.length s in
        let sentences := JS.match_sentence_marks s in
        let words := length (JS.split_ws (JS.trim s)) in
        let complexity := Qmin (inject_Z (Z.of_nat len) * (1 # 2)) 100 in
        let complexity := (complexity + inject_Z (Z.of_nat sentences) * 2)%Q in
        let complexity :=
          (complexity + Qmin (inject_Z (Z.of_nat words) * (1 # 2)) 20)%Q in
        JS.Math_round complexity
  | _ => 0%Z   (* [typeof text !== 'string'] *)
  end.

(** [_getTotalComplexity(texts)] *)
Definition _getTotalComplexity (texts : list string) : Z :=
  fold_left (fun sum text => (sum + _calculateTextComplexity (JSString text))%Z)
            texts 0%Z.

(** ** BaseAIProvider: batch planning *)

Definition batch := list string.

(** The state of the two planning loops: the closed batches, the batch
    being filled and its running cost. *)
Definition close_batch {C} (zero : C) (st : list batch * batch * C)
  : list batch * batch * C :=
  let '(batches, currentBatch, _) := st in (batches ++ [currentBatch], [], zero).

(** The [for (const text of texts)] loop of [_createSmartBatches] and the
    final [if (currentBatch.length > 0)]. *)
Fixpoint smart_loop (optimalSize : nat) (maxComplexity : Z) (texts : list string)
    (batches : list batch) (currentBatch : batch) (currentComplexity : Z)
  : list batch :=
  match texts with
  | [] =>
      if 0 <? length currentBatch then batches ++ [currentBatch] else batches
  | text :: rest =>
      let textComplexity := _calculateTextComplexity (JSString text) in
      let '(batches, currentBatch, currentComplexity) :=
        if (optimalSize <=? length currentBatch)
           || ((maxComplexity <? currentComplexity + textComplexity)%Z
               && (0 <? length currentBatch))
        then close_batch 0%Z (batches, currentBatch, currentComplexity)
        else (batches, currentBatch, currentComplexity) in
      smart_loop optimalSize maxComplexity rest batches
                 (currentBatch ++ [text]) (currentComplexity + textComplexity)%Z
  end.

(** [_createSmartBatches(texts, optimalSize, maxComplexity)] *)
Definition _createSmartBatches (texts : list string) (optimalSize : nat)
    (maxComplexity : Z) : list batch :=
  let totalSegments := length texts in
  let totalComplexity := _getTotalComplexity texts in
  if (totalSegments <=? Nat.min 20 optimalSize)
     || (totalComplexity <? Z.min 300 maxComplexity)%Z
  then [texts]
  else smart_loop optimalSize maxComplexity texts [] [] 0%Z.

(** The [for (let i = 0; i < texts.length; i += batchSize)] loop of
    [_createFixedBatches].  [fuel] bounds the number of iterations; [None]
    says that the loop is still running when the fuel is spent. *)
Fixpoint fixed_loop (fuel : nat) (texts : list string) (batchSize i : nat)
    (batches : list batch) : option (list batch) :=
  if i <? length texts then
    match fuel with
    | 0 => None
    | S fuel' =>
        fixed_loop fuel' texts batchSize (i + batchSize)
                   (batches ++ [JS.slice texts i (i + batchSize)])
    end
  else Some batches.

(** [_createFixedBatches(texts, batchSize)].  With [batchSize >= 1] the loop
    runs at most [texts.length] times; with [batchSize = 0] and a non-empty
    [texts] it never ends, and the result is [None]. *)
Definition _createFixedBatches (texts : list string) (batchSize : nat)
  : option (list batch) :=
  fixed_loop (length texts) texts batchSize 0 [].

(** [texts.reduce((sum, text) => sum + text.length, 0)] *)
Definition total_chars (texts : list string) : nat :=
  fold_left (fun sum text => sum + String.length text) texts 0.

(** The loop of [_createCharacterBasedBatches] and the final flush. *)
Fixpoint char_loop (targetBatchChars : nat) (texts : list string)
    (batches : list batch) (currentBatch : batch) (currentChars : nat)
  : list batch :=
  match texts with
  | [] =>
      if 0 <? length currentBatch then batches ++ [currentBatch] else batches
  | text :: rest =>
      let textLength := String.length text in
      let '(batches, currentBatch, currentChars) :=
        if (targetBatchChars <? currentChars + textLength)
           && (0 <? length currentBatch)
        then close_batch 0 (batches, currentBatch, currentChars)
        else (batches, currentBatch, currentChars) in
      if targetBatchChars <? textLength then
        let '(batches, currentBatch, currentChars) :=
          if 0 <? length currentBatch
          then close_batch 0 (batches, currentBatch, currentChars)
          else (batches, currentBatch, currentChars) in
        char_loop targetBatchChars rest (batches ++ [[text]])
                  currentBatch currentChars
      else
        char_loop targetBatchChars rest batches
                  (currentBatch ++ [text]) (currentChars + textLength)
  end.

(** [_createCharacterBasedBatches(texts, maxCharsPerBatch, balancedBatching)].
    With [maxCharsPerBatch = 0] the quotient of the source is [Infinity], and
    [Math.min(Infinity + 1, texts.length)] is [texts.length]. *)
Definition _createCharacterBasedBatches (texts : list string)
    (maxCharsPerBatch : nat) (balancedBatching : bool) : list batch :=
  let totalChars := total_chars texts in
  if totalChars <=? maxCharsPerBatch then [texts]
  else
    let batchCount :=
      match maxCharsPerBatch with
      | 0 => length texts
      | _ =>
          let idealBatchCount := JS.Math_ceil_div totalChars maxCharsPerBatch in
          Nat.min (idealBatchCount + 1) (length texts)
      end in
    let balancedBatchSize := JS.Math_ceil_div totalChars batchCount in
    let targetBatchChars :=
      if balancedBatching then Nat.min balancedBatchSize maxCharsPerBatch
      else maxCharsPerBatch in
    char_loop targetBatchChars texts [] [] 0.

(** The strategy names of [_createOptimalBatches]; [OtherStrategy] is any
    string the [switch] sends to [default]. *)
Inductive strategy : Type := Smart | Single | Fixed | OtherStrategy.

(** The static members of a provider class. *)
Record provider_class : Type := {
  preferredBatchStrategy : strategy;
  optimalBatchSize : nat;
  maxComplexity : Z
}.

Definition BaseAIProvider : provider_class :=
  {| preferredBatchStrategy := Smart; optimalBatchSize := 15; maxComplexity := 300 |}.

(** OpenAI, OpenRouter and the custom provider declare the same members. *)
Definition OpenAIProvider : provider_class :=
  {| preferredBatchStrategy := Smart; optimalBatchSize := 25; maxComplexity := 400 |}.

(** What [getProviderBatching(providerName, translateMode)] returns.  That
    table is not part of the sources at hand, so it is an argument of
    [_createOptimalBatches].  An absent member is [None]; the numbers [0]
    are falsy like [undefined]. *)
Record batching_config : Type := {
  cfg_strategy : option strategy;
  cfg_optimalSize : nat;
  cfg_maxComplexity : Z;
  cfg_maxBatchSizeChars : nat;
  cfg_balancedBatching : bool
}.

Inductive translate_mode : Type := SelectElement | OtherMode.

(** [a || b] on numbers *)
Definition or_nat (a b : nat) : nat := if a =? 0 then b else a.
Definition or_Z (a b : Z) : Z := if (a =? 0)%Z then b else a.

(** [_createOptimalBatches(texts, translateMode)] *)
Definition _createOptimalBatches (cls : provider_class) (batchingConfig : batching_config)
    (texts : list string) (translateMode : translate_mode) : option (list batch) :=
  let strategy := default (preferredBatchStrategy cls) (cfg_strategy batchingConfig) in
  let optimalSize := or_nat (cfg_optimalSize batchingConfig) (optimalBatchSize cls) in
  let maxComplexity := or_Z (cfg_maxComplexity batchingConfig) (maxComplexity cls) in
  let maxBatchSizeChars := cfg_maxBatchSizeChars batchingConfig in
  match translateMode, maxBatchSizeChars with
  | SelectElement, S _ =>
      Some (_createCharacterBasedBatches texts maxBatchSizeChars
              (cfg_balancedBatching batchingConfig))
  | _, _ =>
      match strategy with
      | Smart => Some (_createSmartBatches texts optimalSize maxComplexity)
      | Single => Some [texts]
      | Fixed | OtherStrategy => _createFixedBatches texts optimalSize
      end
  end.


(** ** BaseAIProvider: reading the answer to a batch prompt *)

(** The items the batch prompt asks for: [{ id, text }]. *)
Record json_item : Type := { item_id : Z; item_text : string }.

(** The arrays [JSON.parse] can hand to [_parseBatchResult], by the type of
    their elements.  The source looks at [typeof parsed[0]] only; the model
    keeps to arrays whose elements all have the type of the first one. *)
Inductive json_array : Type :=
| ObjectArray (items : list json_item)
| StringArray (items : list string).

(** [items.sort((a, b) => a.id - b.id)]: the sort of the language is stable,
    and so is this insertion sort. *)
Fixpoint insert_by_id (x : json_item) (l : list json_item) : list json_item :=
  match l with
  | [] => [x]
  | y :: r =>
      if (item_id x <=? item_id y)%Z then x :: l else y :: insert_by_id x r
  end.

Definition sort_by_id (l : list json_item) : list json_item :=
  foldr insert_by_id [] l.

(** [result.split('\\n')]: the separator of the source is the two
    characters backslash and [n]. *)
Fixpoint split_backslash_n_go (cur : list ascii) (l : list ascii)
  : list (list ascii) :=
  match l with
  | [] => [rev cur]
  | c :: r =>
      match r with
      | c' :: r' =>
          if (Ascii.eqb c "\"%char && Ascii.eqb c' "n"%char)%bool
          then rev cur :: split_backslash_n_go [] r'
          else split_backslash_n_go (c :: cur) r
      | [] => split_backslash_n_go (c :: cur) r
      end
  end.

Definition split_backslash_n (s : string) : list string :=
  map JS.str (split_backslash_n_go [] (JS.chars s)).

(** [_fallbackParsing(result, expectedCount, originalBatch)] *)
Definition _fallbackParsing (result : string) (expectedCount : nat)
    (originalBatch : batch) : list string :=
  let lines := split_backslash_n result in
  let nonEmptyLines :=
    filter (fun line => JS.trim line ≠ "") lines in
  if (expectedCount <? length lines) && (length nonEmptyLines =? expectedCount)
  then nonEmptyLines
  else if length lines =? expectedCount then lines
  else originalBatch.

(** [while (translatedTexts.length < expectedCount)
       translatedTexts.push(originalBatch[translatedTexts.length] || '')];
    [missing] is [expectedCount - translatedTexts.length]. *)
Fixpoint pad_with_original (missing : nat) (originalBatch : batch)
    (translatedTexts : list string) : list string :=
  match missing with
  | 0 => translatedTexts
  | S missing' =>
      pad_with_original missing' originalBatch
        (translatedTexts ++ [nth (length translatedTexts) originalBatch ""])
  end.

(** [_parseBatchResult(result, expectedCount, originalBatch)].  [json] is the
    search for the JSON array in the answer followed by [JSON.parse]: [None]
    when nothing matches, when the text does not parse, or when the parsed
    value is not an array, all of which end in [_fallbackParsing]. *)
Definition _parseBatchResult (json : string -> option json_array)
    (result : string) (expectedCount : nat) (originalBatch : batch)
  : list string :=
  match json result with
  | Some (StringArray [s]) => [s]
  | Some (ObjectArray ((_ :: _) as parsed)) =>
      if length parsed =? expectedCount then
        let sortedResults := sort_by_id parsed in
        map item_text sortedResults
      else if expectedCount <? length parsed then
        let firstItems := JS.slice parsed 0 expectedCount in
        let sortedResults := sort_by_id firstItems in
        map item_text sortedResults
      else
        let sortedResults := sort_by_id parsed in
        let translatedTexts := map item_text sortedResults in
        pad_with_original (expectedCount - length translatedTexts)
                          originalBatch translatedTexts
  | _ => _fallbackParsing result expectedCount originalBatch
  end.

(** ** BaseAIProvider: the streaming coordinator *)

(** What the coordinator throws or lets through. *)
Inductive error : Type :=
| UserCancelled     (* [new Error('Translation cancelled by user')], type USER_CANCELLED *)
| FallbackAborted   (* the AbortError 'Translation cancelled during fallback' *)
| Failure (message : string).   (* any error of a request, a lost race against a timer included *)

(** The messages of the coordinator, one constructor for each function that
    builds one.  [BatchResults], [FallbackResult] and [ErrorResults] are
    TRANSLATION_STREAM_UPDATE messages, [StreamEnd] is TRANSLATION_STREAM_END.
    A [FallbackResult] of [_streamFallbackResult] reports one item of the
    batch being processed and writes the position of the item inside that
    batch into the field [batchIndex]. *)
Inductive message : Type :=
| BatchResults (batchIndex : nat) (data originalData : list string)
| FallbackResult (segmentIndex : nat) (data originalData : list string)
| ErrorResults (batchIndex : nat) (e : error)
| StreamEnd (error : bool).

(** The field [success] of a message. *)
Definition success (m : message) : bool :=
  match m with
  | BatchResults _ _ _ | FallbackResult _ _ _ => true
  | ErrorResults _ _ => false
  | StreamEnd error => negb error
  end.

(** What can be seen of a run from outside. *)
Inductive event : Type :=
| Execute (batchIndex : nat) (b : batch)
    (* [rateLimitManager.executeWithRateLimit] for
       [`streaming-batch-${batchIndex + 1}/${batches.length}`] *)
| Request (text : string)   (* a call of [_translateSingle] *)
| Send (m : message).       (* [browser.tabs.sendMessage] to the tab of the sender *)

Inductive outcome (A : Type) : Type :=
| Return (a : A)
| Throw (e : error).
Arguments Return {A} a.
Arguments Throw {A} e.

(** An [async] function of the provider: it starts in a state of the world
    with the events so far, and ends by returning or throwing. *)
Definition task (World A : Type) : Type :=
  World * list event -> outcome A * (World * list event).

#[global] Instance task_ret {World} : MRet (task World) :=
  fun A a s => (Return a, s).

#[global] Instance task_bind {World} : MBind (task World) :=
  fun A B f m s =>
    match m s with
    | (Return a, s') => f a s'
    | (Throw e, s') => (Throw e, s')
    end.

Definition throw {World A} (e : error) : task World A :=
  fun s => (Throw e, s).

(** [try { m } catch (error) { handler(error) }] *)
Definition try_catch {World A} (m : task World A) (handler : error -> task World A)
  : task World A :=
  fun s =>
    match m s with
    | (Return a, s') => (Return a, s')
    | (Throw e, s') => handler e s'
    end.

Definition observe {World} (f : World -> bool) : task World bool :=
  fun s => (Return (f s.1), s).

Definition record_event {World} (ev : event) : task World unit :=
  fun s => (Return tt, (s.1, s.2 ++ [ev])).

(** [a || b] on strings *)
Definition or_string (a b : string) : string := if String.eqb a "" then b else a.

(** A batch attempt as a script of its steps, so that a run of it can be
    stopped after some steps and taken up again: the timer of a batch races
    against the attempt, and nothing aborts the attempt when the timer
    wins.  A step is an [await] of the attempt: a request, a message, the
    pause between two fallback items; the test of the abort signal is
    synchronous and takes no step. *)
Inductive script (A : Type) : Type :=
| Finish (a : A)
| Fail (e : error)
| TestAborted (next : bool -> script A)
| DoRequest (text : string) (next : string + error -> script A)
| DoSend (m : message) (next : script A)
| DoSleep (next : script A).
Arguments Finish {A} a.
Arguments Fail {A} e.
Arguments TestAborted {A} next.
Arguments DoRequest {A} text next.
Arguments DoSend {A} m next.
Arguments DoSleep {A} next.

(** A script that has returned or thrown. *)
Definition settled {A} (p : script A) : bool :=
  match p with
  | Finish _ | Fail _ => true
  | _ => false
  end.

(** What [_createBatchTimeoutPromise] does to a round when its timer wins
    the race: the number of steps the attempt has made when the timer
    fires, the number of steps it makes between the failure message and
    the end of the stream, and the error of the timer.
    [calculateBatchTimeout] and [createTimeoutPromise] are not among the
    sources. *)
Record timeout : Type := {
  fires_after : nat;
  ends_after : nat;
  timeout_error : error
}.

Section Coordinator.

Context {World : Type}.

(** The collaborators of the coordinator.  The source languages and the
    translation mode are passed along unchanged and are left out.  The
    rate limiter is taken to run the task it is given once and to hand on
    its result.  The 8 seconds that race against the request of a
    fallback item belong to real time: a lost race is one of the failures
    [translateSingle] can answer.  The timer of a batch is [timer]
    below. *)
Variable translateSingle : string -> World -> (string + error) * World.
  (* [_translateSingle] of the subclass, the request to the backend *)
Variable aborted : World -> bool.
  (* [abortController && abortController.signal.aborted] *)
Variable isCancelled : World -> bool.
  (* [engine && engine.isCancelled(messageId)] *)
Variable hasSender : World -> bool.
  (* [engine], [messageId] and [engine.getStreamingSender(messageId).tab.id] are there *)
Variable deliver : message -> World -> World.
  (* what [browser.tabs.sendMessage] does; its failures are caught and logged *)
Variable wait : World -> World.
  (* the 3 seconds between two fallback items *)
Variable json : string -> option json_array.
Variable _buildBatchPrompt : batch -> string.
Variable jsonBatchStrategy : bool.
  (* [this.constructor.batchStrategy === 'json'] *)

Definition request (text : string) : task World string :=
  fun s =>
    let '(r, w) := translateSingle text s.1 in
    (match r with inl result => Return result | inr e => Throw e end,
     (w, s.2 ++ [Request text])).

(** The sending part shared by [_streamBatchResults],
    [_streamFallbackResult], [_streamErrorResults] and [_sendStreamEnd]. *)
Definition send (m : message) : task World unit :=
  fun s =>
    if hasSender s.1 then (Return tt, (deliver m s.1, s.2 ++ [Send m]))
    else (Return tt, s).

Definition sleep : task World unit :=
  fun s => (Return tt, (wait s.1, s.2)).

(** The loop of [_fallbackSingleRequests]; [i] is the index of the first
    item of [rest] in the batch. *)
Fixpoint fallback_loop (rest : list string) (i : nat) (results : list string)
  : task World (list string) :=
  match rest with
  | [] => mret results
  | text :: rest' =>
      stop ← observe aborted;
      if stop : bool then throw FallbackAborted
      else
        (if 0 <? i then sleep else mret tt);;
        result ← request text;
        let translatedResult := or_string result text in
        send (FallbackResult i [translatedResult] [text]);;
        fallback_loop rest' (S i) (results ++ [translatedResult])
  end.

(** [_fallbackSingleRequests(batch, ...)] *)
Definition _fallbackSingleRequests (b : batch) : task World (list string) :=
  fallback_loop b 0 [].

(** [_translateBatch(batch, ...)] *)
Definition _translateBatch (b : batch) : task World (list string) :=
  match b with
  | [text] =>
      result ← request text;
      mret [or_string result text]
  | _ =>
      try_catch
        (if jsonBatchStrategy then
           result ← request (_buildBatchPrompt b);
           let parsedResults := _parseBatchResult json result (length b) b in
           if length parsedResults =? length b then mret parsedResults
           else throw (Failure "JSON batch result count mismatch")
         else throw (Failure "Unknown or unsupported batch strategy"))
        (fun _ => _fallbackSingleRequests b)
  end.

(** [_fallbackSingleRequests] and [_translateBatch] as scripts: the same
    steps as [fallback_loop] and [_translateBatch] above, one constructor
    for each of them ([script_runs_as_task] below). *)
Fixpoint fallback_script (rest : list string) (i : nat) (results : list string)
  : script (list string) :=
  match rest with
  | [] => Finish results
  | text :: rest' =>
      TestAborted (fun stop =>
        if stop : bool then Fail FallbackAborted
        else
          let ask :=
            DoRequest text (fun answer =>
              match answer with
              | inl result =>
                  let translatedResult := or_string result text in
                  DoSend (FallbackResult i [translatedResult] [text])
                         (fallback_script rest' (S i)
                                          (results ++ [translatedResult]))
              | inr e => Fail e
              end) in
          if 0 <? i then DoSleep ask else ask)
  end.

Definition _translateBatch_script (b : batch) : script (list string) :=
  match b with
  | [text] =>
      DoRequest text (fun answer =>
        match answer with
        | inl result => Finish [or_string result text]
        | inr e => Fail e
        end)
  | _ =>
      if jsonBatchStrategy then
        DoRequest (_buildBatchPrompt b) (fun answer =>
          match answer with
          | inl result =>
              let parsedResults := _parseBatchResult json result (length b) b in
              if length parsedResults =? length b then Finish parsedResults
              else fallback_script b 0 []
          | inr _ => fallback_script b 0 []
          end)
      else fallback_script b 0 []
  end.

(** A script run to its end. *)
Fixpoint run_script {A} (p : script A) (s : World * list event)
  : outcome A * (World * list event) :=
  match p with
  | Finish a => (Return a, s)
  | Fail e => (Throw e, s)
  | TestAborted next => run_script (next (aborted s.1)) s
  | DoRequest text next =>
      let '(answer, w) := translateSingle text s.1 in
      run_script (next answer) (w, s.2 ++ [Request text])
  | DoSend m next =>
      run_script next
        (if hasSender s.1 then (deliver m s.1, s.2 ++ [Send m]) else s)
  | DoSleep next => run_script next (wait s.1, s.2)
  end.

(** A script run for at most [steps] steps: what is left of it, and the
    state it has reached. *)
Fixpoint advance {A} (p : script A) (steps : nat) (s : World * list event)
  : script A * (World * list event) :=
  match p with
  | Finish _ | Fail _ => (p, s)
  | TestAborted next => advance (next (aborted s.1)) steps s
  | DoRequest text next =>
      match steps with
      | 0 => (p, s)
      | S steps' =>
          let '(answer, w) := translateSingle text s.1 in
          advance (next answer) steps' (w, s.2 ++ [Request text])
      end
  | DoSend m next =>
      match steps with
      | 0 => (p, s)
      | S steps' =>
          advance next steps'
            (if hasSender s.1 then (deliver m s.1, s.2 ++ [Send m]) else s)
      end
  | DoSleep next =>
      match steps with
      | 0 => (p, s)
      | S steps' => advance next steps' (wait s.1, s.2)
      end
  end.

Variable timer : World -> batch -> option timeout.
  (* [_createBatchTimeoutPromise(batch.length)]: [None] when the attempt
     settles before the timer fires *)

(** The [try] block of a round and its [catch], for an attempt that wins
    the race against the timer. *)
Definition attempt_round (batchIndex : nat) (b : batch)
  : task World (list string) :=
  try_catch
    (record_event (Execute batchIndex b);;
     batchResults ← _translateBatch b;
     send (BatchResults batchIndex batchResults b);;
     mret batchResults)
    (fun error =>
       send (ErrorResults batchIndex error);;
       send (StreamEnd true);;
       throw error).

(** A round of the loop: [Promise.race] of the attempt against the timer of
    the batch.  When the timer fires before the attempt has settled, the
    [catch] runs with the error of the timer while the attempt goes on:
    its later steps fall between and after the two messages of the
    [catch]. *)
Definition batch_round (batchIndex : nat) (b : batch)
  : task World (list string) :=
  fun s =>
    match timer s.1 b with
    | None => attempt_round batchIndex b s
    | Some t =>
        let '(pending, s1) :=
          advance (_translateBatch_script b) (fires_after t)
                  (s.1, s.2 ++ [Execute batchIndex b]) in
        if settled pending then attempt_round batchIndex b s
        else
          let error := timeout_error t in
          let '(_, s2) := send (ErrorResults batchIndex error) s1 in
          let '(pending, s3) := advance pending (ends_after t) s2 in
          let '(_, s4) := send (StreamEnd true) s3 in
          let '(_, s5) := run_script pending s4 in
          (Throw error, s5)
    end.

(** The [for] loop of [_streamingBatchTranslate], from [batchIndex] on. *)
Fixpoint stream_loop (batches : list batch) (batchIndex : nat)
    (allResults : list string) : task World (list string) :=
  match batches with
  | [] => mret allResults
  | b :: rest =>
      stop ← observe aborted;
      if stop : bool then throw UserCancelled
      else
        stop ← observe isCancelled;
        if stop : bool then throw UserCancelled
        else
          batchResults ← batch_round batchIndex b;
          stream_loop rest (S batchIndex) (allResults ++ batchResults)
  end.

(** [_streamingBatchTranslate(texts, ..., translateMode, ...)].  [None]: the
    planning of the batches never ends, and nothing is dispatched. *)
Definition _streamingBatchTranslate (cls : provider_class)
    (batchingConfig : batching_config) (texts : list string)
    (translateMode : translate_mode) : option (task World (list string)) :=
  batches ← _createOptimalBatches cls batchingConfig texts translateMode;
  Some (allResults ← stream_loop batches 0 [];
        send (StreamEnd false);;
        mret allResults).

End Coordinator.

(** ** TranslationOrchestrator.processSelectedElement: the payload *)

(** The entry of the origin mapping for one expanded segment. *)
Record origin : Type := { originalIndex : nat; isEmptyLine : bool }.

(** An element [{ text: t }] of the payload. *)
Record payload_item : Type := { text : string }.

(** [expandedTexts.map(text => text === '[[EMPTY_LINE]]' ? '' : text)] *)
Definition filterExpandedTexts (expandedTexts : list string) : list string :=
  map (fun text => if String.eqb text "[[EMPTY_LINE]]" then "" else text)
      expandedTexts.

(** The array that [JSON.stringify] turns into [jsonPayload]. *)
Definition jsonPayload (filteredExpandedTexts : list string) : list payload_item :=
  if length filteredExpandedTexts =? 1
  then [ {| text := nth 0 filteredExpandedTexts "" |} ]
  else map (fun t => {| text := t |}) filteredExpandedTexts.

(** The part of [processSelectedElement] that prepares the payload;
    [expandTextsForTranslation] is imported from a file that is not among
    the sources and is an argument here.  [None]: there is nothing to
    translate and nothing is sent. *)
Definition processSelectedElement_payload
    (expandTextsForTranslation : list string -> list string * list origin)
    (textsToTranslate : list string) : option (list payload_item) :=
  if length textsToTranslate =? 0 then None
  else
    let '(expandedTexts, originMapping) :=
      expandTextsForTranslation textsToTranslate in
    let filteredExpandedTexts := filterExpandedTexts expandedTexts in
    Some (jsonPayload filteredExpandedTexts).

Definition LF : ascii := ascii_of_nat 10.

(** [text.split('\n')] *)
Fixpoint split_lines_go (cur : list ascii) (l : list ascii) : list (list ascii) :=
  match l with
  | [] => [rev cur]
  | c :: r =>
      if Ascii.eqb c LF then rev cur :: split_lines_go [] r
      else split_lines_go (c :: cur) r
  end.

Definition split_lines (s : string) : list string :=
  map JS.str (split_lines_go [] (JS.chars s)).

(** Modelled from the spec: [expandTextsForTranslation] of
    utils/textExtraction.js, which is not among the sources.  A unit is split
    only when it contains line breaks; every blank line becomes a segment of
    its own, marked [isEmptyLine] and carrying the placeholder that
    [processSelectedElement] looks for; all segments of a unit keep its
    index. *)
Definition expand_unit (index : nat) (rawText : string) : list (string * origin) :=
  if bool_decide (LF ∈ JS.chars rawText) then
    map (fun line =>
           if String.eqb (JS.trim line) ""
           then ("[[EMPTY_LINE]]", {| originalIndex := index; isEmptyLine := true |})
           else (line, {| originalIndex := index; isEmptyLine := false |}))
        (split_lines rawText)
  else [(rawText, {| originalIndex := index; isEmptyLine := false |})].

Definition expandTextsForTranslation_spec (textsToTranslate : list string)
  : list string * list origin :=
  let segments := concat (imap expand_unit textsToTranslate) in
  (map fst segments, map snd segments).

(** ** TranslationUIManager: streamed segments *)

(** The value stored in [newlyAppliedTranslations]. *)
Record translation_data : Type := {
  td_text : string;
  td_isPartial : bool;
  td_segmentIndex : nat;
  td_originalIndex : nat
}.

(** The members of a streaming request that [_processStreamTranslationData]
    reads and writes. *)
Record stream_request : Type := {
  expandedTexts : list string;
  originMapping : list origin;
  textsToTranslate : list string;
  translatedSegments : gmap nat string
}.

(** [translatedText.trim().length > originalTextKey.trim().length * 0.1] *)
Definition hasMinimumContent (originalTextKey translatedText : string) : bool :=
  String.length (JS.trim originalTextKey) <? 10 * String.length (JS.trim translatedText).

Section StreamedSegments.

Context {DOM : Type}.

(** The phrase lists of [_isPartialTranslation] are outside the code units
    of the model; its answer only fills the member [isPartial]. *)
Variable _isPartialTranslation : string -> string -> bool.

(** The writing into the text nodes, which is the browser's. *)
Variable _applyStreamingTranslationsImmediately :
  DOM -> gmap string translation_data -> stream_request -> DOM.

(** The body of [for (let i = 0; i < translatedBatch.length; i++)] for one
    [i]: the new [translatedSegments] and [newlyAppliedTranslations]. *)
Definition stream_segment (request : stream_request) (originalBatch : list string)
    (i : nat) (translatedText : string)
    (state : gmap nat string * gmap string translation_data)
  : gmap nat string * gmap string translation_data :=
  let '(segments, newlyAppliedTranslations) := state in
  match originalBatch !! i
        ≫= (fun originalText =>
              fst <$> list_find (fun text => text = originalText)
                                (expandedTexts request)) with
  | None => state   (* [expandedIndex === -1]: [continue] *)
  | Some expandedIndex =>
      let segments := <[expandedIndex := translatedText]> segments in
      match originMapping request !! expandedIndex with
      | Some mappingInfo =>
          if isEmptyLine mappingInfo then (segments, newlyAppliedTranslations)
          else
            let originalIndex := originalIndex mappingInfo in
            match textsToTranslate request !! originalIndex with
            | Some originalTextKey =>
                if String.eqb originalTextKey "" then (segments, newlyAppliedTranslations)
                else if hasMinimumContent originalTextKey translatedText then
                  let translationData :=
                    {| td_text := translatedText;
                       td_isPartial := _isPartialTranslation originalTextKey translatedText;
                       td_segmentIndex := expandedIndex;
                       td_originalIndex := originalIndex |} in
                  let newlyAppliedTranslations :=
                    <[JS.trim originalTextKey := translationData]> newlyAppliedTranslations in
                  let fullOriginalText := originalTextKey in
                  (* both sides of the test below trim the same string *)
                  let newlyAppliedTranslations :=
                    if negb (String.eqb (JS.trim fullOriginalText)
                                        (JS.trim originalTextKey))
                    then <[fullOriginalText := translationData]> newlyAppliedTranslations
                    else newlyAppliedTranslations in
                  (segments, newlyAppliedTranslations)
                else (segments, newlyAppliedTranslations)
            | None => (segments, newlyAppliedTranslations)
            end
      | None => (segments, newlyAppliedTranslations)
      end
  end.

Fixpoint stream_segments (request : stream_request) (originalBatch : list string)
    (i : nat) (translatedBatch : list string)
    (state : gmap nat string * gmap string translation_data)
  : gmap nat string * gmap string translation_data :=
  match translatedBatch with
  | [] => state
  | translatedText :: rest =>
      stream_segments request originalBatch (S i) rest
        (stream_segment request originalBatch i translatedText state)
  end.

(** [_processStreamTranslationData(request, data)]: the request with its
    new [translatedSegments], and the text nodes afterwards. *)
Definition _processStreamTranslationData (request : stream_request)
    (translatedBatch originalBatch : list string) (textNodes : DOM)
  : stream_request * DOM :=
  let '(segments, newlyAppliedTranslations) :=
    stream_segments request originalBatch 0 translatedBatch
                    (translatedSegments request, ∅) in
  let request :=
    {| expandedTexts := expandedTexts request;
       originMapping := originMapping request;
       textsToTranslate := textsToTranslate request;
       translatedSegments := segments |} in
  if 0 <? size newlyAppliedTranslations
  then (request,
        _applyStreamingTranslationsImmediately textNodes newlyAppliedTranslations request)
  else (request, textNodes).

End StreamedSegments.

(** ** TranslationUIManager.applyTranslationsToNodes: the authority of results *)

(** The values [matchStrategy] takes in the lookup that precedes the
    decision. *)
Inductive match_strategy : Type :=
| exact
| trimmed
| normalized
| empty_node_substantial_match
| fuzzy (score : nat)
| rescue_longest_translation
| length_based_fallback.

(** [matchStrategy.includes('rescue')] *)
Definition includes_rescue (matchStrategy : match_strategy) : bool :=
  match matchStrategy with
  | rescue_longest_translation => true
  | _ => false
  end.

(** [s.split(/\s+/).length] *)
Definition word_pieces (s : string) : nat := length (JS.split_ws s).

(** [new Set(s.toLowerCase()).size] *)
Definition unique_lower_chars (s : string) : nat :=
  JS.unique_chars (JS.toLowerCase s).

(** The value of [shouldReplace] when the log line of the decision is
    reached.  [a > b * 1.10] is [11 * b < 10 * a], [a > b * 1.2] is
    [6 * b < 5 * a] and [a > b * 1.5] is [3 * b < 2 * a]. *)
Definition shouldReplace (isFinalResult : bool) (matchStrategy : match_strategy)
    (currentTranslation finalTrimmed : string) : bool :=
  let differs := negb (String.eqb currentTranslation finalTrimmed) in
  let shouldReplace := isFinalResult && differs in
  if negb shouldReplace && includes_rescue matchStrategy
     && (0 <? String.length currentTranslation)
  then
    let rescueTranslationLength := String.length finalTrimmed in
    let streamingTranslationLength := String.length currentTranslation in
    if 3 * streamingTranslationLength <? 2 * rescueTranslationLength then true
    else shouldReplace
  else if negb isFinalResult && differs then
    if 11 * String.length currentTranslation <? 10 * String.length finalTrimmed
    then true
    else
      let currentWords := word_pieces currentTranslation in
      let finalWords := word_pieces finalTrimmed in
      if 6 * currentWords <? 5 * finalWords then true
      else
        let currentUniqueChars := unique_lower_chars currentTranslation in
        let finalUniqueChars := unique_lower_chars finalTrimmed in
        if 11 * currentUniqueChars <? 10 * finalUniqueChars then true
        else shouldReplace
  else shouldReplace.

(** What happens to a node for which a translation was looked up. *)
Inductive decision : Type :=
| NotConsidered      (* the [if] of the block is false *)
| ApplyToTextNode (finalTrimmed : string)
    (* no wrapper yet, final result: the text node is replaced *)
| ReplaceWrapper     (* the wrapper is removed and the node is translated again *)
| KeepCurrent.       (* the wrapper and its text stay *)

(** The block [if (finalTranslation && (translationInner || options.isFinalResult))]
    of [applyTranslationsToNodes], which lies inside [if (shouldProcessNode)]
    (see [apply_to_node]).  [translationInner] is the text content of the
    inner span of the wrapper when the node carries one. *)
Definition replacement_decision (isFinalResult : bool) (matchStrategy : match_strategy)
    (translationInner : option string) (finalTranslation : string) : decision :=
  if negb (String.eqb finalTranslation "")
     && (bool_decide (is_Some translationInner) || isFinalResult)
  then
    let currentTranslation :=
      match translationInner with
      | Some textContent => JS.trim textContent
      | None => ""
      end in
    let finalTrimmed := JS.trim finalTranslation in
    match translationInner with
    | None => ApplyToTextNode finalTrimmed
        (* [!translationInner && options.isFinalResult] *)
    | Some _ =>
        if shouldReplace isFinalResult matchStrategy currentTranslation finalTrimmed
        then ReplaceWrapper else KeepCurrent
    end
  else NotConsidered.

(** ** The words of the specification *)

(** "sentenceCount is the number of maximal runs of the characters '.', '!'
    and '?'" *)
Definition sentenceCount (s : string) : nat :=
  JS.count_runs JS.is_sentence_mark false (JS.chars s).

(** "wordCount is the number of whitespace-separated words of the trimmed
    string": the maximal runs of characters that are not white space. *)
Definition wordCount (s : string) : nat :=
  JS.count_runs (fun c => negb (JS.is_space c)) false (JS.chars (JS.trim s)).

(** "round(min(length*0.5, 100) + sentenceCount*2 + min(wordCount*0.5, 20))" *)
Definition complexity_formula (len sentences words : nat) : Z :=
  JS.Math_round
    (Qmin (inject_Z (Z.of_nat len) * (1 # 2)) 100
     + inject_Z (Z.of_nat sentences) * 2
     + Qmin (inject_Z (Z.of_nat words) * (1 # 2)) 20)%Q.

Definition spec_complexity (s : string) : Z :=
  complexity_formula (String.length s) (sentenceCount s) (wordCount s).

(** "entries are ordered by the provided id, missing entries are filled
    with the corresponding original text, and extra entries are discarded":
    place [k] of the result holds the text of the item whose id is [k], or
    the original text of place [k] when no item has that id; an item whose
    id is no place of the batch is left out. *)
Definition recovery_by_id (parsed : list json_item) (originalBatch : batch)
  : list string :=
  imap (fun k original =>
          match list_find (fun item => item_id item = Z.of_nat k) parsed with
          | Some (_, item) => item_text item
          | None => original
          end)
       originalBatch.

(** The batch index an event carries: the number in the label of a
    dispatch, the field [batchIndex] of a stream update.  In the update of
    a fallback item that field holds the position of the item in its
    batch. *)
Definition batch_index_of (ev : event) : option nat :=
  match ev with
  | Execute batchIndex _ => Some batchIndex
  | Send (BatchResults batchIndex _ _) => Some batchIndex
  | Send (FallbackResult segmentIndex _ _) => Some segmentIndex
  | Send (ErrorResults batchIndex _) => Some batchIndex
  | _ => None
  end.

(** Sample data. *)
Definition sixty : string :=
  "123456789012345678901234567890123456789012345678901234567890".

Definition forty : string := "1234567890123456789012345678901234567890".

(** ** Notions used in the statements *)

Definition id_le (a b : json_item) : Prop := (item_id a <= item_id b)%Z.

Definition two_items : list json_item :=
  [ {| item_id := 1; item_text := "deux" |}; {| item_id := 0; item_text := "un" |} ].

Definition sparse_items : list json_item :=
  [ {| item_id := 0; item_text := "un" |}; {| item_id := 2; item_text := "trois" |} ].

Definition surplus_items : list json_item :=
  [ {| item_id := 7; item_text := "EXTRA" |}; {| item_id := 0; item_text := "un" |};
    {| item_id := 1; item_text := "deux" |}; {| item_id := 2; item_text := "trois" |} ].

(** What a task adds to the events: [appends P m] when every run of [m] only
    adds events that satisfy [P]; [returns_with Q m] says the same of the
    runs that return. *)
Definition appends {World A} (P : event -> Prop) (m : task World A) : Prop :=
  forall s o s', m s = (o, s') -> exists new, s'.2 = s.2 ++ new /\ Forall P new.

Definition returns_with {World A} (Q : event -> Prop) (m : task World A) : Prop :=
  forall s a s', m s = (Return a, s') -> exists new, s'.2 = s.2 ++ new /\ Forall Q new.

Definition always_throws {World A} (m : task World A) : Prop :=
  forall s a s', m s <> (Return a, s').

(** The events of a batch attempt: requests and the results of fallback
    items, none of which is about a batch index. *)
Definition inside_batch (ev : event) : Prop :=
  match ev with
  | Request _ | Send (FallbackResult _ _ _) => True
  | _ => False
  end.

(** The batch an event reports on as a whole: its dispatch, its results,
    its failure.  The update of a fallback item reports on one item of the
    batch in process, not on a batch. *)
Definition reported_batch (ev : event) : option nat :=
  match ev with
  | Execute batchIndex _ => Some batchIndex
  | Send (BatchResults batchIndex _ _) => Some batchIndex
  | Send (ErrorResults batchIndex _) => Some batchIndex
  | _ => None
  end.

(** The events of the loop from [batchIndex] on report on the batches it
    walks through. *)
Definition within (lo hi : nat) (ev : event) : Prop :=
  forall j, reported_batch ev = Some j -> lo <= j < hi.

(** The events of the attempt of a batch of [n] texts: requests, and
    updates of fallback items that carry the position of the item, one
    translation and one source text. *)
Definition attempt_event (n : nat) (ev : event) : Prop :=
  match ev with
  | Request _ => True
  | Send (FallbackResult segmentIndex data originalData) =>
      segmentIndex < n /\ length data = 1 /\ length originalData = 1
  | _ => False
  end.

(** The events of the round of batch [batchIndex]: those of its attempt,
    the update with its results, the update of its failure and the end of
    the stream with the error flag. *)
Definition round_event (batchIndex : nat) (b : batch) (ev : event) : Prop :=
  match ev with
  | Send (BatchResults i data originalData) =>
      i = batchIndex /\ length data = length b /\ originalData = b
  | Send (ErrorResults i _) => i = batchIndex
  | Send (StreamEnd error) => error = true
  | _ => attempt_event (length b) ev
  end.

(** Every request and message of a script satisfies [P]. *)
Inductive speaks {A} (P : event -> Prop) : script A -> Prop :=
| speaks_finish a : speaks P (Finish a)
| speaks_fail e : speaks P (Fail e)
| speaks_test next :
    (forall stop, speaks P (next stop)) -> speaks P (TestAborted next)
| speaks_request text next :
    P (Request text) -> (forall answer, speaks P (next answer)) ->
    speaks P (DoRequest text next)
| speaks_send m next :
    P (Send m) -> speaks P next -> speaks P (DoSend m next)
| speaks_sleep next : speaks P next -> speaks P (DoSleep next).

(** A loop that returns has only sent successes. *)
Definition no_failure (ev : event) : Prop :=
  match ev with
  | Send m => success m = true
  | _ => True
  end.

(** A scripted backend: the world is the number of requests made so far.  The
    first request (the prompt of batch 0) is answered, the second (the prompt
    of batch 1) fails, the third (the first item of batch 1) is answered and
    every later one fails. *)
Definition script_translate (text : string) (n : nat) : (string + error) * nat :=
  (match n with
   | 0 => inl "ok"
   | 1 => inr (Failure "timeout")
   | 2 => inl "C"
   | _ => inr (Failure "quota")
   end, S n).

Definition script_json (result : string) : option json_array :=
  if String.eqb result "ok"
  then Some (ObjectArray [ {| item_id := 1; item_text := "B" |};
                           {| item_id := 0; item_text := "A" |} ])
  else None.

(** A backend that fails the first request (the prompt of batch 0), answers
    the next [good] requests with the text itself and fails every later
    one.  The world is the number of requests made so far. *)
Definition flaky_translate (good : nat) (text : string) (n : nat)
  : (string + error) * nat :=
  (if n =? 0 then inr (Failure "timeout")
   else if n <=? good then inl text
   else inr (Failure "quota"), S n).

Definition fixed_by_three : batching_config :=
  {| cfg_strategy := Some Fixed; cfg_optimalSize := 3; cfg_maxComplexity := 0;
     cfg_maxBatchSizeChars := 0; cfg_balancedBatching := false |}.

(** A timer that fires in every round after two steps of the attempt, and
    whose handler has run before the attempt moves again. *)
Definition early_timer {World} (w : World) (b : batch) : option timeout :=
  Some {| fires_after := 2; ends_after := 0; timeout_error := Failure "Batch timeout" |}.

Definition fixed_by_two : batching_config :=
  {| cfg_strategy := Some Fixed; cfg_optimalSize := 2; cfg_maxComplexity := 0;
     cfg_maxBatchSizeChars := 0; cfg_balancedBatching := false |}.

Definition five_texts : list string := ["a"; "b"; "c"; "d"; "e"].

Definition hello_world : string :=
  JS.str (JS.chars "Hello" ++ [LF; LF] ++ JS.chars "World").

(** The place of a streamed segment among the expanded texts, as
    [findIndex] finds it from the original text of the segment. *)
Definition segment_index (request : stream_request) (originalBatch : list string)
    (i : nat) : option nat :=
  originalText ← originalBatch !! i;
  fst <$> list_find (fun text => text = originalText) (expandedTexts request).

(** The unit a streamed segment belongs to: the index of the segment among
    the expanded texts, the index of its unit and the text of that unit, as
    the lookups of [_processStreamTranslationData] find them.  [None] when a
    lookup fails or the segment is an empty line. *)
Definition segment_unit (request : stream_request) (originalBatch : list string)
    (i : nat) : option (nat * nat * string) :=
  expandedIndex ← segment_index request originalBatch i;
  mappingInfo ← originMapping request !! expandedIndex;
  if isEmptyLine mappingInfo then None
  else
    originalTextKey ← textsToTranslate request !! originalIndex mappingInfo;
    Some (expandedIndex, originalIndex mappingInfo, originalTextKey).

(** The first [k] segments of the update are on record: the place of each
    holds the translation of a segment of the update with that place. *)
Definition recorded (request : stream_request)
    (translatedBatch originalBatch : list string) (k : nat)
    (segments : gmap nat string) : Prop :=
  forall i translatedText expandedIndex,
    i < k ->
    translatedBatch !! i = Some translatedText ->
    segment_index request originalBatch i = Some expandedIndex ->
    exists j translatedText',
      translatedBatch !! j = Some translatedText'
      /\ segment_index request originalBatch j = Some expandedIndex
      /\ segments !! expandedIndex = Some translatedText'.

(** Every entry comes from a segment of the update that passed the gate. *)
Definition gated (request : stream_request) (translatedBatch originalBatch : list string)
    (newly : gmap string translation_data) : Prop :=
  forall key data,
    newly !! key = Some data ->
    exists i originalTextKey,
      translatedBatch !! i = Some (td_text data)
      /\ segment_unit request originalBatch i
         = Some (td_segmentIndex data, td_originalIndex data, originalTextKey)
      /\ key = JS.trim originalTextKey
      /\ String.length (JS.trim originalTextKey)
         < 10 * String.length (JS.trim (td_text data)).

Definition one_unit_request : stream_request :=
  {| expandedTexts := ["Hello world, how are you?"];
     originMapping := [ {| originalIndex := 0; isEmptyLine := false |} ];
     textsToTranslate := ["Hello world, how are you?"];
     translatedSegments := ∅ |}.

(** ** BaseAIProvider: the choice between streaming and sequential requests *)

Section Sequential.

Context {World : Type}.
Variable translateSingle : string -> World -> (string + error) * World.
Variable aborted : World -> bool.
Variable isCancelled : World -> bool.
Variable hasSender : World -> bool.
Variable deliver : message -> World -> World.
Variable wait : World -> World.
Variable json : string -> option json_array.
Variable _buildBatchPrompt : batch -> string.
Variable jsonBatchStrategy : bool.
Variable timer : World -> batch -> option timeout.

(** The loop of [_traditionalBatchTranslate]: one request for each text, the
    two cancellation tests before each of them; an error of a request is
    logged and thrown again.  The rate limiter is taken to run the request
    once, as for the streaming loop. *)
Fixpoint traditional_loop (texts : list string) (results : list string)
  : task World (list string) :=
  match texts with
  | [] => mret results
  | text :: rest =>
      stop ← observe aborted;
      if stop : bool then throw UserCancelled
      else
        stop ← observe isCancelled;
        if stop : bool then throw UserCancelled
        else
          result ← try_catch (request translateSingle text)
                             (fun error => throw error);
          traditional_loop rest (results ++ [or_string result text])
  end.

(** [_traditionalBatchTranslate(texts, ...)] *)
Definition _traditionalBatchTranslate (texts : list string)
  : task World (list string) :=
  traditional_loop texts [].

(** [_shouldUseStreaming(texts, messageId, engine)]; [messageId] and
    [engine] are given by whether they are there. *)
Definition _shouldUseStreaming (supportsStreaming messageId engine : bool)
    (texts : list string) : bool :=
  supportsStreaming && messageId && engine
  && ((1 <? length texts) || (100 <? _getTotalComplexity texts)%Z).

(** [_batchTranslate(texts, ..., translateMode, engine, messageId, ...)] *)
Definition _batchTranslate (supportsStreaming messageId engine : bool)
    (cls : provider_class) (batchingConfig : batching_config)
    (texts : list string) (translateMode : translate_mode)
  : option (task World (list string)) :=
  if supportsStreaming && _shouldUseStreaming supportsStreaming messageId engine texts
  then _streamingBatchTranslate translateSingle aborted isCancelled hasSender
         deliver wait json _buildBatchPrompt jsonBatchStrategy timer cls
         batchingConfig texts translateMode
  else Some (_traditionalBatchTranslate texts).

End Sequential.

(** ** TranslationUIManager: the edit distance *)

(** The inner loop of [_calculateLevenshteinDistance] for one row [i >= 1]:
    [c2] is [str2.charAt(i - 1)], [prev] holds [matrix[i - 1][j]] for the
    columns [j] still to come, [diag] is [matrix[i - 1][j - 1]] and [left] is
    [matrix[i][j - 1]]. *)
Fixpoint levenshtein_row (c2 : ascii) (str1 : list ascii) (prev : list nat)
    (diag left : nat) : list nat :=
  match str1, prev with
  | c1 :: str1', up :: prev' =>
      let cell :=
        if Ascii.eqb c2 c1 then diag
        else Nat.min (diag + 1) (Nat.min (left + 1) (up + 1)) in
      cell :: levenshtein_row c2 str1' prev' up cell
  | _, _ => []
  end.

(** The outer loop: the rows [matrix[i]] for the characters of [str2] from
    row [i] on, starting from [prev = matrix[i - 1]]; the first column of
    row [i] is [i]. *)
Fixpoint levenshtein_rows (str2 str1 : list ascii) (i : nat) (prev : list nat)
  : list nat :=
  match str2 with
  | [] => prev
  | c2 :: str2' =>
      let row :=
        match prev with
        | first :: prev' => i :: levenshtein_row c2 str1 prev' first i
        | [] => []
        end in
      levenshtein_rows str2' str1 (S i) row
  end.

(** [_calculateLevenshteinDistance(str1, str2)]: row 0 is [0, 1, ...,
    str1.length], and the answer is the last cell of the last row. *)
Definition _calculateLevenshteinDistance (str1 str2 : string) : nat :=
  let row0 := seq 0 (S (String.length str1)) in
  List.last (levenshtein_rows (JS.chars str2) (JS.chars str1) 1 row0) 0.

(** The batch a dispatch event names. *)
Definition dispatched (ev : event) : option (nat * batch) :=
  match ev with
  | Execute batchIndex b => Some (batchIndex, b)
  | _ => None
  end.


(** A batch within the two bounds of [_createSmartBatches]: at most
    [optimalSize] texts, and a total complexity of at most [maxComplexity]
    unless it holds one text only. *)
Definition smart_bounded (optimalSize : nat) (maxComplexity : Z) (b : batch) : Prop :=
  1 <= length b <= optimalSize
  /\ (length b = 1 \/ (_getTotalComplexity b <= maxComplexity)%Z).

(** A batch within the budget of [_createCharacterBasedBatches]: not empty,
    and at most [maxChars] characters unless it holds one text only. *)
Definition char_bounded (maxChars : nat) (b : batch) : Prop :=
  1 <= length b /\ (length b = 1 \/ total_chars b <= maxChars).

Definition thirty_letters : list string := repeat "a" 30.

(** A class and a configuration that leave the batch size at 0. *)
Definition unsized_class : provider_class :=
  {| preferredBatchStrategy := Fixed; optimalBatchSize := 0; maxComplexity := 0 |}.

Definition unsized_config : batching_config :=
  {| cfg_strategy := None; cfg_optimalSize := 0; cfg_maxComplexity := 0;
     cfg_maxBatchSizeChars := 0; cfg_balancedBatching := false |}.

(** The first step of [_buildBatchPrompt]: the items of the prompt, numbered
    from 0. *)
Definition jsonInput (textBatch : list string) : list json_item :=
  imap (fun index text => {| item_id := Z.of_nat index; item_text := text |})
       textBatch.

(** [result || text] leaves an empty string only where the text is empty. *)
Definition answered (text result : string) : Prop := result = "" -> text = "".

Definition is_stream_end (ev : event) : Prop :=
  match ev with
  | Send (StreamEnd _) => True
  | _ => False
  end.

(** The events of one round of the streaming loop after its dispatch: no
    dispatch and no end of the stream. *)
Definition quiet (ev : event) : Prop :=
  dispatched ev = None /\ ~ is_stream_end ev.

(** A backend that answers every request; the world counts the requests. *)
Definition steady_translate (text : string) (n : nat) : (string + error) * nat :=
  (inl "ok", S n).

(** What every cell [matrix[i][j]] of the edit distance satisfies. *)
Definition cell_bounds (i j v : nat) : Prop :=
  i - j <= v /\ j - i <= v /\ v <= Nat.max i j.

(** A stream update carries as many translations as source texts. *)
Definition same_count (ev : event) : Prop :=
  match ev with
  | Send (BatchResults _ data originalData)
  | Send (FallbackResult _ data originalData) =>
      length data = length originalData
  | _ => True
  end.

(** ** TranslationUIManager: the data handed to the reassembly *)

(** [mappingInfo?.isEmptyLine] *)
Definition is_empty_line (mappingInfo : option origin) : bool :=
  match mappingInfo with
  | Some mappingInfo => isEmptyLine mappingInfo
  | None => false
  end.

(** The string ['\n']. *)
Definition newline : string := String LF "".

(** The first part of [_handleStreamEndSuccess]: the texts of
    [finalTranslatedData], one for each expanded text, pushed in order.
    [filteredExpandedTexts] is a member of the request that may be missing;
    a text is [None] where the source reads [undefined].  [JSON_parse] is
    [JSON.parse]: [None] when it throws or when the value is not an array. *)
Section StreamEnd.

Variable JSON_parse : string -> option json_array.

(** The case [request.expandedTexts.length === 1]. *)
Definition single_segment_text (translatedText : string) : string :=
  match JSON_parse translatedText with
  | Some (StringArray (first :: _)) => first
  | Some (ObjectArray (first :: _)) =>
      if String.eqb (item_text first) "" then translatedText
      else item_text first
  | _ => translatedText
  end.

Fixpoint stream_end_loop (request : stream_request)
    (filteredExpandedTexts : option (list string)) (rest : list string)
    (i : nat) : list (option string) :=
  match rest with
  | [] => []
  | expandedText :: rest' =>
      let translatedText := translatedSegments request !! i in
      let mappingInfo := originMapping request !! i in
      let text :=
        if is_empty_line mappingInfo then Some newline
        else
          match translatedText with
          | Some translatedText =>
              if length (expandedTexts request) =? 1
              then Some (single_segment_text translatedText)
              else Some translatedText
          | None =>
              match filteredExpandedTexts with
              | Some filtered => filtered !! i
              | None => Some expandedText
              end
          end in
      text :: stream_end_loop request filteredExpandedTexts rest' (S i)
  end.

Definition _handleStreamEndSuccess_data (request : stream_request)
    (filteredExpandedTexts : option (list string)) : list (option string) :=
  stream_end_loop request filteredExpandedTexts (expandedTexts request) 0.

End StreamEnd.

(** An element of the parsed answer, as [_processNonStreamingSuccess] tells
    them apart: a string, an object with its member [text] when that is a
    string, anything else.  The parsed answer is taken to be an array. *)
Inductive answer_item : Type :=
| AnswerString (s : string)
| AnswerObject (text : option string)
| AnswerOther.

(** The text [_processNonStreamingSuccess] takes from
    [translatedData[translatedIndex]]; [None] where it falls back to the
    source text. *)
Definition answer_text (item : option answer_item) : option string :=
  match item with
  | Some (AnswerString s) => if String.eqb s "" then None else Some s
  | Some (AnswerObject (Some text)) =>
      if String.eqb text "" then None else Some text
  | _ => None
  end.

(** [filteredExpandedTexts?.[i] || expandedTexts[i] || ''] *)
Definition source_text (filteredExpandedTexts : option (list string)) (i : nat)
    (expandedText : string) : string :=
  or_string (default "" (filteredExpandedTexts ≫= (fun filtered => filtered !! i)))
            (or_string expandedText "").

(** The loop of [_processNonStreamingSuccess] that maps the answer back on
    the expanded texts; [translatedIndex] moves on only past a segment that
    is not an empty line. *)
Fixpoint map_back_loop (originMapping : list origin)
    (filteredExpandedTexts : option (list string))
    (translatedData : list answer_item) (rest : list string)
    (i translatedIndex : nat) : list string :=
  match rest with
  | [] => []
  | expandedText :: rest' =>
      if is_empty_line (originMapping !! i) then
        newline :: map_back_loop originMapping filteredExpandedTexts
                     translatedData rest' (S i) translatedIndex
      else
        default (source_text filteredExpandedTexts i expandedText)
                (answer_text (translatedData !! translatedIndex))
        :: map_back_loop originMapping filteredExpandedTexts translatedData
             rest' (S i) (S translatedIndex)
  end.

Definition _processNonStreamingSuccess_data (expandedTexts : list string)
    (originMapping : list origin) (filteredExpandedTexts : option (list string))
    (translatedData : list answer_item) : list string :=
  map_back_loop originMapping filteredExpandedTexts translatedData
                expandedTexts 0 0.

(** The number of empty lines among the first [i] segments. *)
Definition empty_lines_before (originMapping : list origin) (i : nat) : nat :=
  length (filter (fun mappingInfo => isEmptyLine mappingInfo = true)
                 (take i originMapping)).

(** An answer to the payload of "Hello", an empty line and "World", one item
    for each item of the payload. *)
Definition bonjour_monde : list answer_item :=
  [ AnswerObject (Some "Bonjour"); AnswerObject (Some "");
    AnswerObject (Some "Monde") ].

(** A request in which the text "Yes" stands at two places. *)
Definition twice_yes : stream_request :=
  {| expandedTexts := ["Yes"; "No"; "Yes"];
     originMapping := [ {| originalIndex := 0; isEmptyLine := false |};
                        {| originalIndex := 1; isEmptyLine := false |};
                        {| originalIndex := 2; isEmptyLine := false |} ];
     textsToTranslate := ["Yes"; "No"; "Yes"];
     translatedSegments := ∅ |}.

(** ** TranslationUIManager.applyTranslationsToNodes: the lookup table *)

Module RegExp.

(** [s.replace(/[p]+/g, rep)] for a character class [p]: every maximal run
    of characters of the class becomes [rep]; [inrun] tells whether the
    character before [l] was of the class. *)
Fixpoint replace_runs (p : ascii -> bool) (rep : list ascii) (inrun : bool)
    (l : list ascii) : list ascii :=
  match l with
  | [] => []
  | c :: r =>
      if p c then
        if inrun then replace_runs p rep true r
        else rep ++ replace_runs p rep true r
      else c :: replace_runs p rep false r
  end.

(** [s.replace(/\s+/g, rep)] *)
Definition replace_spaces (rep : string) (s : string) : string :=
  JS.str (replace_runs JS.is_space (JS.chars rep) false (JS.chars s)).

(** [s.replace(/\n+/g, rep)] *)
Definition replace_newlines (rep : string) (s : string) : string :=
  JS.str (replace_runs (fun c => Ascii.eqb c LF) (JS.chars rep) false (JS.chars s)).

(** [s.replace(/\n\s*\n/g, '\n')]: in a run of white space, what lies
    between its first and its last line feed goes, one line feed stays.
    [pending] is [None] outside such a run; after a line feed it holds, in
    reverse, the white space read since the last line feed, which is kept
    if no other line feed follows in the run. *)
Fixpoint remove_empty_lines_go (pending : option (list ascii)) (l : list ascii)
  : list ascii :=
  match l with
  | [] =>
      match pending with
      | Some p => rev p
      | None => []
      end
  | c :: r =>
      match pending with
      | None =>
          c :: remove_empty_lines_go (if Ascii.eqb c LF then Some [] else None) r
      | Some p =>
          if Ascii.eqb c LF then remove_empty_lines_go (Some []) r
          else if JS.is_space c then remove_empty_lines_go (Some (c :: p)) r
          else rev p ++ c :: remove_empty_lines_go None r
      end
  end.

Definition remove_empty_lines (s : string) : string :=
  JS.str (remove_empty_lines_go None (JS.chars s)).

(** The class [[\d\s\-()]] *)
Definition phone_class (c : ascii) : bool :=
  let n := nat_of_ascii c in
  ((48 <=? n) && (n <=? 57)) || JS.is_space c
  || (n =? 45) || (n =? 40) || (n =? 41).

(** [s.match(/^\+?[\d\s\-()]+$/)] as a test *)
Definition phone_like (s : string) : bool :=
  let body :=
    match JS.chars s with
    | c :: r => if Ascii.eqb c "+"%char then r else c :: r
    | [] => []
    end in
  (0 <? length body) && forallb phone_class body.

(** [s.replace(/\s*$/g, '')] and [s.replace(/^\s*/g, '')] *)
Definition trimEnd (s : string) : string := JS.str (JS.trimEnd_chars (JS.chars s)).
Definition trimStart (s : string) : string := JS.str (JS.trimStart_chars (JS.chars s)).

End RegExp.

Definition spaces (n : nat) : string := JS.str (repeat " "%char n).

(** The keys under which the loop over [translations.entries()] stores the
    translation of [originalKey], in the order of the [set] calls
    (strategies 1 to 7). *)
Definition lookup_keys (originalKey : string) : list string :=
  let trimmedKey := JS.trim originalKey in
  let normalizedKey := JS.trim (RegExp.replace_spaces " " originalKey) in
  let noWhitespaceKey := RegExp.replace_spaces "" originalKey in
  [originalKey]
  ++ (if negb (String.eqb trimmedKey originalKey) then [trimmedKey] else [])
  ++ (if negb (String.eqb normalizedKey originalKey)
         && negb (String.eqb normalizedKey trimmedKey)
      then [normalizedKey] else [])
  ++ (if negb (String.eqb noWhitespaceKey originalKey)
      then [noWhitespaceKey] else [])
  ++ (if RegExp.phone_like trimmedKey then
        [ trimmedKey +:+ newline;
          newline +:+ trimmedKey;
          newline +:+ trimmedKey +:+ newline;
          trimmedKey +:+ newline +:+ spaces 28;
          trimmedKey +:+ newline +:+ spaces 26 ]
      else [])
  ++ (if 0 <? String.length trimmedKey then
        [ originalKey +:+ newline;
          originalKey +:+ newline +:+ newline;
          originalKey +:+ " ";
          " " +:+ originalKey;
          originalKey +:+ " ";
          " " +:+ originalKey +:+ " " ]
      else [])
  ++ (if 50 <? String.length trimmedKey then
        filter (fun variation =>
                  (negb (String.eqb variation originalKey)
                   && (20 <? String.length variation)) = true)
               [ RegExp.replace_spaces " " originalKey;
                 RegExp.replace_spaces newline originalKey;
                 RegExp.replace_newlines " " originalKey;
                 RegExp.remove_empty_lines originalKey;
                 JS.trim originalKey;
                 RegExp.trimEnd originalKey;
                 RegExp.trimStart originalKey ]
      else []).

(** [translationLookup.set(key, translation)] for each of [keys] *)
Definition set_keys (keys : list string) (translation : string)
    (translationLookup : gmap string string) : gmap string string :=
  fold_left (fun table key => <[key := translation]> table) keys translationLookup.

(** The lookup table of [applyTranslationsToNodes]; [translations] is the
    map of the translations, by its entries in the order of insertion. *)
Definition translationLookup (translations : list (string * string))
  : gmap string string :=
  fold_left (fun table '(originalKey, translation) =>
               set_keys (lookup_keys originalKey) translation table)
            translations ∅.

(** The first three strategies of the search for [finalTranslation]: the
    text of the node, its trimmed text, its text with every run of white
    space turned into one blank and trimmed. *)
Definition direct_lookup (translationLookup : gmap string string)
    (originalText : string) : option (string * match_strategy) :=
  let trimmedOriginalText := JS.trim originalText in
  match translationLookup !! originalText with
  | Some finalTranslation => Some (finalTranslation, exact)
  | None =>
      match translationLookup !! trimmedOriginalText with
      | Some finalTranslation => Some (finalTranslation, trimmed)
      | None =>
          let normalizedOriginal :=
            JS.trim (RegExp.replace_spaces " " originalText) in
          match translationLookup !! normalizedOriginal with
          | Some finalTranslation => Some (finalTranslation, normalized)
          | None => None
          end
      end
  end.

(** The values of [matchType] in the lookup for a node that is translated
    for the first time. *)
Inductive lookup_match : Type :=
| lookup_exact
| lookup_trimmed
| lookup_normalized
| lookup_no_whitespace.

(** [!translatedText] *)
Definition is_falsy (translatedText : option string) : bool :=
  match translatedText with
  | Some text => String.eqb text ""
  | None => true
  end.

(** The four strategies of the lookup for such a node: [translatedText]
    ([None] is [null]) and [matchType] ([None] is ['']).  The fourth
    strategy is tried when the first three leave [translatedText] falsy. *)
Definition node_lookup (translationLookup : gmap string string)
    (originalText : string) : option string * option lookup_match :=
  let trimmedOriginalText := JS.trim originalText in
  let '(translatedText, matchType) :=
    match translationLookup !! originalText with
    | Some text => (Some text, Some lookup_exact)
    | None =>
        match translationLookup !! trimmedOriginalText with
        | Some text => (Some text, Some lookup_trimmed)
        | None =>
            let normalizedOriginal :=
              JS.trim (RegExp.replace_spaces " " originalText) in
            match translationLookup !! normalizedOriginal with
            | Some text => (Some text, Some lookup_normalized)
            | None => (None, None)
            end
        end
    end in
  if is_falsy translatedText then
    let noWhitespaceOriginal := RegExp.replace_spaces "" originalText in
    match translationLookup !! noWhitespaceOriginal with
    | Some text => (Some text, Some lookup_no_whitespace)
    | None => (translatedText, matchType)
    end
  else (translatedText, matchType).

(** ** TranslationUIManager.applyTranslationsToNodes: one text node *)

(** The options of a call that the loop over the nodes reads.  In a call
    without options both are [undefined]. *)
Record apply_options : Type :=
  { opt_isFinalResult : bool; opt_skipStreamingUpdates : bool }.

(** [applyTranslationsToNodes(textNodes, translations)], as the streaming
    handlers and the fallback call it. *)
Definition no_options : apply_options :=
  {| opt_isFinalResult := false; opt_skipStreamingUpdates := false |}.


(** The options of the two calls made at the end of a stream. *)
Definition final_options : apply_options :=
  {| opt_isFinalResult := true; opt_skipStreamingUpdates := true |}.

(** What the loop reads of the wrapper above a text node: the text content
    of its [.aiwc-translation-inner] descendant ([None] when it has none)
    and whether the wrapper has a parent. *)
Record wrapper_view : Type :=
  { inner_textContent : option string; wrapper_attached : bool }.

(** What the loop reads of a text node: its text, whether it has a parent,
    and the first ancestor below [document.body] of class
    [aiwc-translation-wrapper], if there is one. *)
Record node_view : Type :=
  { node_textContent : string;
    node_attached : bool;
    translationWrapper : option wrapper_view }.

Definition is_letter (c : ascii) : bool :=
  let n := nat_of_ascii c in
  ((65 <=? n) && (n <=? 90)) || ((97 <=? n) && (n <=? 122)).

(** [/[A-Za-z]{2,}/.test(s)] *)
Fixpoint two_letters (l : list ascii) : bool :=
  match l with
  | c :: r =>
      match r with
      | d :: _ => (is_letter c && is_letter d) || two_letters r
      | [] => false
      end
  | [] => false
  end.

(** [/[\d+\-()\s]/.test(s)] *)
Definition has_phone_char (s : string) : bool :=
  existsb (fun c => let n := nat_of_ascii c in
                    ((48 <=? n) && (n <=? 57)) || (n =? 43) || (n =? 45)
                    || (n =? 40) || (n =? 41) || JS.is_space c)
          (JS.chars s).

(** [/^\s*$/.test(s)] and [/^\s+$/.test(s)] *)
Definition only_whitespace (s : string) : bool := forallb JS.is_space (JS.chars s).
Definition whitespace_run (s : string) : bool :=
  (0 <? String.length s) && only_whitespace s.

(** [s.match(/^\s*/)[0]] *)
Fixpoint leading_spaces (l : list ascii) : list ascii :=
  match l with
  | c :: r => if JS.is_space c then c :: leading_spaces r else []
  | [] => []
  end.

(** [s.startsWith(' ')] *)
Definition startsWith_blank (s : string) : bool :=
  match JS.chars s with
  | c :: _ => Ascii.eqb c " "%char
  | [] => false
  end.

(** [if (leadingWhitespace && !processedText.startsWith(' '))
    processedText = leadingWhitespace + processedText] *)
Definition preserve_leading_whitespace (originalText processedText : string)
  : string :=
  let leadingWhitespace := JS.str (leading_spaces (JS.chars originalText)) in
  if negb (String.eqb leadingWhitespace "") && negb (startsWith_blank processedText)
  then leadingWhitespace +:+ processedText
  else processedText.

Definition isTranslationCandidate (originalText : string) : bool :=
  let trimmedOriginalText := JS.trim originalText in
  let isImportantLongText := 5 <? String.length trimmedOriginalText in
  let containsComplexContent :=
    (0 <? String.length (JS.trim originalText))
    && two_letters (JS.chars originalText) in
  let hasMeaningfulContent := 0 <? String.length (JS.trim originalText) in
  let isOriginalLongText := 20 <? String.length originalText in
  isImportantLongText || containsComplexContent || hasMeaningfulContent
  || isOriginalLongText.

(** [shouldProcessNode]: every candidate for a final result; otherwise only
    a candidate under a wrapper, and only in a call with
    [skipStreamingUpdates]. *)
Definition shouldProcessNode (options : apply_options)
    (isAlreadyTranslated isTranslationCandidate : bool) : bool :=
  if opt_isFinalResult options then isTranslationCandidate
  else opt_skipStreamingUpdates options && isAlreadyTranslated
       && isTranslationCandidate.

(** What the second half of the loop body does with the text node. *)
Inductive written : Type :=
| EmptyLinePreserved
    (* white space only: the node stays as it is *)
| Wrapped (translatedText processedText : string)
    (* a new wrapper takes the place of the node; its inner span shows
       [processedText] *)
| Unmatched.
    (* nothing found, or the text itself: the node stays as it is *)

(** What the loop body does for one text node. *)
Inductive node_effect : Type :=
| NodeSkipped
    (* the node has no parent *)
| TextNodeReplaced (finalTrimmed : string)
    (* no inner span, final result: a text node with the translation takes
       the place of the node *)
| CurrentKept
    (* the wrapper and its text stay *)
| Processed (wrapperRemoved : bool) (result : written).
    (* the second half of the body has run; before it, the wrapper was
       removed from its parent and a clone of the node appended there
       ([wrapperRemoved]) or nothing was touched *)

Section ApplyToNode.

Variable table : gmap string string.

(** The strategies that follow the first three in the search for
    [finalTranslation] (the longest substantial translation for an empty
    node, the fuzzy scores, the rescue, the ratio of the lengths): they go
    through the entries of the table in their order of insertion and
    compare floating-point scores.  They are tried when the first three
    leave [finalTranslation] falsy; what they find is left open. *)
Variable later_strategies : string -> option (string * match_strategy).

(** [bestMatch] of the scored fallback (containment, common words,
    edit-distance similarity in floating point) of the second lookup. *)
Variable enhanced_fallback : string -> option string.

(** [ensureSpacingBeforeInlineElements(textNode, originalText,
    translatedText)], of [spacingUtils.js]; the flag tells whether
    [textNode] is the clone appended after the removal of a wrapper. *)
Variable ensureSpacingBeforeInlineElements : bool -> string -> string -> string.

(** The search for [finalTranslation] and [matchStrategy]. *)
Definition final_translation (originalText : string)
  : option (string * match_strategy) :=
  let direct := direct_lookup table originalText in
  if is_falsy (fst <$> direct) then
    match later_strategies originalText with
    | Some found => Some found
    | None => direct
    end
  else direct.

(** The search for [translatedText] in the second half of the body. *)
Definition translated_text (originalText : string) : option string :=
  let translatedText := (node_lookup table originalText).1 in
  if is_falsy translatedText then
    match enhanced_fallback originalText with
    | Some bestMatch =>
        if String.eqb bestMatch "" then translatedText else Some bestMatch
    | None => translatedText
    end
  else translatedText.

(** The second half of the body, from the test for empty lines on.
    [correctTextDirection] and the calls of the DOM are taken to return. *)
Definition lower_block (onClone : bool) (originalText : string) : written :=
  let trimmedOriginalText := JS.trim originalText in
  let isPhoneLike :=
    has_phone_char (JS.trim originalText)
    && (3 <? String.length (JS.trim originalText)) in
  let hasActualContent :=
    (0 <? String.length (JS.trim originalText))
    && negb (whitespace_run originalText) in
  if (String.eqb originalText (newline +:+ newline)
      || String.eqb originalText newline
      || only_whitespace originalText)
     && negb isPhoneLike && negb hasActualContent
  then EmptyLinePreserved
  else
    match translated_text originalText with
    | Some translatedText =>
        if negb (String.eqb translatedText "")
           && negb (String.eqb (JS.trim translatedText) trimmedOriginalText)
        then
          let processedText :=
            ensureSpacingBeforeInlineElements onClone originalText translatedText in
          Wrapped translatedText
                  (preserve_leading_whitespace originalText processedText)
        else Unmatched
    | None => Unmatched
    end.

(** The body of [validTextNodes.forEach] for one node. *)
Definition apply_to_node (options : apply_options) (node : node_view)
  : node_effect :=
  if negb (node_attached node) then NodeSkipped
  else
    let originalText := node_textContent node in
    let isAlreadyTranslated := bool_decide (is_Some (translationWrapper node)) in
    if shouldProcessNode options isAlreadyTranslated
                         (isTranslationCandidate originalText)
    then
      let translationInner := translationWrapper node ≫= inner_textContent in
      match final_translation originalText with
      | Some (finalTranslation, matchStrategy) =>
          match replacement_decision (opt_isFinalResult options) matchStrategy
                                     translationInner finalTranslation with
          | NotConsidered => Processed false (lower_block false originalText)
          | ApplyToTextNode finalTrimmed => TextNodeReplaced finalTrimmed
          | ReplaceWrapper =>
              let removed :=
                match translationWrapper node with
                | Some wrapper => wrapper_attached wrapper
                | None => false
                end in
              Processed removed (lower_block removed originalText)
          | KeepCurrent => CurrentKept
          end
      | None => Processed false (lower_block false originalText)
      end
    else Processed false (lower_block false originalText).

End ApplyToNode.



(** * Properties *)

(** ** Text complexity *)

Example complexity_a : _calculateTextComplexity (JSString "a") = 1%Z.
Proof. reflexivity. Qed.

Example complexity_sentence :
  _calculateTextComplexity (JSString "Hello world. How are you?!") = 20%Z.
Proof. reflexivity. Qed.

Example complexity_forty : _calculateTextComplexity (JSString forty) = 21%Z.
Proof. reflexivity. Qed.

Example split_ws_examples :
  JS.split_ws "" = [""] /\ JS.split_ws " a" = [""; "a"]
  /\ JS.split_ws "a  b " = ["a"; "b"; ""] /\ JS.trim "  a b  " = "a b".
Proof. repeat split; reflexivity. Qed.

Lemma split_ws_go_length l : forall cur b,
  length (JS.split_ws_go cur b l) = 1 + JS.count_runs JS.is_space b l.
Proof.
  induction l as [|c r IH]; intros cur b; simpl; [reflexivity|].
  destruct (JS.is_space c).
  - destruct b; simpl; rewrite IH; lia.
  - apply IH.
Qed.

(** The white-space runs left after [trimEnd] against the words: behind a
    word character, and behind white space. *)
Lemma words_and_gaps l :
  JS.count_runs (fun c => negb (JS.is_space c)) true l
  = JS.count_runs JS.is_space false (JS.trimEnd_chars l)
  /\ JS.count_runs (fun c => negb (JS.is_space c)) false l
     = JS.count_runs JS.is_space true (JS.trimEnd_chars l)
       + (if JS.trimEnd_chars l is [] then 0 else 1).
Proof.
  induction l as [|c r [IHa IHb]]; simpl; [split; reflexivity|].
  destruct (JS.is_space c) eqn:Hc; simpl.
  - rewrite IHb. destruct (JS.trimEnd_chars r) as [|c' r'] eqn:Hr; simpl;
      rewrite ?Hc; simpl; split; lia.
  - rewrite IHa. destruct (JS.trimEnd_chars r) as [|c' r'] eqn:Hr; simpl;
      rewrite ?Hc; simpl; split; lia.
Qed.

Lemma trimStart_chars_cases l :
  JS.trimStart_chars l = []
  \/ exists c r, JS.trimStart_chars l = c :: r /\ JS.is_space c = false.
Proof.
  induction l as [|c r IH]; simpl; [left; reflexivity|].
  destruct (JS.is_space c) eqn:Hc; [exact IH|]. right. eauto.
Qed.

Lemma trimEnd_chars_idem l : JS.trimEnd_chars (JS.trimEnd_chars l) = JS.trimEnd_chars l.
Proof.
  induction l as [|c r IH]; simpl; [reflexivity|].
  destruct (JS.trimEnd_chars r) as [|c' r'] eqn:Hr.
  - destruct (JS.is_space c) eqn:Hc; simpl; [reflexivity|]. rewrite Hc. reflexivity.
  - cbn [JS.trimEnd_chars] in *. rewrite IH. reflexivity.
Qed.

Lemma trimEnd_chars_head c r :
  JS.is_space c = false -> exists r', JS.trimEnd_chars (c :: r) = c :: r'.
Proof. intros Hc. simpl. destruct (JS.trimEnd_chars r); rewrite ?Hc; eauto. Qed.

Lemma chars_str l : JS.chars (JS.str l) = l.
Proof. apply String.list_ascii_of_string_of_list_ascii. Qed.

Lemma str_chars s : JS.str (JS.chars s) = s.
Proof. apply String.string_of_list_ascii_of_string. Qed.

(** The pieces of [trim().split(/\s+/)] are the words, except that a string
    without any word still has one piece. *)
Lemma split_trim_length s :
  length (JS.split_ws (JS.trim s)) = Nat.max 1 (wordCount s).
Proof.
  unfold JS.split_ws, wordCount, JS.trim, JS.split_ws_chars.
  rewrite length_map, !chars_str, split_ws_go_length.
  unfold JS.trim_chars.
  destruct (trimStart_chars_cases (JS.chars s)) as [-> | (c & r & -> & Hc)].
  - reflexivity.
  - destruct (trimEnd_chars_head c r Hc) as [r' Hr'].
    pose proof (trimEnd_chars_idem (c :: r)) as Hidem.
    destruct (words_and_gaps (JS.trimEnd_chars (c :: r))) as [_ Hb].
    rewrite Hidem in Hb. rewrite Hb, Hr'. simpl. rewrite Hc. lia.
Qed.

Lemma complexity_unfold s :
  s <> "" ->
  _calculateTextComplexity (JSString s)
  = complexity_formula (String.length s) (sentenceCount s) (Nat.max 1 (wordCount s)).
Proof.
  intros Hs. unfold _calculateTextComplexity.
  destruct (String.eqb_spec s ""); [contradiction|].
  rewrite split_trim_length. reflexivity.
Qed.

Lemma wordCount_empty : wordCount "" = 0.
Proof. reflexivity. Qed.


(** C9, as stated, fails on a string of two blanks: the source counts one
    piece of [split] where the string has no word, and answers 2, while the
    stated formula gives round(1 + 0 + 0) = 1. *)
Lemma complexity_blank_counterexample :
  _calculateTextComplexity (JSString "  ") <> spec_complexity "  ".
Proof. vm_compute. discriminate. Qed.

(** C9, amended: the complexity of a non-empty string is
    round(min(length*0.5, 100) + sentenceCount*2 + min(w*0.5, 20)), where [w]
    is the number of white-space separated words of the trimmed string, taken
    as 1 when the string has no word; the complexity of the empty string and
    of anything that is not a string is 0. *)
Theorem text_complexity_formula (text : jsvalue) :
  _calculateTextComplexity text =
    match text with
    | JSString s =>
        if String.eqb s "" then 0%Z
        else complexity_formula (String.length s) (sentenceCount s)
                                (Nat.max 1 (wordCount s))
    | _ => 0%Z
    end.
Proof.
  destruct text as [| | | |s]; try reflexivity.
  destruct (String.eqb_spec s "") as [->|Hs]; [reflexivity|].
  apply complexity_unfold, Hs.
Qed.

(** On a string with at least one word the source and the stated formula
    agree. *)
Lemma complexity_agrees_with_spec s :
  1 <= wordCount s -> _calculateTextComplexity (JSString s) = spec_complexity s.
Proof.
  intros Hw. rewrite complexity_unfold.
  - unfold spec_complexity. rewrite Nat.max_r by exact Hw. reflexivity.
  - intros ->. rewrite wordCount_empty in Hw. lia.
Qed.

(** ** Batch planning *)

Example smart_example :
  _createSmartBatches ["a"; "b"; "c"] 2 2 = [["a"; "b"]; ["c"]].
Proof. reflexivity. Qed.

Example fixed_example :
  _createFixedBatches ["a"; "b"; "c"; "d"; "e"] 2 = Some [["a"; "b"]; ["c"; "d"]; ["e"]].
Proof. reflexivity. Qed.

Example fixed_diverges : _createFixedBatches ["a"] 0 = None.
Proof. reflexivity. Qed.

Example char_example :
  _createCharacterBasedBatches ["abc"; "de"; "fghijk"; "l"; "m"] 5 false
  = [["abc"; "de"]; ["fghijk"]; ["l"; "m"]].
Proof. reflexivity. Qed.

Lemma flush_concat (batches : list batch) (currentBatch : batch) :
  concat (if 0 <? length currentBatch then batches ++ [currentBatch] else batches)
  = concat batches ++ currentBatch.
Proof.
  destruct currentBatch as [|x l]; simpl.
  - rewrite app_nil_r. reflexivity.
  - rewrite concat_app. simpl. rewrite app_nil_r. reflexivity.
Qed.

Lemma concat_snoc (batches : list batch) (b : batch) :
  concat (batches ++ [b]) = concat batches ++ b.
Proof. rewrite concat_app. simpl. rewrite app_nil_r. reflexivity. Qed.

Lemma smart_loop_concat optimalSize maxComplexity texts :
  forall batches currentBatch currentComplexity,
    concat (smart_loop optimalSize maxComplexity texts batches currentBatch
                       currentComplexity)
    = concat batches ++ currentBatch ++ texts.
Proof.
  induction texts as [|text rest IH]; intros batches currentBatch c.
  - simpl. rewrite flush_concat, app_nil_r. reflexivity.
  - cbn [smart_loop].
    destruct ((optimalSize <=? length currentBatch)
              || ((maxComplexity <? c + _calculateTextComplexity (JSString text))%Z
                  && (0 <? length currentBatch))); cbn [close_batch].
    + rewrite IH, concat_snoc. simpl. rewrite <- app_assoc. reflexivity.
    + rewrite IH, <- app_assoc. reflexivity.
Qed.

Lemma smart_concat texts optimalSize maxComplexity :
  concat (_createSmartBatches texts optimalSize maxComplexity) = texts.
Proof.
  unfold _createSmartBatches.
  destruct (_ || _).
  - simpl. apply app_nil_r.
  - rewrite smart_loop_concat. reflexivity.
Qed.

Ltac finish_concat :=
  rewrite ?concat_snoc; simpl; rewrite <- ?app_assoc; simpl;
  rewrite ?app_nil_r; reflexivity.

Lemma char_loop_concat target texts :
  forall batches currentBatch currentChars,
    concat (char_loop target texts batches currentBatch currentChars)
    = concat batches ++ currentBatch ++ texts.
Proof.
  induction texts as [|text rest IH]; intros batches currentBatch c.
  - simpl. rewrite flush_concat, app_nil_r. reflexivity.
  - cbn [char_loop].
    destruct ((target <? c + String.length text) && (0 <? length currentBatch));
      cbn [close_batch].
    + destruct (target <? String.length text); cbn [length Nat.ltb Nat.leb];
        rewrite IH; finish_concat.
    + destruct (target <? String.length text).
      * destruct currentBatch as [|x l]; cbn [length Nat.ltb Nat.leb close_batch];
          rewrite IH; finish_concat.
      * rewrite IH. finish_concat.
Qed.

Lemma char_concat texts maxCharsPerBatch balancedBatching :
  concat (_createCharacterBasedBatches texts maxCharsPerBatch balancedBatching) = texts.
Proof.
  unfold _createCharacterBasedBatches.
  destruct (_ <=? _).
  - simpl. apply app_nil_r.
  - rewrite char_loop_concat. reflexivity.
Qed.

Lemma fixed_loop_concat texts batchSize :
  0 < batchSize ->
  forall fuel i batches,
    length texts <= i + fuel ->
    exists result,
      fixed_loop fuel texts batchSize i batches = Some result
      /\ concat result = concat batches ++ drop i texts.
Proof.
  intros Hpos. induction fuel as [|fuel IH]; intros i batches Hfuel.
  - simpl. destruct (i <? length texts) eqn:Hi.
    + apply Nat.ltb_lt in Hi. lia.
    + apply Nat.ltb_ge in Hi. exists batches. split; [reflexivity|].
      rewrite drop_ge by exact Hi. rewrite app_nil_r. reflexivity.
  - cbn [fixed_loop]. destruct (i <? length texts) eqn:Hi.
    + destruct (IH (i + batchSize)
                   (batches ++ [JS.slice texts i (i + batchSize)]))
        as (result & Hres & Hcat); [lia|].
      exists result. split; [exact Hres|].
      rewrite Hcat, concat_snoc. unfold JS.slice.
      replace (i + batchSize - i) with batchSize by lia.
      rewrite <- app_assoc. f_equal.
      rewrite <- (take_drop batchSize (drop i texts)) at 2.
      rewrite drop_drop. reflexivity.
    + apply Nat.ltb_ge in Hi. exists batches. split; [reflexivity|].
      rewrite drop_ge by exact Hi. rewrite app_nil_r. reflexivity.
Qed.

Lemma fixed_concat texts batchSize :
  0 < batchSize ->
  exists batches,
    _createFixedBatches texts batchSize = Some batches /\ concat batches = texts.
Proof.
  intros Hpos.
  destruct (fixed_loop_concat texts batchSize Hpos (length texts) 0 [])
    as (result & Hres & Hcat); [lia|].
  exists result. split; [exact Hres|]. rewrite Hcat. reflexivity.
Qed.

(** C1: for the four strategies (single, smart, fixed, character budget) and
    every list of texts, the batches come back and their concatenation, in
    batch order and then in the order inside each batch, is the list of
    texts: nothing is lost, doubled or moved.  The fixed strategy needs a
    batch size of at least one, which [_createOptimalBatches] gives it
    whenever the class declares one. *)
Theorem batches_cover_texts (texts : list string) (optimalSize : nat)
    (maxComplexity : Z) (maxCharsPerBatch : nat) (balancedBatching : bool)
    (Hsize : 0 < optimalSize) :
  concat [texts] = texts
  /\ concat (_createSmartBatches texts optimalSize maxComplexity) = texts
  /\ (exists batches,
        _createFixedBatches texts optimalSize = Some batches
        /\ concat batches = texts)
  /\ concat (_createCharacterBasedBatches texts maxCharsPerBatch balancedBatching)
     = texts.
Proof.
  split; [simpl; apply app_nil_r|].
  split; [apply smart_concat|].
  split; [apply fixed_concat, Hsize|].
  apply char_concat.
Qed.

Lemma batches_cover_texts_witness :
  0 < 2
  /\ concat [["a"; "b"; "c"]] = ["a"; "b"; "c"]
  /\ concat (_createSmartBatches ["a"; "b"; "c"] 2 0) = ["a"; "b"; "c"]
  /\ (exists batches,
        _createFixedBatches ["a"; "b"; "c"] 2 = Some batches
        /\ concat batches = ["a"; "b"; "c"])
  /\ concat (_createCharacterBasedBatches ["a"; "b"; "c"] 2 true) = ["a"; "b"; "c"].
Proof.
  split; [lia|]. apply (batches_cover_texts ["a"; "b"; "c"] 2 0 2 true). lia.
Defined.

(** The same through the dispatcher: whatever the configuration selects, the
    planned batches cover the texts. *)
Lemma optimal_batches_cover_texts cls batchingConfig texts translateMode :
  optimalBatchSize cls <> 0 ->
  exists batches,
    _createOptimalBatches cls batchingConfig texts translateMode = Some batches
    /\ concat batches = texts.
Proof.
  intros Hcls. unfold _createOptimalBatches.
  assert (Hsize : 0 < or_nat (cfg_optimalSize batchingConfig) (optimalBatchSize cls)).
  { unfold or_nat. destruct (cfg_optimalSize batchingConfig =? 0) eqn:E.
    - lia.
    - apply Nat.eqb_neq in E. lia. }
  assert (Hrest :
    exists batches,
      match default (preferredBatchStrategy cls) (cfg_strategy batchingConfig) with
      | Smart =>
          Some (_createSmartBatches texts
                  (or_nat (cfg_optimalSize batchingConfig) (optimalBatchSize cls))
                  (or_Z (cfg_maxComplexity batchingConfig) (maxComplexity cls)))
      | Single => Some [texts]
      | _ => _createFixedBatches texts
               (or_nat (cfg_optimalSize batchingConfig) (optimalBatchSize cls))
      end = Some batches /\ concat batches = texts).
  { destruct (default _ _).
    - eexists. split; [reflexivity|]. apply smart_concat.
    - eexists. split; [reflexivity|]. simpl. apply app_nil_r.
    - apply fixed_concat, Hsize.
    - apply fixed_concat, Hsize. }
  destruct translateMode; [|exact Hrest].
  destruct (cfg_maxBatchSizeChars batchingConfig); [exact Hrest|].
  eexists. split; [reflexivity|]. apply char_concat.
Qed.

(** C2, as stated, fails for the members of the base class (optimal size 15,
    maximal complexity 300): sixteen texts of forty characters are at most
    twenty texts, and come back in two batches. *)
Lemma smart_threshold_counterexample :
  length (replicate 16 forty) <= 20
  /\ _createSmartBatches (replicate 16 forty) (optimalBatchSize BaseAIProvider)
                         (maxComplexity BaseAIProvider)
     = [replicate 14 forty; replicate 2 forty].
Proof. split; [simpl; lia|]. vm_compute. reflexivity. Qed.

Lemma smart_early_exit texts optimalSize maxComplexity :
  length texts <= Nat.min 20 optimalSize
  \/ (_getTotalComplexity texts < Z.min 300 maxComplexity)%Z ->
  _createSmartBatches texts optimalSize maxComplexity = [texts].
Proof.
  intros H. unfold _createSmartBatches.
  destruct H as [H|H].
  - apply Nat.leb_le in H. rewrite H. reflexivity.
  - apply Z.ltb_lt in H. rewrite H, orb_true_r. reflexivity.
Qed.

(** C2, amended: smart batching returns exactly one batch with all the texts
    whenever the number of texts is at most min(20, optimalSize) or the total
    complexity is less than min(300, maxComplexity). *)
Theorem smart_single_batch (texts : list string) (optimalSize : nat)
    (maxComplexity : Z)
    (H : length texts <= Nat.min 20 optimalSize
         \/ (_getTotalComplexity texts < Z.min 300 maxComplexity)%Z) :
  _createSmartBatches texts optimalSize maxComplexity = [texts].
Proof. apply smart_early_exit, H. Qed.

Lemma smart_single_batch_witness :
  (length (replicate 20 "a") <= Nat.min 20 25
   \/ (_getTotalComplexity (replicate 20 "a") < Z.min 300 400)%Z)
  /\ _createSmartBatches (replicate 20 "a") 25 400 = [replicate 20 "a"].
Proof.
  assert (H : length (replicate 20 "a") <= Nat.min 20 25
              \/ (_getTotalComplexity (replicate 20 "a") < Z.min 300 400)%Z).
  { left. simpl. lia. }
  split; [exact H|]. apply (smart_single_batch _ 25 400 H).
Defined.

Lemma total_complexity_const texts (c : Z) :
  Forall (fun text => _calculateTextComplexity (JSString text) = c) texts ->
  _getTotalComplexity texts = (Z.of_nat (length texts) * c)%Z.
Proof.
  unfold _getTotalComplexity. intros H.
  enough (G : forall acc,
            fold_left (fun sum text =>
                         (sum + _calculateTextComplexity (JSString text))%Z)
                      texts acc
            = (acc + Z.of_nat (length texts) * c)%Z) by (rewrite G; lia).
  induction H as [|text rest Hc _ IH]; intros acc; simpl length.
  - simpl. lia.
  - cbn [fold_left]. rewrite IH, Hc. lia.
Qed.

(** Twenty texts of complexity 1 come back as one batch as soon as the
    optimal size is at least 20 or the maximal complexity is above 20, which
    holds for every provider class of the sources. *)
Lemma smart_twenty_trivial texts optimalSize maxComplexity :
  length texts = 20 ->
  Forall (fun text => _calculateTextComplexity (JSString text) = 1%Z) texts ->
  20 <= optimalSize \/ (20 < maxComplexity)%Z ->
  _createSmartBatches texts optimalSize maxComplexity = [texts].
Proof.
  intros Hlen Hone Hpar. apply smart_early_exit.
  destruct Hpar as [Hp|Hp]; [left; lia|right].
  rewrite (total_complexity_const texts 1 Hone), Hlen. lia.
Qed.

(** With the thresholds of the claim at or below the parameters, the claim
    holds as it is written. *)
Lemma smart_single_batch_large_parameters texts optimalSize maxComplexity :
  20 <= optimalSize -> (300 <= maxComplexity)%Z ->
  length texts <= 20 \/ (_getTotalComplexity texts < 300)%Z ->
  _createSmartBatches texts optimalSize maxComplexity = [texts].
Proof.
  intros Ho Hm H. apply smart_early_exit. destruct H; [left|right]; lia.
Qed.

(** C7, as stated, fails: two segments of length 60 do not fit a budget of
    100, so three such segments make three batches, balanced or not. *)
Lemma char_budget_counterexample :
  length (_createCharacterBasedBatches [sixty; sixty; sixty] 100 true) <> 2
  /\ length (_createCharacterBasedBatches [sixty; sixty; sixty] 100 false) <> 2.
Proof. split; vm_compute; discriminate. Qed.

(** C7, amended: for 3 segments of length 60 and a budget of 100 characters
    the planner returns exactly 3 batches of one segment each, and the total
    character count of each batch (60) does not exceed 100. *)
Theorem char_budget_three_batches (a b c : string) (balancedBatching : bool)
    (Ha : String.length a = 60) (Hb : String.length b = 60)
    (Hc : String.length c = 60) :
  _createCharacterBasedBatches [a; b; c] 100 balancedBatching = [[a]; [b]; [c]]
  /\ Forall (fun batch => total_chars batch <= 100)
            (_createCharacterBasedBatches [a; b; c] 100 balancedBatching).
Proof.
  assert (E : _createCharacterBasedBatches [a; b; c] 100 balancedBatching
              = [[a]; [b]; [c]]).
  { unfold _createCharacterBasedBatches, total_chars. cbn [fold_left].
    rewrite Ha, Hb, Hc. cbn [Nat.add Nat.leb length].
    destruct balancedBatching; cbn -[String.length];
      rewrite ?Ha, ?Hb, ?Hc; cbn -[String.length];
      rewrite ?Ha, ?Hb, ?Hc; reflexivity. }
  split; [exact E|]. rewrite E, !Forall_cons.
  unfold total_chars. cbn [fold_left Nat.add]. rewrite Ha, Hb, Hc.
  repeat split; try lia. apply Forall_nil. exact I.
Qed.

Lemma char_budget_three_batches_witness :
  String.length sixty = 60
  /\ _createCharacterBasedBatches [sixty; sixty; sixty] 100 true
     = [[sixty]; [sixty]; [sixty]].
Proof.
  split; [reflexivity|].
  apply (char_budget_three_batches sixty sixty sixty true);
    reflexivity.
Defined.

(** ** Reading the answer to a batch prompt *)

Example sort_by_id_stable :
  map item_text
      (sort_by_id [ {| item_id := 2; item_text := "c" |};
                    {| item_id := 0; item_text := "a" |};
                    {| item_id := 2; item_text := "d" |};
                    {| item_id := 1; item_text := "b" |} ])
  = ["a"; "b"; "c"; "d"].
Proof. reflexivity. Qed.

Lemma insert_by_id_perm x l : insert_by_id x l ≡ₚ x :: l.
Proof.
  induction l as [|y r IH]; simpl; [reflexivity|].
  destruct (item_id x <=? item_id y)%Z; [reflexivity|].
  rewrite IH. apply Permutation_swap.
Qed.

Lemma sort_by_id_perm l : sort_by_id l ≡ₚ l.
Proof.
  induction l as [|x l IH]; simpl; [reflexivity|].
  rewrite insert_by_id_perm, IH. reflexivity.
Qed.

Lemma insert_by_id_sorted x l :
  Sorted id_le l -> Sorted id_le (insert_by_id x l).
Proof.
  induction 1 as [|y r Hr IH Hhd]; simpl.
  - repeat constructor.
  - destruct (item_id x <=? item_id y)%Z eqn:E.
    + apply Z.leb_le in E. repeat constructor; assumption.
    + apply Z.leb_gt in E. constructor; [exact IH|].
      destruct r as [|z r']; simpl.
      * constructor. unfold id_le. lia.
      * destruct (item_id x <=? item_id z)%Z.
        -- constructor. unfold id_le. lia.
        -- constructor. inversion Hhd. assumption.
Qed.

Lemma sort_by_id_sorted l : Sorted id_le (sort_by_id l).
Proof.
  induction l as [|x l IH]; simpl; [constructor|].
  apply insert_by_id_sorted, IH.
Qed.

Lemma pad_with_original_spec missing originalBatch :
  forall translatedTexts,
    length translatedTexts + missing <= length originalBatch ->
    pad_with_original missing originalBatch translatedTexts
    = translatedTexts ++ take missing (drop (length translatedTexts) originalBatch).
Proof.
  induction missing as [|k IH]; intros acc Hlen; simpl.
  - rewrite take_0, app_nil_r. reflexivity.
  - rewrite IH by (rewrite length_app; simpl; lia).
    rewrite length_app, <- app_assoc. simpl. f_equal.
    destruct (drop (length acc) originalBatch) as [|x rest] eqn:Hd.
    + apply (f_equal length) in Hd. rewrite length_drop in Hd. simpl in Hd. lia.
    + simpl. assert (Hx : originalBatch !! length acc = Some x).
      { rewrite <- (Nat.add_0_r (length acc)), <- lookup_drop, Hd. reflexivity. }
      rewrite (nth_lookup_Some _ _ _ _ Hx). f_equal. f_equal.
      rewrite <- drop_drop, Hd. reflexivity.
Qed.

(** An answer of the right shape whose count differs from the size of the
    batch: what [_parseBatchResult] returns. *)
Lemma parse_mismatch_result json result expectedCount originalBatch parsed :
  json result = Some (ObjectArray parsed) ->
  parsed <> [] ->
  length parsed <> expectedCount ->
  length originalBatch = expectedCount ->
  _parseBatchResult json result expectedCount originalBatch
  = map item_text (sort_by_id (take expectedCount parsed))
    ++ drop (length parsed) originalBatch.
Proof.
  intros Hjson Hne Hmis Horig. unfold _parseBatchResult. rewrite Hjson.
  destruct parsed as [|first others]; [contradiction|].
  set (parsed := first :: others) in *.
  destruct (length parsed =? expectedCount) eqn:E1.
  { apply Nat.eqb_eq in E1. contradiction. }
  destruct (expectedCount <? length parsed) eqn:E2.
  - apply Nat.ltb_lt in E2. unfold JS.slice.
    rewrite drop_0, Nat.sub_0_r, drop_ge by lia. rewrite app_nil_r. reflexivity.
  - apply Nat.ltb_ge in E2.
    assert (Hlen : length (map item_text (sort_by_id parsed)) = length parsed).
    { rewrite length_map. apply Permutation_length, sort_by_id_perm. }
    rewrite pad_with_original_spec by (rewrite Hlen; lia).
    rewrite Hlen, (take_ge parsed) by lia.
    rewrite take_ge by (rewrite length_drop; lia). reflexivity.
Qed.

Lemma parse_objects_length json result expectedCount originalBatch parsed :
  json result = Some (ObjectArray parsed) ->
  parsed <> [] ->
  length originalBatch = expectedCount ->
  length (_parseBatchResult json result expectedCount originalBatch) = expectedCount.
Proof.
  intros Hjson Hne Horig.
  destruct (decide (length parsed = expectedCount)) as [Heq|Hmis].
  - unfold _parseBatchResult. rewrite Hjson.
    destruct parsed as [|first others]; [contradiction|].
    apply Nat.eqb_eq in Heq. rewrite Heq. apply Nat.eqb_eq in Heq.
    rewrite length_map, (Permutation_length (sort_by_id_perm _)). exact Heq.
  - rewrite (parse_mismatch_result json result expectedCount originalBatch parsed)
      by assumption.
    rewrite length_app, length_map, (Permutation_length (sort_by_id_perm _)).
    rewrite length_take, length_drop. lia.
Qed.

Lemma numbered_sorted (l : list string) : forall k,
  Sorted id_le
    (imap (fun i t => {| item_id := Z.of_nat (k + i); item_text := t |}) l).
Proof.
  induction l as [|t l IH]; intros k; [constructor|].
  rewrite imap_cons. constructor.
  - erewrite imap_ext; [apply (IH (S k))|].
    intros i x _. simpl. f_equal. lia.
  - destruct l as [|t' l]; [constructor|].
    constructor. unfold id_le. simpl. lia.
Qed.

Lemma numbered_texts (l : list string) : forall k,
  map item_text
    (imap (fun i t => {| item_id := Z.of_nat (k + i); item_text := t |}) l) = l.
Proof.
  induction l as [|t l IH]; intros k; [reflexivity|].
  rewrite imap_cons. cbn [map item_text]. f_equal.
  erewrite imap_ext; [apply (IH (S k))|].
  intros i x _. simpl. f_equal. lia.
Qed.

Lemma jsonInput_sorted l : Sorted id_le (jsonInput l).
Proof. apply (numbered_sorted l 0). Qed.

Lemma jsonInput_texts l : map item_text (jsonInput l) = l.
Proof. apply (numbered_texts l 0). Qed.

Lemma jsonInput_ids l x y :
  x ∈ jsonInput l -> y ∈ jsonInput l -> item_id x = item_id y -> x = y.
Proof.
  unfold jsonInput. intros Hx Hy Hid.
  apply elem_of_lookup_imap in Hx as (i & t & -> & Hi).
  apply elem_of_lookup_imap in Hy as (j & u & -> & Hj).
  simpl in Hid. assert (i = j) by lia. subst j. congruence.
Qed.

Lemma sort_by_id_numbered parsed l :
  parsed ≡ₚ jsonInput l -> sort_by_id parsed = jsonInput l.
Proof.
  intros Hperm.
  assert (Htrans : Transitive id_le).
  { intros a b c. unfold id_le. lia. }
  apply (Sorted_unique_strong id_le).
  - intros x y Hx Hy Hxy Hyx. unfold id_le in *.
    apply (jsonInput_ids l); [|exact Hy|lia].
    rewrite <- Hperm, <- (sort_by_id_perm parsed). exact Hx.
  - apply sort_by_id_sorted.
  - apply jsonInput_sorted.
  - rewrite sort_by_id_perm. exact Hperm.
Qed.

Example recovery_pads_the_tail :
  _parseBatchResult (fun _ => Some (ObjectArray two_items)) "[]" 3
                    ["one"; "two"; "three"]
  = ["un"; "deux"; "three"].
Proof. reflexivity. Qed.

Example recovery_keeps_the_first_items :
  _parseBatchResult
    (fun _ => Some (ObjectArray
                      [ {| item_id := 5; item_text := "e" |};
                        {| item_id := 0; item_text := "a" |};
                        {| item_id := 1; item_text := "b" |} ]))
    "[]" 2 ["one"; "two"]
  = ["a"; "e"].
Proof. reflexivity. Qed.

(** The guard for an array that holds one string answers that string alone,
    whatever the size of the batch; [_translateBatch] then takes the count
    for a mismatch and falls back to single requests. *)
Example single_string_array :
  _parseBatchResult (fun _ => Some (StringArray ["un"])) "[]" 2 ["one"; "two"]
  = ["un"].
Proof. reflexivity. Qed.

Lemma fallbackParsing_length result expectedCount originalBatch :
  length originalBatch = expectedCount ->
  length (_fallbackParsing result expectedCount originalBatch) = expectedCount.
Proof.
  intros Horig. unfold _fallbackParsing.
  destruct (_ && _) eqn:E1.
  - apply andb_true_iff in E1 as [_ E1]. apply Nat.eqb_eq in E1. exact E1.
  - destruct (length (split_backslash_n result) =? expectedCount) eqn:E2;
      [apply Nat.eqb_eq in E2; exact E2|exact Horig].
Qed.

(** ** The streaming coordinator *)

Section TaskFacts.

Context {World : Type}.
Implicit Types P Q : event -> Prop.

Lemma appends_mono {A} P Q (m : task World A) :
  (forall ev, P ev -> Q ev) -> appends P m -> appends Q m.
Proof.
  intros HPQ Hm s o s' H. destruct (Hm s o s' H) as (new & E & F).
  exists new. split; [exact E|]. eapply Forall_impl; eauto.
Qed.

Lemma appends_returns {A} P (m : task World A) : appends P m -> returns_with P m.
Proof. intros Hm s a s' H. exact (Hm s _ s' H). Qed.

Lemma appends_ret {A} P (a : A) : appends P (mret a : task World A).
Proof.
  intros s o s' H. inversion H; subst. exists []. rewrite app_nil_r. auto.
Qed.

Lemma appends_throw {A} P e : appends P (throw e : task World A).
Proof.
  intros s o s' H. inversion H; subst. exists []. rewrite app_nil_r. auto.
Qed.

Lemma appends_bind {A B} P (m : task World A) (f : A -> task World B) :
  appends P m -> (forall a, appends P (f a)) -> appends P (m ≫= f).
Proof.
  intros Hm Hf s o s' H. unfold mbind, task_bind in H.
  destruct (m s) as [[a|e] s1] eqn:Hms.
  - destruct (Hm _ _ _ Hms) as (n1 & E1 & F1).
    destruct (Hf a _ _ _ H) as (n2 & E2 & F2).
    exists (n1 ++ n2). rewrite E2, E1, app_assoc. split; [reflexivity|].
    apply Forall_app; auto.
  - inversion H; subst. exact (Hm _ _ _ Hms).
Qed.

Lemma appends_try_catch {A} P (m : task World A) handler :
  appends P m -> (forall e, appends P (handler e)) -> appends P (try_catch m handler).
Proof.
  intros Hm Hh s o s' H. unfold try_catch in H.
  destruct (m s) as [[a|e] s1] eqn:Hms.
  - inversion H; subst. exact (Hm _ _ _ Hms).
  - destruct (Hm _ _ _ Hms) as (n1 & E1 & F1).
    destruct (Hh e _ _ _ H) as (n2 & E2 & F2).
    exists (n1 ++ n2). rewrite E2, E1, app_assoc. split; [reflexivity|].
    apply Forall_app; auto.
Qed.

Lemma appends_observe P (f : World -> bool) : appends P (observe f).
Proof.
  intros s o s' H. inversion H; subst. exists []. rewrite app_nil_r. auto.
Qed.

Lemma appends_record P ev : P ev -> appends P (record_event ev : task World unit).
Proof.
  intros Hev s o s' H. inversion H; subst. exists [ev]. simpl. auto.
Qed.

Lemma returns_ret {A} Q (a : A) : returns_with Q (mret a : task World A).
Proof. apply appends_returns, appends_ret. Qed.

Lemma returns_throw {A} Q e : returns_with Q (throw e : task World A).
Proof. intros s a s' H. inversion H. Qed.

Lemma returns_bind {A B} Q (m : task World A) (f : A -> task World B) :
  returns_with Q m -> (forall a, returns_with Q (f a)) -> returns_with Q (m ≫= f).
Proof.
  intros Hm Hf s b s' H. unfold mbind, task_bind in H.
  destruct (m s) as [[a|e] s1] eqn:Hms; [|inversion H].
  destruct (Hm _ _ _ Hms) as (n1 & E1 & F1).
  destruct (Hf a _ _ _ H) as (n2 & E2 & F2).
  exists (n1 ++ n2). rewrite E2, E1, app_assoc. split; [reflexivity|].
  apply Forall_app; auto.
Qed.

Lemma returns_try_catch_throwing {A} Q (m : task World A) handler :
  returns_with Q m -> (forall e, always_throws (handler e)) ->
  returns_with Q (try_catch m handler).
Proof.
  intros Hm Hh s a s' H. unfold try_catch in H.
  destruct (m s) as [[a'|e] s1] eqn:Hms.
  - inversion H; subst. exact (Hm _ _ _ Hms).
  - exfalso. exact (Hh e _ _ _ H).
Qed.

Lemma bind_always_throws {A B} (m : task World A) (f : A -> task World B) :
  (forall a, always_throws (f a)) -> always_throws (m ≫= f).
Proof.
  intros Hf s b s' H. unfold mbind, task_bind in H.
  destruct (m s) as [[a|e] s1]; [exact (Hf a _ _ _ H)|inversion H].
Qed.

Lemma throw_always_throws {A} e : always_throws (throw e : task World A).
Proof. intros s a s' H. inversion H. Qed.

End TaskFacts.

Section TaskCases.

Context {World : Type}.

Lemma bind_cases {A B} (m : task World A) (f : A -> task World B) s o s' :
  (m ≫= f) s = (o, s') ->
  (exists a s1, m s = (Return a, s1) /\ f a s1 = (o, s'))
  \/ (exists e, m s = (Throw e, s') /\ o = Throw e).
Proof.
  unfold mbind, task_bind. destruct (m s) as [[a|e] s1]; intros H.
  - left. eauto.
  - right. inversion H. eauto.
Qed.

Lemma try_catch_cases {A} (m : task World A) handler s o s' :
  try_catch m handler s = (o, s') ->
  (exists a, m s = (Return a, s') /\ o = Return a)
  \/ (exists e s1, m s = (Throw e, s1) /\ handler e s1 = (o, s')).
Proof.
  unfold try_catch. destruct (m s) as [[a|e] s1]; intros H.
  - left. inversion H. eauto.
  - right. eauto.
Qed.

Lemma observe_bind {B} (test : World -> bool) (f : bool -> task World B) s :
  (observe test ≫= f) s = f (test s.1) s.
Proof. reflexivity. Qed.

Lemma or_string_answered text result : answered text (or_string result text).
Proof.
  unfold answered, or_string. destruct (String.eqb_spec result ""); congruence.
Qed.

End TaskCases.

Section CoordinatorFacts.

Context {World : Type}.
Variable translateSingle : string -> World -> (string + error) * World.
Variable aborted : World -> bool.
Variable isCancelled : World -> bool.
Variable hasSender : World -> bool.
Variable deliver : message -> World -> World.
Variable wait : World -> World.
Variable json : string -> option json_array.
Variable _buildBatchPrompt : batch -> string.
Variable jsonBatchStrategy : bool.
Variable timer : World -> batch -> option timeout.

Local Abbreviation request' := (request translateSingle).
Local Abbreviation send' := (send hasSender deliver).
Local Abbreviation fallback := (fallback_loop translateSingle aborted hasSender deliver wait).
Local Abbreviation translateBatch :=
  (_translateBatch translateSingle aborted hasSender deliver wait json
                   _buildBatchPrompt jsonBatchStrategy).
Local Abbreviation translateBatch_script :=
  (_translateBatch_script json _buildBatchPrompt jsonBatchStrategy).
Local Abbreviation run := (run_script translateSingle aborted hasSender deliver wait).
Local Abbreviation advance' := (advance translateSingle aborted hasSender deliver wait).
Local Abbreviation attempt :=
  (attempt_round translateSingle aborted hasSender deliver wait json
                 _buildBatchPrompt jsonBatchStrategy).
Local Abbreviation round :=
  (batch_round translateSingle aborted hasSender deliver wait json
               _buildBatchPrompt jsonBatchStrategy timer).
Local Abbreviation loop :=
  (stream_loop translateSingle aborted isCancelled hasSender deliver wait json
               _buildBatchPrompt jsonBatchStrategy timer).
Local Abbreviation streaming :=
  (_streamingBatchTranslate translateSingle aborted isCancelled hasSender deliver
                            wait json _buildBatchPrompt jsonBatchStrategy timer).

Lemma appends_request P text : P (Request text) -> appends P (request' text).
Proof.
  intros HP s o s' H. unfold request in H.
  destruct (translateSingle text s.1) as [r w]. inversion H; subst.
  exists [Request text]. simpl. auto.
Qed.

Lemma appends_send P m : P (Send m) -> appends P (send' m).
Proof.
  intros HP s o s' H. unfold send in H. destruct (hasSender s.1).
  - inversion H; subst. exists [Send m]. simpl. auto.
  - inversion H; subst. exists []. rewrite app_nil_r. auto.
Qed.

Lemma appends_sleep P : appends P (sleep wait).
Proof.
  intros s o s' H. inversion H; subst. exists []. simpl. rewrite app_nil_r. auto.
Qed.

Lemma fallback_appends rest : forall i results,
  appends inside_batch (fallback rest i results).
Proof.
  induction rest as [|text rest IH]; intros i results; cbn [fallback_loop].
  - apply appends_ret.
  - apply appends_bind; [apply appends_observe|]. intros [|].
    + apply appends_throw.
    + apply appends_bind.
      { destruct (0 <? i); [apply appends_sleep|apply appends_ret]. }
      intros _. apply appends_bind; [apply appends_request; exact I|].
      intros result. apply appends_bind; [apply appends_send; exact I|].
      intros _. apply IH.
Qed.

Lemma translateBatch_appends b : appends inside_batch (translateBatch b).
Proof.
  assert (Hgen : appends inside_batch
    (try_catch
       (if jsonBatchStrategy then
          result ← request' (_buildBatchPrompt b);
          let parsedResults := _parseBatchResult json result (length b) b in
          if length parsedResults =? length b then mret parsedResults
          else throw (Failure "JSON batch result count mismatch")
        else throw (Failure "Unknown or unsupported batch strategy"))
       (fun _ => _fallbackSingleRequests translateSingle aborted hasSender
                                         deliver wait b))).
  { apply appends_try_catch.
    - destruct jsonBatchStrategy; [|apply appends_throw].
      apply appends_bind; [apply appends_request; exact I|].
      intros result. cbv zeta. destruct (_ =? _); [apply appends_ret|apply appends_throw].
    - intros _. apply fallback_appends. }
  unfold _translateBatch. destruct b as [|text [|text' rest]]; try exact Hgen.
  apply appends_bind; [apply appends_request; exact I|].
  intros result. apply appends_ret.
Qed.

Lemma inside_batch_no_failure ev : inside_batch ev -> no_failure ev.
Proof. destruct ev as [| |[]]; simpl; auto. Qed.

Lemma attempt_event_inside n ev : attempt_event n ev -> inside_batch ev.
Proof. destruct ev as [| |[]]; simpl; auto. Qed.

Lemma attempt_event_mono n m ev : n <= m -> attempt_event n ev -> attempt_event m ev.
Proof.
  intros Hnm. destruct ev as [| |[]]; simpl; auto. intros (H & ? & ?).
  repeat split; auto. lia.
Qed.

Lemma attempt_event_round i b ev : attempt_event (length b) ev -> round_event i b ev.
Proof. destruct ev as [| |[]]; simpl; auto; contradiction. Qed.

(** *** The attempt as a script *)

Lemma run_fallback_script rest : forall i results s,
  run (fallback_script rest i results) s = fallback rest i results s.
Proof.
  induction rest as [|text rest IH]; intros i results s; [reflexivity|].
  cbn [fallback_script fallback_loop run_script].
  unfold mbind at 1. unfold task_bind at 1. unfold observe at 1.
  cbn [fst snd]. destruct (aborted s.1); [reflexivity|].
  assert (Hask : forall s0,
    run (DoRequest text (fun answer =>
           match answer with
           | inl result =>
               DoSend (FallbackResult i [or_string result text] [text])
                      (fallback_script rest (S i)
                         (results ++ [or_string result text]))
           | inr e => Fail e
           end)) s0
    = (result ← request' text;
       send' (FallbackResult i [or_string result text] [text]);;
       fallback rest (S i) (results ++ [or_string result text])) s0).
  { intros s0. cbn [run_script]. unfold mbind, task_bind, request.
    destruct (translateSingle text s0.1) as [[result|e] w]; [|reflexivity].
    cbn [run_script]. rewrite IH. unfold send. cbn [fst snd].
    destruct (hasSender w); reflexivity. }
  unfold mbind at 1. unfold task_bind at 1.
  destruct (0 <? i).
  - cbn [run_script]. unfold sleep. apply Hask.
  - unfold mret, task_ret. apply Hask.
Qed.

(** The script of an attempt, run to its end, is the attempt. *)
Lemma script_runs_as_task b s :
  run (translateBatch_script b) s = translateBatch b s.
Proof.
  assert (Hgen :
    run (if jsonBatchStrategy then
           DoRequest (_buildBatchPrompt b) (fun answer =>
             match answer with
             | inl result =>
                 let parsedResults :=
                   _parseBatchResult json result (length b) b in
                 if length parsedResults =? length b then Finish parsedResults
                 else fallback_script b 0 []
             | inr _ => fallback_script b 0 []
             end)
         else fallback_script b 0 []) s
    = try_catch
        (if jsonBatchStrategy then
           result ← request' (_buildBatchPrompt b);
           let parsedResults := _parseBatchResult json result (length b) b in
           if length parsedResults =? length b then mret parsedResults
           else throw (Failure "JSON batch result count mismatch")
         else throw (Failure "Unknown or unsupported batch strategy"))
        (fun _ => _fallbackSingleRequests translateSingle aborted hasSender
                                          deliver wait b) s).
  { unfold try_catch, _fallbackSingleRequests.
    destruct jsonBatchStrategy.
    - cbn [run_script]. unfold mbind, task_bind, request.
      destruct (translateSingle (_buildBatchPrompt b) s.1) as [[result|e] w].
      + cbv zeta. destruct (_ =? _); [reflexivity|].
        unfold throw. apply run_fallback_script.
      + apply run_fallback_script.
    - unfold throw. apply run_fallback_script. }
  unfold _translateBatch_script, _translateBatch.
  destruct b as [|text [|text' rest]]; try exact Hgen.
  cbn [run_script]. unfold mbind, task_bind, request.
  destruct (translateSingle text s.1) as [[result|e] w]; reflexivity.
Qed.

Lemma speaks_mono {A} (P Q : event -> Prop) (p : script A) :
  (forall ev, P ev -> Q ev) -> speaks P p -> speaks Q p.
Proof. intros HPQ. induction 1; constructor; auto. Qed.

Lemma fallback_script_speaks n rest : forall i results,
  i + length rest <= n ->
  speaks (attempt_event n) (fallback_script rest i results).
Proof.
  induction rest as [|text rest IH]; intros i results Hn; [constructor|].
  cbn [fallback_script]. constructor. intros [|]; [constructor|].
  assert (Hask : speaks (attempt_event n)
            (DoRequest text (fun answer =>
               match answer with
               | inl result =>
                   DoSend (FallbackResult i [or_string result text] [text])
                          (fallback_script rest (S i)
                             (results ++ [or_string result text]))
               | inr e => Fail e
               end))).
  { constructor; [exact I|]. intros [result|e]; [|constructor].
    constructor.
    - simpl in *. repeat split; auto. lia.
    - apply IH. simpl in Hn. lia. }
  destruct (0 <? i); [constructor|]; exact Hask.
Qed.

Lemma translateBatch_script_speaks b :
  speaks (attempt_event (length b)) (translateBatch_script b).
Proof.
  assert (Hfall : speaks (attempt_event (length b)) (fallback_script b 0 []))
    by (apply fallback_script_speaks; simpl; lia).
  assert (Hgen : speaks (attempt_event (length b))
    (if jsonBatchStrategy then
       DoRequest (_buildBatchPrompt b) (fun answer =>
         match answer with
         | inl result =>
             let parsedResults := _parseBatchResult json result (length b) b in
             if length parsedResults =? length b then Finish parsedResults
             else fallback_script b 0 []
         | inr _ => fallback_script b 0 []
         end)
     else fallback_script b 0 [])).
  { destruct jsonBatchStrategy; [|exact Hfall].
    constructor; [exact I|]. intros [result|e]; [|exact Hfall].
    cbv zeta. destruct (_ =? _); [constructor|exact Hfall]. }
  unfold _translateBatch_script. destruct b as [|text [|text' rest]];
    try exact Hgen.
  constructor; [exact I|]. intros [result|e]; constructor.
Qed.

Lemma advance_speaks {A} (P : event -> Prop) (p : script A) :
  speaks P p ->
  forall steps s pending s',
    advance' p steps s = (pending, s') ->
    speaks P pending
    /\ exists new, s'.2 = s.2 ++ new /\ Forall P new.
Proof.
  assert (Hnone : forall (q : script A) (s : World * list event), speaks P q ->
            speaks P q /\ exists new, s.2 = s.2 ++ new /\ Forall P new).
  { intros q s Hq. split; [exact Hq|]. exists []. rewrite app_nil_r. auto. }
  induction 1 as [a|e|next Hnext IH|text next Htext Hnext IH|m next Hm Hnext IH
                 |next Hnext IH];
    intros steps s pending s' H.
  - inversion H; subst. apply Hnone. constructor.
  - inversion H; subst. apply Hnone. constructor.
  - cbn [advance] in H. eapply IH. exact H.
  - cbn [advance] in H. destruct steps as [|steps].
    { inversion H; subst. apply Hnone. constructor; auto. }
    destruct (translateSingle text s.1) as [answer w].
    apply IH in H as (Hp & new & E & F). split; [exact Hp|].
    exists (Request text :: new). cbn [fst snd] in E. rewrite E, <- app_assoc.
    split; [reflexivity|]. constructor; auto.
  - cbn [advance] in H. destruct steps as [|steps].
    { inversion H; subst. apply Hnone. constructor; auto. }
    apply IH in H as (Hp & new & E & F). split; [exact Hp|].
    destruct (hasSender s.1); cbn [fst snd] in E.
    + exists (Send m :: new). rewrite E, <- app_assoc.
      split; [reflexivity|]. constructor; auto.
    + exists new. auto.
  - cbn [advance] in H. destruct steps as [|steps].
    { inversion H; subst. apply Hnone. constructor; auto. }
    apply IH in H as (Hp & new & E & F). split; [exact Hp|].
    exists new. auto.
Qed.

Lemma run_speaks {A} (P : event -> Prop) (p : script A) :
  speaks P p ->
  forall s o s',
    run p s = (o, s') -> exists new, s'.2 = s.2 ++ new /\ Forall P new.
Proof.
  induction 1 as [a|e|next Hnext IH|text next Htext Hnext IH|m next Hm Hnext IH
                 |next Hnext IH];
    intros s o s' H.
  - inversion H; subst. exists []. rewrite app_nil_r. auto.
  - inversion H; subst. exists []. rewrite app_nil_r. auto.
  - cbn [run_script] in H. eapply IH. exact H.
  - cbn [run_script] in H.
    destruct (translateSingle text s.1) as [answer w].
    apply IH in H as (new & E & F).
    exists (Request text :: new). cbn [fst snd] in E. rewrite E, <- app_assoc.
    split; [reflexivity|]. constructor; auto.
  - cbn [run_script] in H. apply IH in H as (new & E & F).
    destruct (hasSender s.1); cbn [fst snd] in E.
    + exists (Send m :: new). rewrite E, <- app_assoc.
      split; [reflexivity|]. constructor; auto.
    + exists new. auto.
  - cbn [run_script] in H. apply IH in H as (new & E & F).
    exists new. auto.
Qed.

(** A script that has settled within its steps has been run to its end. *)
Lemma advance_settled {A} (p : script A) : forall steps s pending s',
  advance' p steps s = (pending, s') ->
  (forall a, pending = Finish a -> run p s = (Return a, s'))
  /\ (forall e, pending = Fail e -> run p s = (Throw e, s')).
Proof.
  induction p as [a|e|next IH|text next IH|m next IH|next IH];
    intros steps s pending s' H; cbn [advance] in H; cbn [run_script].
  - inversion H; subst. split; intros ? [= <-]; reflexivity.
  - inversion H; subst. split; intros ? [= <-]; reflexivity.
  - eapply IH; eauto.
  - destruct steps as [|steps]; [inversion H; subst; split; discriminate|].
    destruct (translateSingle text s.1) as [answer w]. eapply IH; eauto.
  - destruct steps as [|steps]; [inversion H; subst; split; discriminate|].
    eapply IH; eauto.
  - destruct steps as [|steps]; [inversion H; subst; split; discriminate|].
    eapply IH; eauto.
Qed.

Lemma translateBatch_attempt_events b :
  appends (attempt_event (length b)) (translateBatch b).
Proof.
  intros s o s' H. rewrite <- script_runs_as_task in H.
  eapply run_speaks; [apply translateBatch_script_speaks|exact H].
Qed.
Lemma request_events text s o s' :
  request' text s = (o, s') -> s'.2 = s.2 ++ [Request text].
Proof.
  unfold request. destruct (translateSingle text s.1) as [r w].
  intros H. inversion H. reflexivity.
Qed.

Lemma send_events m s o s' :
  send' m s = (o, s') ->
  o = Return tt /\ (s'.2 = s.2 \/ s'.2 = s.2 ++ [Send m]).
Proof.
  unfold send. destruct (hasSender s.1); intros H; inversion H; auto.
Qed.

Lemma fallback_results rest : forall i results s r s',
  fallback rest i results s = (Return r, s') ->
  exists new, r = results ++ new /\ Forall2 answered rest new.
Proof.
  induction rest as [|text rest IH]; intros i results s r s' H.
  - inversion H. exists []. rewrite app_nil_r. split; [reflexivity|constructor].
  - cbn [fallback_loop] in H. rewrite observe_bind in H.
    destruct (aborted s.1); [discriminate|].
    apply bind_cases in H as [(u & s1 & _ & H) | (e & _ & ?)]; [|discriminate].
    apply bind_cases in H as [(result & s2 & _ & H) | (e & _ & ?)]; [|discriminate].
    apply bind_cases in H as [(u' & s3 & _ & H) | (e & _ & ?)]; [|discriminate].
    apply IH in H as (new & -> & Hnew).
    exists (or_string result text :: new). rewrite <- app_assoc. split; [reflexivity|].
    constructor; [apply or_string_answered | exact Hnew].
Qed.

Lemma translateBatch_length b s r s' :
  translateBatch b s = (Return r, s') -> length r = length b.
Proof.
  assert (Hfall : forall s r s',
            _fallbackSingleRequests translateSingle aborted hasSender deliver
                                    wait b s = (Return r, s') ->
            length r = length b).
  { clear. intros s r s' H. apply fallback_results in H as (new & -> & Hnew).
    apply Forall2_length in Hnew. simpl. lia. }
  unfold _translateBatch.
  destruct b as [|text [|text' b]]; intros H.
  - apply try_catch_cases in H as [(a & H & [= <-]) | (e & s1 & _ & H)]; [|eauto].
    destruct jsonBatchStrategy; [|discriminate].
    apply bind_cases in H as [(result & s1 & _ & H) | (e & _ & ?)]; [|discriminate].
    destruct (_ =? _) eqn:E in H; [|discriminate].
    apply Nat.eqb_eq in E. inversion H; subst. exact E.
  - apply bind_cases in H as [(result & s1 & _ & H) | (e & _ & ?)]; [|discriminate].
    inversion H. reflexivity.
  - apply try_catch_cases in H as [(a & H & [= <-]) | (e & s1 & _ & H)]; [|eauto].
    destruct jsonBatchStrategy; [|discriminate].
    apply bind_cases in H as [(result & s1 & _ & H) | (e & _ & ?)]; [|discriminate].
    destruct (_ =? _) eqn:E in H; [|discriminate].
    apply Nat.eqb_eq in E. inversion H; subst. exact E.
Qed.


(** *** A round *)

Lemma send_cases m s o s' :
  send' m s = (o, s') ->
  o = Return tt
  /\ ((hasSender s.1 = false /\ s' = s)
      \/ (hasSender s.1 = true /\ s'.2 = s.2 ++ [Send m])).
Proof.
  unfold send. destruct (hasSender s.1); intros H; inversion H; auto.
Qed.

Ltac finish_sender :=
  repeat (split; [solve [auto]|]);
  first [ solve [auto]
        | intros; exfalso;
          match goal with
          | Hs : forall w, hasSender w = true, N : hasSender _ = false |- _ =>
              rewrite Hs in N; discriminate
          end ].

(** The round of an attempt that wins the race against the timer. *)
Lemma attempt_round_runs batchIndex b s o s' :
  attempt batchIndex b s = (o, s') ->
  exists inside,
    Forall (attempt_event (length b)) inside
    /\ ((exists r sent,
           o = Return r /\ length r = length b
           /\ s'.2 = s.2 ++ Execute batchIndex b :: inside ++ sent
           /\ (sent = [] \/ sent = [Send (BatchResults batchIndex r b)]))
        \/ (exists e failed ended,
              o = Throw e
              /\ s'.2 = s.2 ++ Execute batchIndex b :: inside ++ failed ++ ended
              /\ (failed = [] \/ failed = [Send (ErrorResults batchIndex e)])
              /\ (ended = [] \/ ended = [Send (StreamEnd true)])
              /\ ((forall w, hasSender w = true) ->
                  failed = [Send (ErrorResults batchIndex e)]
                  /\ ended = [Send (StreamEnd true)]))).
Proof.
  intros H. unfold attempt_round in H.
  apply try_catch_cases in H as [(r & H & ->) | (e & s1 & H & Hh)].
  - apply bind_cases in H as [(u & s0 & H0 & H) | (e & _ & ?)]; [|discriminate].
    inversion H0; subst; clear H0.
    apply bind_cases in H as [(r' & s1 & H1 & H) | (e & _ & ?)]; [|discriminate].
    apply bind_cases in H as [(u' & s2 & H2 & H) | (e & _ & ?)]; [|discriminate].
    inversion H; subst; clear H.
    pose proof (translateBatch_length _ _ _ _ H1) as Hlen.
    apply translateBatch_attempt_events in H1 as (inside & E1 & Hinside).
    cbn [fst snd] in E1. exists inside. split; [exact Hinside|]. left.
    apply send_cases in H2 as [_ [[_ ->] | [_ E2]]].
    + exists r, []. rewrite E1, app_nil_r, <- app_assoc. auto.
    + exists r, [Send (BatchResults batchIndex r b)].
      rewrite E2, E1, <- !app_assoc. auto.
  - assert (Hbody : exists inside,
              s1.2 = s.2 ++ Execute batchIndex b :: inside
              /\ Forall (attempt_event (length b)) inside).
    { apply bind_cases in H as [(u & s0 & H0 & H) | (e' & H0 & _)];
        [|discriminate].
      inversion H0; subst; clear H0.
      apply bind_cases in H as [(r' & s2 & H1 & H) | (e' & H1 & _)].
      - apply bind_cases in H as [(u' & s3 & H2 & H) | (e' & H2 & _)];
          [discriminate|].
        apply send_cases in H2 as [? _]. discriminate.
      - apply translateBatch_attempt_events in H1 as (inside & E1 & Hinside).
        cbn [fst snd] in E1. exists inside. rewrite E1, <- app_assoc. auto. }
    destruct Hbody as (inside & E1 & Hinside).
    exists inside. split; [exact Hinside|]. right.
    apply bind_cases in Hh as [(u & s2 & H2 & Hh) | (e' & H2 & _)];
      [|apply send_cases in H2 as [? _]; discriminate].
    apply bind_cases in Hh as [(u' & s3 & H3 & Hh) | (e' & H3 & _)];
      [|apply send_cases in H3 as [? _]; discriminate].
    inversion Hh; subst; clear Hh.
    apply send_cases in H2 as [_ [[N2 ->] | [_ E2]]];
      apply send_cases in H3 as [_ [[N3 ->] | [_ E3]]].
    + exists e, [], []. rewrite E1, !app_nil_r.
      finish_sender.
    + exists e, [], [Send (StreamEnd true)]. rewrite E3, E1, <- app_assoc.
      finish_sender.
    + exists e, [Send (ErrorResults batchIndex e)], [].
      rewrite E2, E1, app_nil_r, <- app_assoc.
      finish_sender.
    + exists e, [Send (ErrorResults batchIndex e)], [Send (StreamEnd true)].
      rewrite E3, E2, E1, <- !app_assoc.
      finish_sender.
Qed.

(** A round, whoever wins the race. *)
Lemma round_runs batchIndex b s o s' :
  round batchIndex b s = (o, s') ->
  exists inside,
    Forall (attempt_event (length b)) inside
    /\ ((exists r sent,
           o = Return r /\ length r = length b
           /\ s'.2 = s.2 ++ Execute batchIndex b :: inside ++ sent
           /\ (sent = [] \/ sent = [Send (BatchResults batchIndex r b)]))
        \/ (exists e failed between ended late,
              o = Throw e
              /\ s'.2 = s.2 ++ Execute batchIndex b
                          :: inside ++ failed ++ between ++ ended ++ late
              /\ (failed = [] \/ failed = [Send (ErrorResults batchIndex e)])
              /\ (ended = [] \/ ended = [Send (StreamEnd true)])
              /\ Forall (attempt_event (length b)) between
              /\ Forall (attempt_event (length b)) late
              /\ (timer s.1 b = None -> between = [] /\ late = [])
              /\ ((forall w, hasSender w = true) ->
                  failed = [Send (ErrorResults batchIndex e)]
                  /\ ended = [Send (StreamEnd true)]))).
Proof.
  assert (Hattempt : forall T : Prop,
            attempt batchIndex b s = (o, s') ->
            exists inside,
              Forall (attempt_event (length b)) inside
              /\ ((exists r sent,
                     o = Return r /\ length r = length b
                     /\ s'.2 = s.2 ++ Execute batchIndex b :: inside ++ sent
                     /\ (sent = [] \/ sent = [Send (BatchResults batchIndex r b)]))
                  \/ (exists e failed between ended late,
                        o = Throw e
                        /\ s'.2 = s.2 ++ Execute batchIndex b
                                    :: inside ++ failed ++ between ++ ended
                                       ++ late
                        /\ (failed = []
                            \/ failed = [Send (ErrorResults batchIndex e)])
                        /\ (ended = [] \/ ended = [Send (StreamEnd true)])
                        /\ Forall (attempt_event (length b)) between
                        /\ Forall (attempt_event (length b)) late
                        /\ (T -> between = [] /\ late = [])
                        /\ ((forall w, hasSender w = true) ->
                            failed = [Send (ErrorResults batchIndex e)]
                            /\ ended = [Send (StreamEnd true)])))).
  { intros T H0.
    apply attempt_round_runs in H0
      as (inside & Hinside & [Hret | (e & failed & ended & -> & E & Hf & He & Hs)]).
    - exists inside. split; [exact Hinside|]. left. exact Hret.
    - exists inside. split; [exact Hinside|]. right.
      exists e, failed, [], ended, []. rewrite app_nil_r. cbn [app].
      repeat (split; [solve [auto]|]). exact Hs. }
  unfold batch_round. intros H.
  destruct (timer s.1 b) as [t|] eqn:Ht; [|exact (Hattempt _ H)].
  destruct (advance' (translateBatch_script b) (fires_after t)
              (s.1, s.2 ++ [Execute batchIndex b])) as [pending s1] eqn:Hadv.
  destruct (settled pending) eqn:Hsettled; [exact (Hattempt _ H)|].
  destruct (advance_speaks _ _ (translateBatch_script_speaks b) _ _ _ _ Hadv)
    as (Hpending & inside & E1 & Hinside).
  cbn [fst snd] in E1.
  destruct (send' (ErrorResults batchIndex (timeout_error t)) s1)
    as [o2 s2] eqn:H2.
  destruct (advance' pending (ends_after t) s2) as [pending' s3] eqn:Hadv'.
  destruct (send' (StreamEnd true) s3) as [o4 s4] eqn:H4.
  destruct (run pending' s4) as [o5 s5] eqn:H5.
  inversion H; subst o s'; clear H.
  destruct (advance_speaks _ _ Hpending _ _ _ _ Hadv')
    as (Hpending' & between & E3 & Hbetween).
  destruct (run_speaks _ _ Hpending' _ _ _ H5) as (late & E5 & Hlate).
  exists inside. split; [exact Hinside|]. right.
  apply send_cases in H2 as [_ Hsend2]. apply send_cases in H4 as [_ Hsend4].
  assert (Hshape : exists failed ended,
            s5.2 = s.2 ++ Execute batchIndex b
                     :: inside ++ failed ++ between ++ ended ++ late
            /\ (failed = []
                \/ failed = [Send (ErrorResults batchIndex (timeout_error t))])
            /\ (ended = [] \/ ended = [Send (StreamEnd true)])
            /\ ((forall w, hasSender w = true) ->
                failed = [Send (ErrorResults batchIndex (timeout_error t))]
                /\ ended = [Send (StreamEnd true)])).
  { destruct Hsend2 as [[N2 ->] | [_ E2]]; destruct Hsend4 as [[N4 ->] | [_ E4]].
    - exists [], []. rewrite E5, E3, E1, <- !app_assoc. cbn [app].
      rewrite <- ?app_assoc. finish_sender.
    - exists [], [Send (StreamEnd true)].
      rewrite E5, E4, E3, E1, <- !app_assoc. cbn [app].
      rewrite <- ?app_assoc. finish_sender.
    - exists [Send (ErrorResults batchIndex (timeout_error t))], [].
      rewrite E5, E3, E2, E1, <- !app_assoc. cbn [app].
      rewrite <- ?app_assoc. finish_sender.
    - exists [Send (ErrorResults batchIndex (timeout_error t))],
             [Send (StreamEnd true)].
      rewrite E5, E4, E3, E2, E1, <- !app_assoc. cbn [app].
      rewrite <- ?app_assoc. finish_sender. }
  destruct Hshape as (failed & ended & E & Hf & He & Hs).
  exists (timeout_error t), failed, between, ended, late.
  repeat split; auto; try (apply Hs; auto); intros; discriminate.
Qed.

Lemma round_events batchIndex b s o s' :
  round batchIndex b s = (o, s') ->
  exists new,
    s'.2 = s.2 ++ Execute batchIndex b :: new
    /\ Forall (round_event batchIndex b) new.
Proof.
  intros H.
  apply round_runs in H
    as (inside & Hinside
        & [(r & sent & -> & Hlen & E & Hsent)
          | (e & failed & between & ended & late & -> & E & Hf & He & Hb & Hl & _)]).
  - exists (inside ++ sent). split; [exact E|]. apply Forall_app. split.
    + eapply Forall_impl; [exact Hinside|]. apply attempt_event_round.
    + destruct Hsent as [-> | ->]; repeat constructor. exact Hlen.
  - exists (inside ++ failed ++ between ++ ended ++ late).
    split; [exact E|]. rewrite !Forall_app. repeat split.
    + eapply Forall_impl; [exact Hinside|]. apply attempt_event_round.
    + destruct Hf as [-> | ->]; repeat constructor.
    + eapply Forall_impl; [exact Hb|]. apply attempt_event_round.
    + destruct He as [-> | ->]; repeat constructor.
    + eapply Forall_impl; [exact Hl|]. apply attempt_event_round.
Qed.

Lemma round_appends (P : event -> Prop) batchIndex b :
  P (Execute batchIndex b) ->
  (forall ev, round_event batchIndex b ev -> P ev) ->
  appends P (round batchIndex b).
Proof.
  intros Hex HP s o s' H. apply round_events in H as (new & E & F).
  exists (Execute batchIndex b :: new). split; [exact E|].
  constructor; [exact Hex|]. eapply Forall_impl; [exact F|exact HP].
Qed.

(** A round that returns has sent no failure and no end of the stream. *)
Lemma round_returns (Q : event -> Prop) batchIndex b :
  Q (Execute batchIndex b) ->
  (forall ev, attempt_event (length b) ev -> Q ev) ->
  (forall r, length r = length b -> Q (Send (BatchResults batchIndex r b))) ->
  returns_with Q (round batchIndex b).
Proof.
  intros Hex Hin Hres s a s' H.
  apply round_runs in H
    as (inside & Hinside
        & [(r & sent & [= <-] & Hlen & E & Hsent) | (e & ? & ? & ? & ? & ? & _)]);
    [|discriminate].
  exists (Execute batchIndex b :: inside ++ sent). split; [exact E|].
  constructor; [exact Hex|]. apply Forall_app. split.
  - eapply Forall_impl; [exact Hinside|exact Hin].
  - destruct Hsent as [-> | ->]; repeat constructor. apply Hres, Hlen.
Qed.

Lemma round_result_length batchIndex b s r s' :
  round batchIndex b s = (Return r, s') -> length r = length b.
Proof.
  intros H.
  apply round_runs in H
    as (inside & _ & [(r' & sent & [= <-] & Hlen & _) | (e & ? & ? & ? & ? & ? & _)]);
    [exact Hlen|discriminate].
Qed.

(** *** The loop *)

Lemma round_event_within batchIndex b lo hi ev :
  lo <= batchIndex < hi -> round_event batchIndex b ev -> within lo hi ev.
Proof.
  intros Hi Hev j Hj.
  destruct ev as [i c|text|[i d o|i d o|i e|err]]; simpl in *;
    try discriminate; inversion Hj; subst.
  - contradiction.
  - destruct Hev as [-> _]. exact Hi.
  - exact Hi.
Qed.

Lemma loop_appends batches : forall batchIndex allResults,
  appends (within batchIndex (batchIndex + length batches))
          (loop batches batchIndex allResults).
Proof.
  induction batches as [|b rest IH]; intros i acc; cbn [stream_loop].
  - apply appends_ret.
  - apply appends_bind; [apply appends_observe|]. intros [|]; [apply appends_throw|].
    apply appends_bind; [apply appends_observe|]. intros [|]; [apply appends_throw|].
    apply appends_bind.
    + apply round_appends.
      * intros j Hj. inversion Hj; subst. simpl. lia.
      * intros ev. apply round_event_within. simpl. lia.
    + intros batchResults. eapply appends_mono; [|apply IH].
      intros ev Hev j Hj. specialize (Hev j Hj). simpl. lia.
Qed.

Lemma loop_returns batches : forall batchIndex allResults,
  returns_with no_failure (loop batches batchIndex allResults).
Proof.
  induction batches as [|b rest IH]; intros i acc; cbn [stream_loop].
  - apply returns_ret.
  - apply returns_bind; [apply appends_returns, appends_observe|].
    intros [|]; [apply returns_throw|].
    apply returns_bind; [apply appends_returns, appends_observe|].
    intros [|]; [apply returns_throw|].
    apply returns_bind; [|intros batchResults; apply IH].
    apply round_returns.
    + exact I.
    + intros ev Hev. apply inside_batch_no_failure.
      eapply attempt_event_inside. exact Hev.
    + reflexivity.
Qed.

Lemma loop_app pre post : forall batchIndex allResults s,
  loop (pre ++ post) batchIndex allResults s
  = match loop pre batchIndex allResults s with
    | (Return results, s') => loop post (batchIndex + length pre) results s'
    | (Throw e, s') => (Throw e, s')
    end.
Proof.
  induction pre as [|b pre IH]; intros i acc s.
  - simpl. rewrite Nat.add_0_r. reflexivity.
  - cbn [app stream_loop]. unfold mbind, task_bind, observe.
    destruct (aborted s.1); [reflexivity|].
    destruct (isCancelled s.1); [reflexivity|].
    cbn [fst snd].
    destruct (round i b s) as [[batchResults|e] s3]; [|reflexivity].
    rewrite IH. simpl length.
    replace (i + S (length pre)) with (S i + length pre) by lia. reflexivity.
Qed.

Lemma streaming_unfold cls batchingConfig texts translateMode batches :
  _createOptimalBatches cls batchingConfig texts translateMode = Some batches ->
  streaming cls batchingConfig texts translateMode
  = Some (allResults ← loop batches 0 [];
          send' (StreamEnd false);;
          mret allResults).
Proof. intros H. unfold _streamingBatchTranslate. rewrite H. reflexivity. Qed.

Lemma loop_prefix_events pre w0 results w1 tr1 :
  loop pre 0 [] (w0, []) = (Return results, (w1, tr1)) ->
  Forall (within 0 (length pre)) tr1 /\ Forall no_failure tr1.
Proof.
  intros Hpre. split.
  - destruct (loop_appends pre 0 [] _ _ _ Hpre) as (new & E & F).
    simpl in E. subst tr1. exact F.
  - destruct (loop_returns pre 0 [] _ _ _ Hpre) as (new & E & F).
    simpl in E. subst tr1. exact F.
Qed.

(** The round of a failing attempt whose timer does not fire, with a
    sender: the events of the attempt, the failure of the batch, the end of
    the stream. *)
Lemma failing_attempt_fails_round batchIndex b w tr e w' tr' :
  (forall w, hasSender w = true) ->
  timer w b = None ->
  translateBatch b (w, tr ++ [Execute batchIndex b]) = (Throw e, (w', tr')) ->
  round batchIndex b (w, tr)
  = (Throw e,
     (deliver (StreamEnd true) (deliver (ErrorResults batchIndex e) w'),
      tr' ++ [Send (ErrorResults batchIndex e); Send (StreamEnd true)])).
Proof.
  intros Hsender Htimer Hfail. unfold batch_round. cbn [fst snd].
  rewrite Htimer. unfold attempt_round, try_catch, mbind, task_bind, record_event.
  cbn [fst snd]. rewrite Hfail. unfold send, throw. cbn [fst snd].
  rewrite !Hsender. cbn [fst snd]. rewrite <- app_assoc. reflexivity.
Qed.

(** *** Recovery of a count mismatch *)

Lemma jsonInput_lookup l k t :
  l !! k = Some t -> {| item_id := Z.of_nat k; item_text := t |} ∈ jsonInput l.
Proof.
  intros H. unfold jsonInput. apply elem_of_lookup_imap. exists k, t. auto.
Qed.

Lemma jsonInput_id_bound l x :
  x ∈ jsonInput l -> exists k t, x = {| item_id := Z.of_nat k; item_text := t |}
                                 /\ l !! k = Some t.
Proof.
  unfold jsonInput. intros H.
  apply elem_of_lookup_imap in H as (k & t & -> & Hk). eauto.
Qed.

(** When the items that are kept carry the ids 0, 1, ... in some order, the
    places of the result are the ids. *)
Lemma recovery_by_id_numbered parsed (b : batch) translations :
  take (length b) parsed ≡ₚ jsonInput translations ->
  recovery_by_id parsed b = translations ++ drop (length translations) b.
Proof.
  intros Hperm.
  assert (Hlen : length translations = length b `min` length parsed).
  { rewrite <- (jsonInput_texts translations), length_map, <- Hperm.
    apply length_take. }
  apply list_eq. intros k. unfold recovery_by_id. rewrite list_lookup_imap.
  destruct (decide (k < length translations)) as [Hk|Hk].
  - rewrite lookup_app_l by exact Hk.
    destruct (lookup_lt_is_Some_2 translations k Hk) as [t Ht].
    destruct (lookup_lt_is_Some_2 b k ltac:(lia)) as [original Ho].
    rewrite Ho, Ht. simpl. f_equal.
    pose proof (jsonInput_lookup _ _ _ Ht) as Hin.
    rewrite <- Hperm in Hin.
    apply list_elem_of_lookup in Hin as [p Hp].
    apply lookup_take_Some in Hp as [Hp Hpn].
    destruct (list_find (fun item => item_id item = Z.of_nat k) parsed)
      as [[i x]|] eqn:Hfind.
    + apply list_find_Some in Hfind as (Hi & Hid & Hfirst).
      assert (Hip : i <= p).
      { destruct (decide (i <= p)) as [|Hgt]; [assumption|].
        exfalso. apply (Hfirst p _ Hp); [lia|reflexivity]. }
      assert (Hx : x ∈ jsonInput translations).
      { rewrite <- Hperm. apply list_elem_of_lookup. exists i.
        apply lookup_take_Some. split; [exact Hi|lia]. }
      rewrite (jsonInput_ids translations x _ Hx (jsonInput_lookup _ _ _ Ht) Hid).
      reflexivity.
    + apply list_find_None in Hfind. rewrite Forall_forall in Hfind.
      exfalso. apply (Hfind _ (list_elem_of_lookup_2 _ _ _ Hp)). reflexivity.
  - rewrite lookup_app_r by lia. rewrite lookup_drop.
    replace (length translations + (k - length translations)) with k by lia.
    destruct (decide (k < length b)) as [Hb|Hb];
      [|rewrite (lookup_ge_None_2 b k) by lia; reflexivity].
    destruct (lookup_lt_is_Some_2 b k Hb) as [original Ho].
    rewrite Ho. simpl. f_equal.
    destruct (list_find (fun item => item_id item = Z.of_nat k) parsed)
      as [[i x]|] eqn:Hfind; [|reflexivity].
    exfalso.
    apply list_find_Some in Hfind as (Hi & Hid & _).
    apply lookup_lt_Some in Ho. pose proof (lookup_lt_Some _ _ _ Hi) as Hin.
    assert (Hx : x ∈ jsonInput translations).
    { rewrite <- Hperm. apply list_elem_of_lookup. exists i.
      apply lookup_take_Some. split; [exact Hi|lia]. }
    apply jsonInput_id_bound in Hx as (j & t & -> & Hj).
    apply lookup_lt_Some in Hj. simpl in Hid. lia.
Qed.
(** An answer of the right shape is never a failure of the batch, whatever
    its count: the recovered list has the size of the batch, the check of
    [_translateBatch] passes, and no single request is made. *)
Lemma translateBatch_recovers b s result w parsed :
  length b <> 1 ->
  jsonBatchStrategy = true ->
  translateSingle (_buildBatchPrompt b) s.1 = (inl result, w) ->
  json result = Some (ObjectArray parsed) ->
  parsed <> [] ->
  translateBatch b s
  = (Return (_parseBatchResult json result (length b) b),
     (w, s.2 ++ [Request (_buildBatchPrompt b)])).
Proof.
  intros Hlen Hjs Hreq Hjson Hne.
  assert (Hgen :
    try_catch
      (if jsonBatchStrategy then
         result ← request' (_buildBatchPrompt b);
         let parsedResults := _parseBatchResult json result (length b) b in
         if length parsedResults =? length b then mret parsedResults
         else throw (Failure "JSON batch result count mismatch")
       else throw (Failure "Unknown or unsupported batch strategy"))
      (fun _ => _fallbackSingleRequests translateSingle aborted hasSender
                                        deliver wait b) s
    = (Return (_parseBatchResult json result (length b) b),
       (w, s.2 ++ [Request (_buildBatchPrompt b)]))).
  { rewrite Hjs. unfold try_catch, mbind, task_bind, request. rewrite Hreq.
    cbv zeta.
    rewrite (parse_objects_length json result (length b) b parsed Hjson Hne eq_refl).
    rewrite Nat.eqb_refl. reflexivity. }
  unfold _translateBatch. destruct b as [|text [|text' rest]]; try exact Hgen.
  simpl in Hlen. congruence.
Qed.

(** Of a batch of several texts whose combined request fails, the outcome is
    the outcome of the single requests of the fallback. *)
Lemma combined_failure_runs_fallback b s e w :
  length b <> 1 ->
  jsonBatchStrategy = true ->
  translateSingle (_buildBatchPrompt b) s.1 = (inr e, w) ->
  translateBatch b s
  = _fallbackSingleRequests translateSingle aborted hasSender deliver wait b
      (w, s.2 ++ [Request (_buildBatchPrompt b)]).
Proof.
  intros Hlen Hjs Hreq.
  unfold _translateBatch. destruct b as [|text [|text' rest]];
    [|simpl in Hlen; congruence|];
    rewrite Hjs; unfold try_catch, mbind, task_bind, request; rewrite Hreq;
    reflexivity.
Qed.


(** C8: when the answer to the combined request of a batch parses to a list
    of [{ id, text }] items whose count differs from the size of the batch,
    the batch is not failed and no single request is made: the attempt
    returns a list that has the size of the batch.  The list is made of the
    first items of the answer, as many as the batch has texts, in the order
    of their ids (those behind are dropped, whatever their ids), followed by
    the original texts of the places from the count of the items on.  The
    places are the ids, as the specification has it ([recovery_by_id]), when
    the items that are kept carry the ids 0, 1, 2, ... *)
Theorem positional_recovery (b : batch) (s : World * list event)
    (result : string) (w : World) (parsed : list json_item)
    (Hseveral : length b <> 1)
    (Hstrategy : jsonBatchStrategy = true)
    (Hanswer : translateSingle (_buildBatchPrompt b) s.1 = (inl result, w))
    (Hjson : json result = Some (ObjectArray parsed))
    (Hitems : parsed <> [])
    (Hmismatch : length parsed <> length b) :
  let kept := take (length b) parsed in
  let recovered := _parseBatchResult json result (length b) b in
  length recovered = length b
  /\ recovered = map item_text (sort_by_id kept) ++ drop (length parsed) b
  /\ sort_by_id kept ≡ₚ kept
  /\ Sorted id_le (sort_by_id kept)
  /\ (forall translations,
        kept ≡ₚ jsonInput translations ->
        recovered = recovery_by_id parsed b
        /\ recovered = translations ++ drop (length translations) b)
  /\ _translateBatch translateSingle aborted hasSender deliver wait json
                     _buildBatchPrompt jsonBatchStrategy b s
     = (Return recovered, (w, s.2 ++ [Request (_buildBatchPrompt b)])).
Proof.
  intros kept recovered.
  assert (Hrec : recovered
                 = map item_text (sort_by_id kept) ++ drop (length parsed) b).
  { apply parse_mismatch_result; auto. }
  split; [apply (parse_objects_length json result (length b) b parsed); auto|].
  split; [exact Hrec|].
  split; [apply sort_by_id_perm|].
  split; [apply sort_by_id_sorted|].
  split; [|apply (translateBatch_recovers b s result w parsed); assumption].
  intros translations Hperm.
  assert (Hlen : length translations = length b `min` length parsed).
  { rewrite <- (jsonInput_texts translations), length_map, <- Hperm.
    apply length_take. }
  assert (E : recovered = translations ++ drop (length translations) b).
  { rewrite Hrec, (sort_by_id_numbered kept translations Hperm), jsonInput_texts.
    f_equal. destruct (decide (length parsed < length b)) as [Hlt|Hge].
    - f_equal. lia.
    - rewrite !drop_ge by lia. reflexivity. }
  split; [|exact E].
  rewrite E. symmetry. apply recovery_by_id_numbered. exact Hperm.
Qed.


(** C5: cancellation is looked at before every dispatch.  When the batches
    before batch [k] went through and cancellation is seen at the head of
    iteration [k], the coordinator throws the cancellation error there:
    the world and the events stay as they were, so batch [k] and the later
    ones are never dispatched, every dispatch, result and failure of the
    run is of a batch below [k], and no failure message is sent: the job
    ends as cancelled, not in error. *)
Theorem cancellation_cutoff (cls : provider_class)
    (batchingConfig : batching_config) (texts : list string)
    (translateMode : translate_mode)
    (pre : list batch) (b : batch) (post : list batch)
    (w0 w1 : World) (tr1 : list event) (results : list string)
    (Hplan : _createOptimalBatches cls batchingConfig texts translateMode
             = Some (pre ++ b :: post))
    (Hpre : stream_loop translateSingle aborted isCancelled hasSender deliver
              wait json _buildBatchPrompt jsonBatchStrategy timer pre 0 []
              (w0, [])
            = (Return results, (w1, tr1)))
    (Hcancel : aborted w1 = true \/ isCancelled w1 = true) :
  exists run,
    streaming cls batchingConfig texts translateMode = Some run
    /\ run (w0, []) = (Throw UserCancelled, (w1, tr1))
    /\ Forall (fun ev => forall j, reported_batch ev = Some j -> j < length pre) tr1
    /\ Forall no_failure tr1.
Proof.
  eexists. split; [apply streaming_unfold, Hplan|].
  destruct (loop_prefix_events _ _ _ _ _ Hpre) as [Hidx Hok].
  split; [|split; [|exact Hok]].
  - unfold mbind at 1. unfold task_bind at 1. rewrite loop_app, Hpre.
    cbn [stream_loop]. unfold mbind, task_bind, observe, throw. cbn [fst snd].
    destruct (aborted w1) eqn:Hab; [reflexivity|]. cbn [fst snd].
    destruct Hcancel as [Hc|Hc]; [discriminate|]. rewrite Hc. reflexivity.
  - eapply Forall_impl; [exact Hidx|]. intros ev Hev j Hj.
    specialize (Hev j Hj). lia.
Qed.

End CoordinatorFacts.

Lemma positional_recovery_witness :
  _translateBatch (fun _ n => (inl "[]", S n)) (fun _ => false) (fun _ => true)
                  (fun _ w => w) (fun w => w)
                  (fun _ => Some (ObjectArray two_items)) (fun _ => "prompt") true
                  ["one"; "two"; "three"] (0, [])
  = (Return ["un"; "deux"; "three"], (1, [Request "prompt"])).
Proof.
  destruct (positional_recovery (fun _ n => (inl "[]", S n)) (fun _ => false)
              (fun _ => true) (fun _ w => w) (fun w => w)
              (fun _ => Some (ObjectArray two_items)) (fun _ => "prompt") true
              ["one"; "two"; "three"] (0, []) "[]" 1 two_items)
    as (_ & _ & _ & _ & _ & H).
  - simpl; lia.
  - reflexivity.
  - reflexivity.
  - reflexivity.
  - discriminate.
  - simpl; lia.
  - exact H.
Defined.

(** The places of the result are not the ids: of three texts with the items
    of ids 0 and 2, the second place holds the text of id 2 and the third
    the original text, where the specification has the original text in the
    second place and the text of id 2 in the third; and of four items for
    three texts, the first three are kept, so the item of id 7 stays and
    the one of id 2 is dropped. *)
Lemma positional_recovery_counterexample :
  _parseBatchResult (fun _ => Some (ObjectArray sparse_items)) "[]" 3
                    ["one"; "two"; "three"]
  = ["un"; "trois"; "three"]
  /\ recovery_by_id sparse_items ["one"; "two"; "three"] = ["un"; "two"; "trois"]
  /\ _parseBatchResult (fun _ => Some (ObjectArray surplus_items)) "[]" 3
                       ["one"; "two"; "three"]
     = ["un"; "deux"; "EXTRA"]
  /\ recovery_by_id surplus_items ["one"; "two"; "three"] = ["un"; "deux"; "trois"].
Proof. repeat split; reflexivity. Qed.



(** The same backend as for C4, with a user who cancels while batch 0 is
    under way. *)
Lemma cancellation_cutoff_witness :
  exists run,
    _streamingBatchTranslate script_translate (fun _ => false) (fun n => 1 <=? n)
      (fun _ => true) (fun _ w => w) (fun w => w) script_json (fun _ => "prompt")
      true (fun _ _ => None) BaseAIProvider fixed_by_two five_texts OtherMode
    = Some run
    /\ run (0, [])
       = (Throw UserCancelled,
          (1, [ Execute 0 ["a"; "b"]; Request "prompt";
                Send (BatchResults 0 ["A"; "B"] ["a"; "b"]) ])).
Proof.
  destruct (cancellation_cutoff script_translate (fun _ => false)
              (fun n => 1 <=? n) (fun _ => true) (fun _ w => w) (fun w => w)
              script_json (fun _ => "prompt") true (fun _ _ => None)
              BaseAIProvider fixed_by_two five_texts OtherMode
              [["a"; "b"]] ["c"; "d"] [["e"]] 0 1
              [ Execute 0 ["a"; "b"]; Request "prompt";
                Send (BatchResults 0 ["A"; "B"] ["a"; "b"]) ]
              ["A"; "B"])
    as (run & Hrun & Hres & _).
  - reflexivity.
  - reflexivity.
  - right. reflexivity.
  - exists run. split; [exact Hrun|exact Hres].
Defined.

(** An update with the batch index of the batch that is never dispatched is
    sent: the prompt of batch 0 fails, its two texts are answered one by
    one, and the update of the second one carries [batchIndex = 1]; the
    user cancels before batch 1. *)
Lemma cancellation_cutoff_counterexample :
  exists run trace,
    _streamingBatchTranslate (flaky_translate 9) (fun _ => false)
      (fun n => 3 <=? n) (fun _ => true) (fun _ w => w) (fun w => w)
      (fun _ => None) (fun _ => "prompt") true (fun _ _ => None) BaseAIProvider
      fixed_by_two five_texts OtherMode
    = Some run
    /\ run (0, []) = (Throw UserCancelled, (3, trace))
    /\ trace = [ Execute 0 ["a"; "b"]; Request "prompt";
                 Request "a"; Send (FallbackResult 0 ["a"] ["a"]);
                 Request "b"; Send (FallbackResult 1 ["b"] ["b"]);
                 Send (BatchResults 0 ["a"; "b"] ["a"; "b"]) ]
    /\ batch_index_of (Send (FallbackResult 1 ["b"] ["b"])) = Some 1.
Proof. do 2 eexists. repeat split; reflexivity. Qed.

(** The results of fallback items carry the position of the item in its
    batch where the other updates carry the index of the batch: with a batch
    of three texts whose prompt fails, the item at position 2 is reported
    with that number while batch 0 is being processed. *)
Example fallback_results_carry_positions :
  (_translateBatch (fun text n => (if n =? 0 then inr (Failure "timeout")
                                   else inl text, S n))
                   (fun _ => false) (fun _ => true) (fun _ w => w) (fun w => w)
                   (fun _ => None) (fun _ => "prompt") true
                   ["a"; "b"; "c"] (0, [])).2.2
  = [ Request "prompt";
      Request "a"; Send (FallbackResult 0 ["a"] ["a"]);
      Request "b"; Send (FallbackResult 1 ["b"] ["b"]);
      Request "c"; Send (FallbackResult 2 ["c"] ["c"]) ].
Proof. reflexivity. Qed.

(** A round whose timer wins: the failure of the batch and the end of the
    stream are sent and the run throws, while the attempt, which nothing
    stops, sends the updates of its fallback items afterwards. *)
Example timed_out_attempt_goes_on :
  (fun run => run (0, []))
    <$> _streamingBatchTranslate (flaky_translate 9) (fun _ => false)
          (fun _ => false) (fun _ => true) (fun _ w => w) (fun w => w)
          (fun _ => None) (fun _ => "prompt") true early_timer BaseAIProvider
          fixed_by_three five_texts OtherMode
  = Some (Throw (Failure "Batch timeout"),
          (4, [ Execute 0 ["a"; "b"; "c"]; Request "prompt"; Request "a";
                Send (ErrorResults 0 (Failure "Batch timeout"));
                Send (StreamEnd true);
                Send (FallbackResult 0 ["a"] ["a"]);
                Request "b"; Send (FallbackResult 1 ["b"] ["b"]);
                Request "c"; Send (FallbackResult 2 ["c"] ["c"]) ])).
Proof. reflexivity. Qed.

(** ** The payload of a selected element *)

Example expand_hello_world :
  expandTextsForTranslation_spec [hello_world]
  = (["Hello"; "[[EMPTY_LINE]]"; "World"],
     [ {| originalIndex := 0; isEmptyLine := false |};
       {| originalIndex := 0; isEmptyLine := true |};
       {| originalIndex := 0; isEmptyLine := false |} ]).
Proof. reflexivity. Qed.

Lemma filtered_payload_keeps_empty_lines (expandedTexts : list string) :
  In "[[EMPTY_LINE]]" expandedTexts ->
  In {| text := "" |} (jsonPayload (filterExpandedTexts expandedTexts)).
Proof.
  intros Hin. unfold jsonPayload.
  assert (Hf : In "" (filterExpandedTexts expandedTexts)).
  { unfold filterExpandedTexts. apply in_map_iff.
    exists "[[EMPTY_LINE]]". split; [reflexivity|exact Hin]. }
  destruct (length (filterExpandedTexts expandedTexts) =? 1) eqn:E.
  - apply Nat.eqb_eq in E.
    destruct (filterExpandedTexts expandedTexts) as [|t [|t' r]];
      try discriminate.
    destruct Hf as [->|[]]. left. reflexivity.
  - apply in_map_iff. exists "". split; [reflexivity|exact Hf].
Qed.

(** C6, on the source: whatever [expandTextsForTranslation] is, as soon as it
    yields the placeholder of an empty line, the payload that
    [processSelectedElement] hands over holds an element whose text is the
    empty string.  The placeholder is mapped to [''] and kept, where the
    comment above the line announces that placeholders are not sent. *)
Theorem payload_keeps_empty_lines
    (expandTextsForTranslation : list string -> list string * list origin)
    (textsToTranslate : list string)
    (Htexts : textsToTranslate <> [])
    (Hline : In "[[EMPTY_LINE]]" (expandTextsForTranslation textsToTranslate).1) :
  exists payload,
    processSelectedElement_payload expandTextsForTranslation textsToTranslate
    = Some payload
    /\ In {| text := "" |} payload.
Proof.
  unfold processSelectedElement_payload.
  destruct textsToTranslate as [|t r]; [contradiction|]. cbn [length Nat.eqb].
  destruct (expandTextsForTranslation (t :: r)) as [expandedTexts originMapping].
  eexists. split; [reflexivity|].
  apply filtered_payload_keeps_empty_lines. exact Hline.
Qed.

Lemma payload_keeps_empty_lines_witness :
  exists payload,
    processSelectedElement_payload expandTextsForTranslation_spec [hello_world]
    = Some payload
    /\ In {| text := "" |} payload.
Proof.
  apply (payload_keeps_empty_lines expandTextsForTranslation_spec [hello_world]).
  - discriminate.
  - vm_compute. right. left. reflexivity.
Defined.

(** For the unit "Hello", blank line, "World": the empty string sits at the
    place of the empty line. *)
Example payload_of_hello_world :
  processSelectedElement_payload expandTextsForTranslation_spec [hello_world]
  = Some [ {| text := "Hello" |}; {| text := "" |}; {| text := "World" |} ].
Proof. reflexivity. Qed.

(** ** Streamed segments *)

Section StreamedSegmentsFacts.

Context {DOM : Type}.
Variable _isPartialTranslation : string -> string -> bool.
Variable _applyStreamingTranslationsImmediately :
  DOM -> gmap string translation_data -> stream_request -> DOM.

Local Abbreviation segment := (stream_segment _isPartialTranslation).
Local Abbreviation segments := (stream_segments _isPartialTranslation).

(** What one segment does to [translatedSegments]: the translation is put
    on record at the place of the segment, whatever its length. *)
Lemma stream_segment_stored request originalBatch i translatedText
    (segs : gmap nat string) newly :
  (segment request originalBatch i translatedText (segs, newly)).1
  = match segment_index request originalBatch i with
    | Some expandedIndex => <[expandedIndex := translatedText]> segs
    | None => segs
    end.
Proof.
  unfold stream_segment, segment_index.
  destruct (originalBatch !! i) as [originalText|]; [|reflexivity]. simpl.
  destruct (list_find _ _) as [[expandedIndex found]|]; [|reflexivity]. simpl.
  destruct (originMapping request !! expandedIndex) as [mappingInfo|];
    [|reflexivity].
  destruct (isEmptyLine mappingInfo); [reflexivity|].
  destruct (textsToTranslate request !! originalIndex mappingInfo)
    as [originalTextKey|]; [|reflexivity].
  destruct (String.eqb originalTextKey ""); [reflexivity|].
  destruct (hasMinimumContent originalTextKey translatedText); [|reflexivity].
  cbv zeta. rewrite String.eqb_refl. reflexivity.
Qed.

(** What one segment does to [newlyAppliedTranslations]. *)
Lemma stream_segment_newly request originalBatch i translatedText segs
    (newly : gmap string translation_data) :
  (segment request originalBatch i translatedText (segs, newly)).2
  = match segment_unit request originalBatch i with
    | Some (expandedIndex, originalIndex, originalTextKey) =>
        if negb (String.eqb originalTextKey "")
           && hasMinimumContent originalTextKey translatedText
        then
          let translationData :=
            {| td_text := translatedText;
               td_isPartial := _isPartialTranslation originalTextKey translatedText;
               td_segmentIndex := expandedIndex;
               td_originalIndex := originalIndex |} in
          <[JS.trim originalTextKey := translationData]> newly
        else newly
    | None => newly
    end.
Proof.
  unfold stream_segment, segment_unit, segment_index.
  destruct (originalBatch !! i) as [originalText|]; [|reflexivity]. simpl.
  destruct (list_find _ _) as [[expandedIndex found]|]; [|reflexivity]. simpl.
  destruct (originMapping request !! expandedIndex) as [mappingInfo|];
    [|reflexivity]. simpl.
  destruct (isEmptyLine mappingInfo); [reflexivity|].
  destruct (textsToTranslate request !! originalIndex mappingInfo)
    as [originalTextKey|]; [|reflexivity]. simpl.
  destruct (String.eqb originalTextKey ""); [reflexivity|]. simpl.
  destruct (hasMinimumContent originalTextKey translatedText); [|reflexivity].
  cbv zeta. rewrite String.eqb_refl. reflexivity.
Qed.

Lemma stream_segment_recorded request translatedBatch originalBatch i translatedText
    segs newly :
  translatedBatch !! i = Some translatedText ->
  recorded request translatedBatch originalBatch i segs ->
  recorded request translatedBatch originalBatch (S i)
           (segment request originalBatch i translatedText (segs, newly)).1.
Proof.
  intros Hi Hinv i' t e Hlt Ht He. rewrite stream_segment_stored.
  destruct (decide (i' = i)) as [->|Hne].
  - rewrite He. exists i, translatedText.
    split; [exact Hi|]. split; [exact He|]. apply lookup_insert_eq.
  - destruct (Hinv i' t e) as (j & t' & Hj & Hje & Hlook); [lia|exact Ht|exact He|].
    destruct (segment_index request originalBatch i) as [e0|] eqn:Hi0.
    + destruct (decide (e0 = e)) as [->|Hne0].
      * exists i, translatedText.
        split; [exact Hi|]. split; [exact Hi0|]. apply lookup_insert_eq.
      * exists j, t'. split; [exact Hj|]. split; [exact Hje|].
        rewrite lookup_insert_ne by exact Hne0. exact Hlook.
    + exists j, t'. auto.
Qed.

Lemma stream_segments_recorded request translatedBatch originalBatch rest :
  forall i state,
    (forall j, translatedBatch !! (i + j) = rest !! j) ->
    recorded request translatedBatch originalBatch i state.1 ->
    recorded request translatedBatch originalBatch (i + length rest)
             (segments request originalBatch i rest state).1.
Proof.
  induction rest as [|translatedText rest IH]; intros i [segs newly] Hrest Hinv;
    cbn [stream_segments length].
  - rewrite Nat.add_0_r. exact Hinv.
  - replace (i + S (length rest)) with (S i + length rest) by lia.
    apply IH.
    + intros j. specialize (Hrest (S j)). simpl in Hrest.
      rewrite <- Hrest. f_equal. lia.
    + destruct (segment request originalBatch i translatedText (segs, newly))
        as [segs' newly'] eqn:E.
      change segs' with (segs', newly').1. rewrite <- E.
      apply stream_segment_recorded; [|exact Hinv].
      specialize (Hrest 0). rewrite Nat.add_0_r in Hrest. exact Hrest.
Qed.

Lemma stream_segment_gated request translatedBatch originalBatch i translatedText
    segs newly :
  translatedBatch !! i = Some translatedText ->
  gated request translatedBatch originalBatch newly ->
  gated request translatedBatch originalBatch
        (segment request originalBatch i translatedText (segs, newly)).2.
Proof.
  intros Hi Hinv. rewrite stream_segment_newly.
  destruct (segment_unit request originalBatch i)
    as [[[expandedIndex originalIndex] originalTextKey]|] eqn:Hunit;
    [|exact Hinv].
  destruct (negb (String.eqb originalTextKey "")
            && hasMinimumContent originalTextKey translatedText) eqn:Hgate;
    [|exact Hinv].
  apply andb_true_iff in Hgate as [_ Hmin].
  unfold hasMinimumContent in Hmin. apply Nat.ltb_lt in Hmin.
  set (data := {| td_text := translatedText;
                  td_isPartial := _isPartialTranslation originalTextKey translatedText;
                  td_segmentIndex := expandedIndex;
                  td_originalIndex := originalIndex |}).
  cbv zeta. fold data. intros key d Hlook.
  destruct (decide (key = JS.trim originalTextKey)) as [->|Hne].
  - rewrite lookup_insert_eq in Hlook. inversion Hlook; subst d.
    exists i, originalTextKey. simpl. auto.
  - rewrite lookup_insert_ne in Hlook by congruence. exact (Hinv _ _ Hlook).
Qed.

Lemma stream_segments_gated request translatedBatch originalBatch rest :
  forall i state,
    (forall j, translatedBatch !! (i + j) = rest !! j) ->
    gated request translatedBatch originalBatch state.2 ->
    gated request translatedBatch originalBatch
          (segments request originalBatch i rest state).2.
Proof.
  induction rest as [|translatedText rest IH]; intros i [segs newly] Hrest Hinv;
    cbn [stream_segments]; [exact Hinv|].
  apply IH.
  - intros j. specialize (Hrest (S j)). simpl in Hrest.
    rewrite <- Hrest. f_equal. lia.
  - apply stream_segment_gated; [|exact Hinv].
    specialize (Hrest 0). rewrite Nat.add_0_r in Hrest. exact Hrest.
Qed.

Lemma stream_segments_skipped request originalBatch rest :
  forall i state,
    (forall j translatedText unit,
        rest !! j = Some translatedText ->
        segment_unit request originalBatch (i + j) = Some unit ->
        ~ String.length (JS.trim unit.2) < 10 * String.length (JS.trim translatedText)) ->
    (segments request originalBatch i rest state).2 = state.2.
Proof.
  induction rest as [|translatedText rest IH]; intros i [segs newly] Hfail;
    cbn [stream_segments]; [reflexivity|].
  rewrite IH.
  - rewrite stream_segment_newly.
    destruct (segment_unit request originalBatch i)
      as [[[expandedIndex originalIndex] originalTextKey]|] eqn:Hunit;
      [|reflexivity].
    destruct (hasMinimumContent originalTextKey translatedText) eqn:Hmin.
    + exfalso.
      apply (Hfail 0 translatedText (expandedIndex, originalIndex, originalTextKey)
               eq_refl).
      * rewrite Nat.add_0_r. exact Hunit.
      * apply Nat.ltb_lt. exact Hmin.
    + rewrite andb_false_r. reflexivity.
  - intros j t unit Hj Hu. apply (Hfail (S j) t unit Hj).
    rewrite <- Hu. f_equal. lia.
Qed.

Lemma processed_request_segments request translatedBatch originalBatch
    (textNodes : DOM) :
  translatedSegments
    (_processStreamTranslationData _isPartialTranslation
       _applyStreamingTranslationsImmediately request translatedBatch
       originalBatch textNodes).1
  = (segments request originalBatch 0 translatedBatch
              (translatedSegments request, ∅)).1.
Proof.
  unfold _processStreamTranslationData.
  destruct (segments request originalBatch 0 translatedBatch
                     (translatedSegments request, ∅)) as [segs newly].
  destruct (0 <? size newly); reflexivity.
Qed.

(** C10, amended: during streaming the translation of every segment of an
    update that is found among the expanded texts is put on record for the
    final reassembly, whatever its length; an entry is handed to the writing
    into the destination nodes only when the trimmed length of the segment's
    translation is strictly more than 10% of the trimmed length of the text
    of the unit it belongs to; when no segment of an update passes this gate,
    nothing is handed over and the text nodes stay as they are. *)
Theorem minimum_content_gate (request : stream_request)
    (translatedBatch originalBatch : list string) (textNodes : DOM) :
  let processed :=
    _processStreamTranslationData _isPartialTranslation
      _applyStreamingTranslationsImmediately request translatedBatch
      originalBatch textNodes in
  let newly :=
    (segments request originalBatch 0 translatedBatch
              (translatedSegments request, ∅)).2 in
  recorded request translatedBatch originalBatch (length translatedBatch)
           (translatedSegments processed.1)
  /\ gated request translatedBatch originalBatch newly
  /\ ((forall i translatedText unit,
          translatedBatch !! i = Some translatedText ->
          segment_unit request originalBatch i = Some unit ->
          ~ String.length (JS.trim unit.2)
            < 10 * String.length (JS.trim translatedText)) ->
      newly = ∅ /\ processed.2 = textNodes).
Proof.
  cbv zeta. split; [|split].
  - rewrite processed_request_segments.
    apply (stream_segments_recorded request translatedBatch originalBatch
             translatedBatch 0 (translatedSegments request, ∅)).
    + reflexivity.
    + intros i t e Hlt. lia.
  - apply stream_segments_gated; [reflexivity|].
    intros key data Hlook. simpl in Hlook. rewrite lookup_empty in Hlook.
    discriminate.
  - intros Hfail.
    assert (E : (segments request originalBatch 0 translatedBatch
                          (translatedSegments request, ∅)).2 = ∅).
    { rewrite stream_segments_skipped; [reflexivity|]. exact Hfail. }
    split; [exact E|].
    unfold _processStreamTranslationData.
    destruct (segments request originalBatch 0 translatedBatch
                       (translatedSegments request, ∅)) as [segs newly].
    simpl in E. subst newly. rewrite map_size_empty. reflexivity.
Qed.

End StreamedSegmentsFacts.

(** C10, as stated, fails for the storing: a streamed segment whose
    translation has one character, against a unit of 25, does not pass the
    minimum-content check and is not applied, and it is stored all the same
    in [translatedSegments], from where the final result takes it. *)
Lemma short_segment_counterexample :
  let processed :=
    _processStreamTranslationData (fun _ _ => false)
      (fun (nodes : list string) _ _ => ["changed"]) one_unit_request
      ["S"] ["Hello world, how are you?"] ["Hello world, how are you?"] in
  ~ String.length (JS.trim "Hello world, how are you?")
    < 10 * String.length (JS.trim "S")
  /\ translatedSegments processed.1 !! 0 = Some "S"
  /\ processed.2 = ["Hello world, how are you?"].
Proof. cbv zeta. split; [vm_compute; lia|]. split; reflexivity. Qed.

Lemma minimum_content_gate_witness :
  (_processStreamTranslationData (fun _ _ => false)
     (fun (nodes : list string) _ _ => ["changed"]) one_unit_request
     ["S"] ["Hello world, how are you?"] ["Hello world, how are you?"]).2
  = ["Hello world, how are you?"].
Proof.
  apply (minimum_content_gate (fun _ _ => false)
           (fun (nodes : list string) _ _ => ["changed"]) one_unit_request
           ["S"] ["Hello world, how are you?"] ["Hello world, how are you?"]).
  intros [|i] translatedText unit Ht Hu; [|discriminate].
  inversion Ht; subst. vm_compute in Hu. inversion Hu; subst. vm_compute. lia.
Defined.

Example long_segment_is_applied :
  (_processStreamTranslationData (fun _ _ => false)
     (fun (nodes : list string) _ _ => ["changed"]) one_unit_request
     ["Bonjour"] ["Hello world, how are you?"] ["Hello world, how are you?"]).2
  = ["changed"].
Proof. reflexivity. Qed.

(** ** The authority of results *)

Example authority_override :
  replacement_decision false exact None "He" = NotConsidered
  /\ replacement_decision true exact (Some "He") "Hello" = ReplaceWrapper
  /\ replacement_decision false exact (Some "He") "Hello" = ReplaceWrapper
  /\ replacement_decision false exact (Some "Hello") "He" = KeepCurrent.
Proof. repeat split; reflexivity. Qed.

(** In rescue mode a non-empty current text is only measured against 150% of
    its length. *)
Example rescue_mode_keeps :
  replacement_decision false rescue_longest_translation (Some "aaaaaaaaaa")
                       "aaaaaaaaaaaa" = KeepCurrent
  /\ replacement_decision false exact (Some "aaaaaaaaaa") "aaaaaaaaaaaa"
     = ReplaceWrapper.
Proof. split; reflexivity. Qed.






Section ApplyToNodeFacts.

Variable table : gmap string string.
Variable later_strategies : string -> option (string * match_strategy).
Variable enhanced_fallback : string -> option string.
Variable ensureSpacingBeforeInlineElements : bool -> string -> string -> string.

Local Abbreviation lower :=
  (lower_block table enhanced_fallback ensureSpacingBeforeInlineElements).
Local Abbreviation apply :=
  (apply_to_node table later_strategies enhanced_fallback
                 ensureSpacingBeforeInlineElements).





End ApplyToNodeFacts.



(** A node without a wrapper: a final result is written into a text node
    that takes its place, a non-final one into a new wrapper. *)
Example first_translation_of_a_node :
  apply_to_node (translationLookup [("Hello world", "Bonjour le monde")])
                (fun _ => None) (fun _ => None) (fun _ _ text => text)
                final_options
                {| node_textContent := " Hello world";
                   node_attached := true; translationWrapper := None |}
  = TextNodeReplaced "Bonjour le monde"
  /\ apply_to_node (translationLookup [("Hello world", "Bonjour le monde")])
                   (fun _ => None) (fun _ => None) (fun _ _ text => text)
                   no_options
                   {| node_textContent := " Hello world";
                      node_attached := true; translationWrapper := None |}
     = Processed false (Wrapped "Bonjour le monde" " Bonjour le monde").
Proof. split; vm_compute; reflexivity. Qed.

(** * Further properties *)

(** ** More about the complexity and the planners *)

Lemma half_count_bounds (n : nat) (cap : Q) :
  (0 <= cap)%Q ->
  (0 <= Qmin (inject_Z (Z.of_nat n) * (1 # 2)) cap <= cap)%Q.
Proof.
  intros Hcap. split; [|apply Q.le_min_r].
  apply Q.min_glb; [|exact Hcap].
  assert (H : (inject_Z 0 <= inject_Z (Z.of_nat n))%Q)
    by (rewrite <- Zle_Qle; lia).
  change (inject_Z 0) with 0%Q in H. lra.
Qed.

Lemma Math_round_bounds (q : Q) (lo hi : Z) :
  (inject_Z lo - (1 # 2) <= q)%Q -> (q <= inject_Z hi)%Q ->
  (lo <= JS.Math_round q <= hi)%Z.
Proof.
  intros Hlo Hhi. unfold JS.Math_round.
  pose proof (Qfloor_le (q + (1 # 2))) as Hle.
  pose proof (Qlt_floor (q + (1 # 2))) as Hlt.
  rewrite inject_Z_plus in Hlt. change (inject_Z 1) with 1%Q in Hlt.
  split.
  - assert (H : (inject_Z lo < inject_Z (Qfloor (q + (1 # 2)) + 1))%Q).
    { rewrite inject_Z_plus. change (inject_Z 1) with 1%Q. lra. }
    rewrite <- Zlt_Qlt in H. lia.
  - assert (H : (inject_Z (Qfloor (q + (1 # 2))) < inject_Z (hi + 1))%Q).
    { rewrite inject_Z_plus. change (inject_Z 1) with 1%Q. lra. }
    rewrite <- Zlt_Qlt in H. lia.
Qed.

(** X1: the complexity of a non-empty string is at least 1 and at most 120 plus
    twice its number of runs of sentence marks: the length counts for at
    most 100 and the words for at most 20. *)
Theorem complexity_bounds (s : string) :
  s <> "" ->
  (1 <= _calculateTextComplexity (JSString s)
     <= 120 + 2 * Z.of_nat (JS.match_sentence_marks s))%Z.
Proof.
  intros Hs. unfold _calculateTextComplexity.
  destruct (String.eqb_spec s "") as [E|_]; [contradiction|].
  assert (Hlen : 1 <= String.length s) by (destruct s; [contradiction|simpl; lia]).
  set (words := length (JS.split_ws (JS.trim s))).
  set (marks := JS.match_sentence_marks s).
  pose proof (half_count_bounds words 20 ltac:(lra)) as [Hw0 Hw1].
  pose proof (Q.le_min_r (inject_Z (Z.of_nat (String.length s)) * (1 # 2)) 100) as Hl1.
  assert (Hl0 : (1 # 2 <= Qmin (inject_Z (Z.of_nat (String.length s)) * (1 # 2)) 100)%Q).
  { apply Q.min_glb; [|lra].
    assert (H : (inject_Z 1 <= inject_Z (Z.of_nat (String.length s)))%Q)
      by (rewrite <- Zle_Qle; lia).
    change (inject_Z 1) with 1%Q in H. lra. }
  assert (Hm : (0 <= inject_Z (Z.of_nat marks))%Q).
  { change 0%Q with (inject_Z 0). rewrite <- Zle_Qle. lia. }
  apply Math_round_bounds.
  - change (inject_Z 1) with 1%Q. lra.
  - rewrite inject_Z_plus, inject_Z_mult.
    change (inject_Z 120) with 120%Q. change (inject_Z 2) with 2%Q. lra.
Qed.

Lemma complexity_bounds_witness :
  "Hi. Go!" <> ""
  /\ (1 <= _calculateTextComplexity (JSString "Hi. Go!")
        <= 120 + 2 * Z.of_nat (JS.match_sentence_marks "Hi. Go!"))%Z.
Proof.
  split; [discriminate|]. apply (complexity_bounds "Hi. Go!"). discriminate.
Defined.

Lemma total_complexity_from (texts : list string) (z : Z) :
  fold_left (fun sum text => (sum + _calculateTextComplexity (JSString text))%Z)
            texts z
  = (z + _getTotalComplexity texts)%Z.
Proof.
  unfold _getTotalComplexity. revert z.
  induction texts as [|t texts IH]; intros z.
  - simpl. lia.
  - cbn [fold_left]. rewrite (IH (z + _)%Z), (IH (0 + _)%Z). lia.
Qed.

Lemma total_complexity_app (a b : list string) :
  _getTotalComplexity (a ++ b) = (_getTotalComplexity a + _getTotalComplexity b)%Z.
Proof.
  unfold _getTotalComplexity at 1. rewrite fold_left_app.
  fold (_getTotalComplexity a). apply total_complexity_from.
Qed.

Lemma total_complexity_one (t : string) :
  _getTotalComplexity [t] = _calculateTextComplexity (JSString t).
Proof. reflexivity. Qed.

Lemma smart_loop_bounded optimalSize maxComplexity :
  1 <= optimalSize ->
  forall texts batches currentBatch currentComplexity,
    Forall (smart_bounded optimalSize maxComplexity) batches ->
    currentComplexity = _getTotalComplexity currentBatch ->
    currentBatch = [] \/ smart_bounded optimalSize maxComplexity currentBatch ->
    Forall (smart_bounded optimalSize maxComplexity)
           (smart_loop optimalSize maxComplexity texts batches currentBatch
                       currentComplexity).
Proof.
  intros Hsize. induction texts as [|text rest IH];
    intros batches cur cc Hb Hcc Hcur.
  - simpl. destruct (0 <? length cur) eqn:E; [|exact Hb].
    apply Nat.ltb_lt in E. apply Forall_app. split; [exact Hb|].
    apply Forall_cons. split; [|apply Forall_nil; exact I].
    destruct Hcur as [-> | H]; [simpl in E; lia | exact H].
  - cbn [smart_loop].
    destruct ((optimalSize <=? length cur)
              || ((maxComplexity <? cc + _calculateTextComplexity (JSString text))%Z
                  && (0 <? length cur))) eqn:E.
    + cbn [close_batch]. apply IH.
      * apply Forall_app. split; [exact Hb|].
        apply Forall_cons. split; [|apply Forall_nil; exact I].
        destruct Hcur as [-> | H]; [|exact H].
        simpl in E. apply orb_true_iff in E as [E|E].
        -- apply Nat.leb_le in E. lia.
        -- rewrite andb_false_r in E. discriminate.
      * reflexivity.
      * right. split; [simpl; lia|]. left. reflexivity.
    + apply orb_false_iff in E as [E1 E2]. apply Nat.leb_gt in E1.
      apply IH.
      * exact Hb.
      * rewrite total_complexity_app, total_complexity_one. lia.
      * right. split; [rewrite length_app; simpl; lia|].
        apply andb_false_iff in E2 as [E2|E2].
        -- right. apply Z.ltb_ge in E2.
           rewrite total_complexity_app, total_complexity_one. lia.
        -- apply Nat.ltb_ge in E2. left. rewrite length_app. simpl. lia.
Qed.

(** X2: past its early exit, [_createSmartBatches] returns batches of 1 to
    [optimalSize] texts, each of a total complexity of at most
    [maxComplexity] unless it is a single text. *)
Theorem smart_batches_bounded texts optimalSize maxComplexity :
  1 <= optimalSize ->
  Nat.min 20 optimalSize < length texts ->
  (Z.min 300 maxComplexity <= _getTotalComplexity texts)%Z ->
  Forall (smart_bounded optimalSize maxComplexity)
         (_createSmartBatches texts optimalSize maxComplexity).
Proof.
  intros Hsize Hcount Htotal. unfold _createSmartBatches.
  destruct (length texts <=? Nat.min 20 optimalSize) eqn:E1.
  { apply Nat.leb_le in E1. lia. }
  destruct (_getTotalComplexity texts <? Z.min 300 maxComplexity)%Z eqn:E2.
  { apply Z.ltb_lt in E2. lia. }
  cbn [orb]. apply smart_loop_bounded.
  - exact Hsize.
  - apply Forall_nil. exact I.
  - reflexivity.
  - left. reflexivity.
Qed.

Lemma smart_batches_bounded_witness :
  Forall (smart_bounded 15 300) (_createSmartBatches (repeat forty 16) 15 300).
Proof.
  apply (smart_batches_bounded (repeat forty 16) 15 300).
  - lia.
  - vm_compute. lia.
  - vm_compute. discriminate.
Defined.

(** The early exit is not bound by [optimalSize]: thirty one-letter texts
    of total complexity 30 make one batch of 30 for a size of 15. *)
Example smart_early_exit_exceeds_size :
  _createSmartBatches thirty_letters 15 300 = [thirty_letters].
Proof. reflexivity. Qed.

Lemma fixed_loop_slices texts batchSize :
  1 <= batchSize ->
  forall fuel k batches,
    length texts <= k * batchSize + fuel ->
    fixed_loop fuel texts batchSize (k * batchSize) batches
    = Some (batches
            ++ map (fun k => JS.slice texts (k * batchSize)
                                      (k * batchSize + batchSize))
                   (seq k (JS.Math_ceil_div (length texts) batchSize - k))).
Proof.
  intros Hpos. unfold JS.Math_ceil_div.
  induction fuel as [|fuel IH]; intros k batches Hfuel.
  - simpl. destruct (k * batchSize <? length texts) eqn:Hi.
    { apply Nat.ltb_lt in Hi. lia. }
    apply Nat.ltb_ge in Hi.
    assert (H : (length texts + batchSize - 1) / batchSize <= k).
    { apply Nat.lt_succ_r. apply Nat.Div0.div_lt_upper_bound. nia. }
    replace ((length texts + batchSize - 1) / batchSize - k) with 0 by lia.
    simpl. rewrite app_nil_r. reflexivity.
  - cbn [fixed_loop]. destruct (k * batchSize <? length texts) eqn:Hi.
    + apply Nat.ltb_lt in Hi.
      assert (H : S k <= (length texts + batchSize - 1) / batchSize).
      { apply Nat.div_le_lower_bound; [lia|]. nia. }
      replace (k * batchSize + batchSize) with (S k * batchSize) by lia.
      rewrite IH by lia.
      replace ((length texts + batchSize - 1) / batchSize - k)
        with (S ((length texts + batchSize - 1) / batchSize - S k)) by lia.
      cbn [seq map]. rewrite <- app_assoc. cbn [app].
      replace (S k * batchSize) with (k * batchSize + batchSize) by lia.
      reflexivity.
    + apply Nat.ltb_ge in Hi.
      assert (H : (length texts + batchSize - 1) / batchSize <= k).
      { apply Nat.lt_succ_r. apply Nat.Div0.div_lt_upper_bound. nia. }
      replace ((length texts + batchSize - 1) / batchSize - k) with 0 by lia.
      simpl. rewrite app_nil_r. reflexivity.
Qed.

(** X3: with a batch size of at least 1, [_createFixedBatches] returns the
    [ceil(length / batchSize)] consecutive slices of [batchSize] texts. *)
Theorem fixed_batches_are_slices texts batchSize :
  1 <= batchSize ->
  _createFixedBatches texts batchSize
  = Some (map (fun k => JS.slice texts (k * batchSize)
                                 (k * batchSize + batchSize))
              (seq 0 (JS.Math_ceil_div (length texts) batchSize))).
Proof.
  intros Hpos. unfold _createFixedBatches.
  change 0 with (0 * batchSize) at 1.
  rewrite (fixed_loop_slices texts batchSize Hpos (length texts) 0 []) by lia.
  rewrite Nat.sub_0_r. reflexivity.
Qed.

Lemma fixed_batches_are_slices_witness :
  _createFixedBatches five_texts 2
  = Some (map (fun k => JS.slice five_texts (k * 2) (k * 2 + 2))
              (seq 0 (JS.Math_ceil_div (length five_texts) 2))).
Proof. apply (fixed_batches_are_slices five_texts 2). lia. Defined.

Lemma total_chars_from (texts : list string) (n : nat) :
  fold_left (fun sum text => sum + String.length text) texts n
  = n + total_chars texts.
Proof.
  unfold total_chars. revert n.
  induction texts as [|t texts IH]; intros n.
  - simpl. lia.
  - cbn [fold_left]. rewrite (IH (n + _)), (IH (0 + _)). lia.
Qed.

Lemma total_chars_app (a b : list string) :
  total_chars (a ++ b) = total_chars a + total_chars b.
Proof.
  unfold total_chars at 1. rewrite fold_left_app.
  fold (total_chars a). apply total_chars_from.
Qed.

Lemma char_bounded_mono (n m : nat) (b : batch) :
  n <= m -> char_bounded n b -> char_bounded m b.
Proof. unfold char_bounded. intros Hnm [H1 [H2|H2]]; split; auto; right; lia. Qed.

Lemma char_loop_bounded targetBatchChars :
  forall texts batches currentBatch currentChars,
    Forall (char_bounded targetBatchChars) batches ->
    currentChars = total_chars currentBatch ->
    currentBatch = [] \/ char_bounded targetBatchChars currentBatch ->
    Forall (char_bounded targetBatchChars)
           (char_loop targetBatchChars texts batches currentBatch currentChars).
Proof.
  assert (Hone : forall t : string, char_bounded targetBatchChars [t]).
  { intros t. split; [simpl; lia|]. left. reflexivity. }
  assert (Hpush : forall batches b,
            Forall (char_bounded targetBatchChars) batches ->
            char_bounded targetBatchChars b ->
            Forall (char_bounded targetBatchChars) (batches ++ [b])).
  { intros batches b Hb H. apply Forall_app. split; [exact Hb|].
    apply Forall_cons. split; [exact H|apply Forall_nil; exact I]. }
  assert (Hfull : forall cur : batch,
            0 < length cur ->
            cur = [] \/ char_bounded targetBatchChars cur ->
            char_bounded targetBatchChars cur).
  { intros cur Hlen [-> | H]; [simpl in Hlen; lia | exact H]. }
  induction texts as [|text rest IH]; intros batches cur cc Hb Hcc Hcur.
  - simpl. destruct (0 <? length cur) eqn:E; [|exact Hb].
    apply Nat.ltb_lt in E. auto.
  - cbn [char_loop].
    destruct ((targetBatchChars <? cc + String.length text) && (0 <? length cur))
      eqn:E1.
    + apply andb_true_iff in E1 as [_ E1]. apply Nat.ltb_lt in E1.
      cbn [close_batch].
      destruct (targetBatchChars <? String.length text) eqn:E2.
      * cbn [length]. change (0 <? 0) with false. cbv iota.
        apply IH; auto.
      * apply IH; auto. right. cbn [app]. auto.
    + destruct (targetBatchChars <? String.length text) eqn:E2.
      * destruct (0 <? length cur) eqn:E3.
        -- apply Nat.ltb_lt in E3. cbn [close_batch]. apply IH; auto.
        -- apply Nat.ltb_ge in E3. apply IH; auto.
      * apply IH; auto.
        -- rewrite total_chars_app. subst cc. unfold total_chars at 3. simpl. lia.
        -- right. split; [rewrite length_app; simpl; lia|].
           apply andb_false_iff in E1 as [E1|E1].
           ++ apply Nat.ltb_ge in E1. right.
              rewrite total_chars_app. subst cc.
              unfold total_chars at 2. simpl. lia.
           ++ apply Nat.ltb_ge in E1. left. rewrite length_app. simpl. lia.
Qed.

(** X4: every batch of [_createCharacterBasedBatches] holds at least one text
    and, unless it is a single text, at most [maxCharsPerBatch] characters,
    with balancing and without. *)
Theorem char_batches_within_budget texts maxCharsPerBatch balancedBatching :
  texts <> [] ->
  Forall (char_bounded maxCharsPerBatch)
         (_createCharacterBasedBatches texts maxCharsPerBatch balancedBatching).
Proof.
  intros Hne. unfold _createCharacterBasedBatches.
  destruct (total_chars texts <=? maxCharsPerBatch) eqn:E.
  - apply Nat.leb_le in E. apply Forall_cons. split; [|apply Forall_nil; exact I].
    split; [destruct texts; [contradiction|simpl; lia]|]. right. exact E.
  - match goal with |- context [char_loop ?t] => set (target := t) end.
    assert (Htarget : target <= maxCharsPerBatch).
    { unfold target. destruct balancedBatching; lia. }
    eapply Forall_impl.
    + apply (char_loop_bounded target texts [] [] 0).
      * apply Forall_nil. exact I.
      * reflexivity.
      * left. reflexivity.
    + intros b. apply char_bounded_mono. exact Htarget.
Qed.

Lemma char_batches_within_budget_witness :
  Forall (char_bounded 100) (_createCharacterBasedBatches (repeat sixty 3) 100 true).
Proof.
  apply (char_batches_within_budget (repeat sixty 3) 100 true). discriminate.
Defined.

Lemma fixed_loop_zero_size texts :
  texts <> [] ->
  forall fuel batches, fixed_loop fuel texts 0 0 batches = None.
Proof.
  intros Hne. assert (H : (0 <? length texts) = true).
  { apply Nat.ltb_lt. destruct texts; [contradiction|simpl; lia]. }
  induction fuel as [|fuel IH]; intros batches.
  - destruct texts; [contradiction|]. reflexivity.
  - cbn [fixed_loop]. rewrite H. cbn [Nat.add]. apply IH.
Qed.

(** X5: [_createOptimalBatches] fails to return exactly when the strategy is
    the fixed one (or an unknown name), both the configured size and the
    size of the class are 0, there is a text, and the character budget of
    the select-element mode is not in use; the loop of [_createFixedBatches]
    is then still running after any number of rounds. *)
Theorem optimal_batches_never_end_iff cls batchingConfig texts translateMode :
  _createOptimalBatches cls batchingConfig texts translateMode = None
  <-> ((default (preferredBatchStrategy cls) (cfg_strategy batchingConfig) = Fixed
        \/ default (preferredBatchStrategy cls) (cfg_strategy batchingConfig)
           = OtherStrategy)
       /\ cfg_optimalSize batchingConfig = 0
       /\ optimalBatchSize cls = 0
       /\ texts <> []
       /\ ~ (translateMode = SelectElement
             /\ cfg_maxBatchSizeChars batchingConfig <> 0)
       /\ forall fuel, fixed_loop fuel texts 0 0 [] = None).
Proof.
  unfold _createOptimalBatches.
  set (strat := default (preferredBatchStrategy cls) (cfg_strategy batchingConfig)).
  assert (Hfixed :
    _createFixedBatches texts
      (or_nat (cfg_optimalSize batchingConfig) (optimalBatchSize cls)) = None
    <-> cfg_optimalSize batchingConfig = 0 /\ optimalBatchSize cls = 0
        /\ texts <> []).
  { unfold or_nat. split.
    - intros H.
      assert (Hz : (if cfg_optimalSize batchingConfig =? 0
                    then optimalBatchSize cls
                    else cfg_optimalSize batchingConfig) = 0).
      { destruct (if cfg_optimalSize batchingConfig =? 0
                  then optimalBatchSize cls
                  else cfg_optimalSize batchingConfig) as [|n] eqn:E;
          [reflexivity|].
        destruct (fixed_concat texts (S n)) as (r & Hr & _); [lia|].
        congruence. }
      destruct (Nat.eqb_spec (cfg_optimalSize batchingConfig) 0) as [E|E];
        [|contradiction].
      repeat split; auto. intros ->. rewrite Hz in H. discriminate.
    - intros (-> & -> & Hne). simpl. apply fixed_loop_zero_size. exact Hne. }
  split.
  - intros H.
    assert (Hcase :
      (strat = Fixed \/ strat = OtherStrategy)
      /\ _createFixedBatches texts
           (or_nat (cfg_optimalSize batchingConfig) (optimalBatchSize cls)) = None
      /\ ~ (translateMode = SelectElement
            /\ cfg_maxBatchSizeChars batchingConfig <> 0)).
    { destruct translateMode, (cfg_maxBatchSizeChars batchingConfig);
        try discriminate; destruct strat; try discriminate;
        (split; [auto|split; [exact H|]]); intros [? ?]; congruence. }
    destruct Hcase as (Hs & Hf & Hm). apply Hfixed in Hf as (H1 & H2 & H3).
    repeat split; auto. intros fuel. apply fixed_loop_zero_size. exact H3.
  - intros (Hs & H1 & H2 & H3 & Hm & _).
    assert (Hf : _createFixedBatches texts
                   (or_nat (cfg_optimalSize batchingConfig) (optimalBatchSize cls))
                 = None) by (apply Hfixed; auto).
    destruct translateMode, (cfg_maxBatchSizeChars batchingConfig) eqn:E;
      try (exfalso; apply Hm; split; [reflexivity|lia]);
      destruct Hs as [-> | ->]; exact Hf.
Qed.

Lemma fixed_batches_concat texts batchSize batches :
  _createFixedBatches texts batchSize = Some batches -> concat batches = texts.
Proof.
  intros H. destruct batchSize as [|n].
  - destruct texts as [|t texts].
    + inversion H. reflexivity.
    + unfold _createFixedBatches in H.
      rewrite fixed_loop_zero_size in H by discriminate. discriminate.
  - destruct (fixed_concat texts (S n)) as (r & Hr & Hcat); [lia|].
    congruence.
Qed.

Lemma optimal_batches_concat cls batchingConfig texts translateMode batches :
  _createOptimalBatches cls batchingConfig texts translateMode = Some batches ->
  concat batches = texts.
Proof.
  unfold _createOptimalBatches. intros H.
  assert (Hrest :
    match default (preferredBatchStrategy cls) (cfg_strategy batchingConfig) with
    | Smart =>
        Some (_createSmartBatches texts
                (or_nat (cfg_optimalSize batchingConfig) (optimalBatchSize cls))
                (or_Z (cfg_maxComplexity batchingConfig) (maxComplexity cls)))
    | Single => Some [texts]
    | _ => _createFixedBatches texts
             (or_nat (cfg_optimalSize batchingConfig) (optimalBatchSize cls))
    end = Some batches -> concat batches = texts).
  { destruct (default _ _); intros H'.
    - inversion H'. apply smart_concat.
    - inversion H'. simpl. apply app_nil_r.
    - eapply fixed_batches_concat. exact H'.
    - eapply fixed_batches_concat. exact H'. }
  destruct translateMode, (cfg_maxBatchSizeChars batchingConfig); auto.
  inversion H. apply char_concat.
Qed.

Lemma optimal_batches_never_end_iff_witness :
  _createOptimalBatches unsized_class unsized_config ["a"] OtherMode = None.
Proof.
  apply (optimal_batches_never_end_iff unsized_class unsized_config ["a"]
           OtherMode).
  split; [left; reflexivity|]. split; [reflexivity|]. split; [reflexivity|].
  split; [discriminate|]. split; [intros [H _]; discriminate|].
  intros fuel. apply fixed_loop_zero_size. discriminate.
Defined.

(** ** More about the reading of the answer *)

(** X6: the ids put the answer back in order: when the parsed answer holds the
    items of the translations numbered as in the prompt, in any order,
    [_parseBatchResult] returns the translations in the order of the
    batch. *)
Theorem parse_restores_id_order json result translations originalBatch parsed :
  json result = Some (ObjectArray parsed) ->
  parsed ≡ₚ jsonInput translations ->
  translations <> [] ->
  _parseBatchResult json result (length translations) originalBatch
  = translations.
Proof.
  intros Hjson Hperm Hne. unfold _parseBatchResult. rewrite Hjson.
  assert (Hlen : length parsed = length translations).
  { rewrite Hperm. unfold jsonInput. apply length_imap. }
  destruct parsed as [|x parsed].
  { destruct translations; [contradiction|discriminate]. }
  rewrite Hlen, Nat.eqb_refl.
  rewrite (sort_by_id_numbered _ _ Hperm). apply jsonInput_texts.
Qed.

Lemma parse_restores_id_order_witness :
  _parseBatchResult script_json "ok" (length ["A"; "B"]) ["a"; "b"] = ["A"; "B"].
Proof.
  apply (parse_restores_id_order script_json "ok" ["A"; "B"] ["a"; "b"]
           [ {| item_id := 1; item_text := "B" |};
             {| item_id := 0; item_text := "A" |} ]).
  - reflexivity.
  - apply perm_swap.
  - discriminate.
Defined.

(** X7: [_parseBatchResult] returns as many texts as it was asked for, whatever
    the answer holds, with one exception: an answer that parses to an array
    of one string is returned as that one string. *)
Theorem parse_result_count json result expectedCount originalBatch :
  length originalBatch = expectedCount ->
  (forall s, json result <> Some (StringArray [s])) ->
  length (_parseBatchResult json result expectedCount originalBatch)
  = expectedCount.
Proof.
  intros Hlen Hone.
  destruct (json result) as [[[|x parsed]|[|s [|s' l]]]|] eqn:Hjson;
    try (unfold _parseBatchResult; rewrite Hjson;
         apply fallbackParsing_length; exact Hlen).
  - eapply parse_objects_length; [exact Hjson|discriminate|exact Hlen].
  - exfalso. apply (Hone s). reflexivity.
Qed.

Lemma parse_result_count_witness :
  length (_parseBatchResult script_json "ok" 3 ["a"; "b"; "c"]) = 3.
Proof.
  apply (parse_result_count script_json "ok" 3 ["a"; "b"; "c"]).
  - reflexivity.
  - intros s. discriminate.
Defined.

(** The exception: a one-string array for a batch of two. *)
Example one_string_answer :
  _parseBatchResult (fun _ => Some (StringArray ["A"])) "x" 2 ["a"; "b"] = ["A"].
Proof. reflexivity. Qed.

(** ** More about the coordinator *)

Section CoordinatorResults.

Context {World : Type}.
Variable translateSingle : string -> World -> (string + error) * World.
Variable aborted : World -> bool.
Variable isCancelled : World -> bool.
Variable hasSender : World -> bool.
Variable deliver : message -> World -> World.
Variable wait : World -> World.
Variable json : string -> option json_array.
Variable _buildBatchPrompt : batch -> string.
Variable jsonBatchStrategy : bool.
Variable timer : World -> batch -> option timeout.

Local Abbreviation request' := (request translateSingle).
Local Abbreviation send' := (send hasSender deliver).
Local Abbreviation round :=
  (batch_round translateSingle aborted hasSender deliver wait json
               _buildBatchPrompt jsonBatchStrategy timer).
Local Abbreviation loop :=
  (stream_loop translateSingle aborted isCancelled hasSender deliver wait json
               _buildBatchPrompt jsonBatchStrategy timer).
Local Abbreviation traditional :=
  (traditional_loop translateSingle aborted isCancelled).

Lemma attempt_event_quiet n ev : attempt_event n ev -> quiet ev.
Proof.
  destruct ev as [i b|text|[]]; simpl; try contradiction;
    intros _; split; auto.
Qed.

Lemma attempt_events_quiet n l : Forall (attempt_event n) l -> Forall quiet l.
Proof. intros H. eapply Forall_impl; [exact H|apply attempt_event_quiet]. Qed.

Lemma omap_quiet (l : list event) : Forall quiet l -> omap dispatched l = [].
Proof.
  induction 1 as [|ev l [Hev _] _ IH]; [reflexivity|].
  simpl. rewrite Hev. exact IH.
Qed.

Lemma quiet_not_stream_end l :
  Forall quiet l -> Forall (fun ev => ~ is_stream_end ev) l.
Proof. intros H. eapply Forall_impl; [exact H|]. intros ev [_ Hev]. exact Hev. Qed.

(** One round of the streaming loop, after the two cancellation tests: the
    dispatch, events with no dispatch and no end of the stream, then, when
    the round throws, the end of the stream and what the attempt still
    sends behind it when the timer has fired. *)
Lemma round_cases batchIndex b s o s' :
  round batchIndex b s = (o, s') ->
  exists new tail late,
    s'.2 = s.2 ++ Execute batchIndex b :: new ++ tail ++ late
    /\ Forall quiet new
    /\ Forall inside_batch late
    /\ ((exists r, o = Return r /\ length r = length b /\ tail = [] /\ late = [])
        \/ (exists e, o = Throw e
                     /\ (tail = [] \/ tail = [Send (StreamEnd true)])
                     /\ (timer s.1 b = None -> late = []))).
Proof.
  intros H.
  apply round_runs in H
    as (inside & Hinside
        & [(r & sent & -> & Hlen & E & Hsent)
          | (e & failed & between & ended & late & -> & E & Hf & He & Hb & Hl
             & Htimer & _)]).
  - exists (inside ++ sent), [], []. rewrite !app_nil_r.
    split; [exact E|]. split; [|split; [constructor|left; eauto]].
    apply Forall_app. split; [eapply attempt_events_quiet; exact Hinside|].
    destruct Hsent as [-> | ->]; repeat constructor; simpl; tauto.
  - exists (inside ++ failed ++ between), ended, late.
    split; [rewrite E, <- !app_assoc; reflexivity|].
    split; [|split].
    + rewrite !Forall_app. split; [eapply attempt_events_quiet; exact Hinside|].
      split; [|eapply attempt_events_quiet; exact Hb].
      destruct Hf as [-> | ->]; repeat constructor; simpl; tauto.
    + eapply Forall_impl; [exact Hl|]. apply attempt_event_inside.
    + right. exists e. split; [reflexivity|]. split; [exact He|].
      intros Hnone. apply (Htimer Hnone).
Qed.

Lemma inside_batch_quiet ev : inside_batch ev -> quiet ev.
Proof.
  destruct ev as [i b|text|[]]; simpl; try contradiction;
    intros _; split; auto.
Qed.

Lemma loop_runs batches : forall batchIndex allResults s o s',
  loop batches batchIndex allResults s = (o, s') ->
  exists n pre tail late,
    s'.2 = s.2 ++ pre ++ tail ++ late
    /\ n <= length batches
    /\ omap dispatched pre = zip (seq batchIndex n) (take n batches)
    /\ Forall (fun ev => ~ is_stream_end ev) pre
    /\ Forall inside_batch late
    /\ ((exists r, o = Return r /\ n = length batches /\ tail = [] /\ late = []
                   /\ length r = length allResults + length (concat batches))
        \/ (exists e, o = Throw e
                     /\ (tail = [] \/ tail = [Send (StreamEnd true)])
                     /\ ((forall w b, timer w b = None) -> late = []))).
Proof.
  induction batches as [|b rest IH]; intros batchIndex allResults s o s' H.
  - inversion H; subst. exists 0, [], [], []. rewrite !app_nil_r.
    repeat split; auto. left. exists allResults. simpl. repeat split; auto.
  - cbn [stream_loop] in H. rewrite observe_bind in H.
    destruct (aborted s.1).
    { inversion H; subst. exists 0, [], [], []. rewrite !app_nil_r.
      repeat split; simpl; auto; try lia. right. eauto 10. }
    rewrite observe_bind in H.
    destruct (isCancelled s.1).
    { inversion H; subst. exists 0, [], [], []. rewrite !app_nil_r.
      repeat split; simpl; auto; try lia. right. eauto 10. }
    apply bind_cases in H as [(r1 & s1 & Hround & H) | (e & Hround & ->)].
    + apply round_cases in Hround
        as (new & tail0 & late0 & E1 & Hnew & _
            & [(r & [= <-] & Hlen & -> & ->) | (e & ? & _)]);
        [|discriminate].
      apply IH in H as (n & pre & tail & late & E & Hn & Hd & Hpre & Hlate & Ho).
      exists (S n), (Execute batchIndex b :: new ++ pre), tail, late.
      rewrite E, E1, !app_nil_r. split.
      { rewrite <- !app_assoc. cbn [app]. rewrite <- !app_assoc. reflexivity. }
      split; [simpl; lia|]. split.
      { cbn [seq take zip zip_with].
        change (omap dispatched (Execute batchIndex b :: new ++ pre))
          with ((batchIndex, b) :: omap dispatched (new ++ pre)).
        rewrite omap_app, (omap_quiet new Hnew). cbn [app]. rewrite Hd.
        reflexivity. }
      split.
      { apply Forall_cons. split; [simpl; tauto|]. apply Forall_app. split.
        - apply quiet_not_stream_end, Hnew.
        - exact Hpre. }
      split; [exact Hlate|].
      destruct Ho as [(r & -> & -> & -> & -> & Hr) | (e & -> & Ht)].
      * left. exists r. repeat split; auto.
        rewrite Hr, length_app. simpl. rewrite length_app. lia.
      * right. eauto.
    + apply round_cases in Hround
        as (new & tail0 & late0 & E1 & Hnew & Hlate
            & [(r & ? & _) | (e' & _ & Ht & Htimer)]);
        [discriminate|].
      exists 1, (Execute batchIndex b :: new), tail0, late0.
      rewrite E1. split; [reflexivity|].
      split; [simpl; lia|]. split.
      { change (omap dispatched (Execute batchIndex b :: new))
          with ((batchIndex, b) :: omap dispatched new).
        rewrite (omap_quiet new Hnew). destruct rest; reflexivity. }
      split.
      { apply Forall_cons. split; [simpl; tauto|].
        apply quiet_not_stream_end, Hnew. }
      split; [exact Hlate|].
      right. exists e. split; [reflexivity|]. split; [exact Ht|].
      intros Hnone. apply Htimer, Hnone.
Qed.
Lemma traditional_runs texts : forall results s o s',
  traditional texts results s = (o, s') ->
  exists n,
    n <= length texts
    /\ s'.2 = s.2 ++ map Request (take n texts)
    /\ ((exists new, o = Return (results ++ new) /\ n = length texts
                     /\ Forall2 answered texts new)
        \/ (exists e, o = Throw e)).
Proof.
  induction texts as [|text rest IH]; intros results s o s' H.
  - inversion H; subst. exists 0. simpl. rewrite app_nil_r.
    repeat split; auto. left. exists []. rewrite app_nil_r.
    repeat split; auto.
  - cbn [traditional_loop] in H. rewrite observe_bind in H.
    destruct (aborted s.1).
    { inversion H; subst. exists 0. simpl. rewrite app_nil_r.
      repeat split; auto; try lia. right. eauto. }
    rewrite observe_bind in H.
    destruct (isCancelled s.1).
    { inversion H; subst. exists 0. simpl. rewrite app_nil_r.
      repeat split; auto; try lia. right. eauto. }
    apply bind_cases in H as [(result & s1 & Hreq & H) | (e & Hreq & ->)].
    + apply try_catch_cases in Hreq as [(a & Hreq & _) | (e & s0 & _ & ?)];
        [|discriminate].
      apply request_events in Hreq.
      apply IH in H as (n & Hn & E & Ho).
      exists (S n). split; [simpl; lia|]. split.
      { rewrite E, Hreq, <- app_assoc. reflexivity. }
      destruct Ho as [(new & -> & -> & Hnew) | (e & ->)]; [left|right; eauto].
      exists (or_string result text :: new). rewrite <- app_assoc.
      repeat split; auto. constructor; [apply or_string_answered|exact Hnew].
    + apply try_catch_cases in Hreq as [(a & _ & ?) | (e' & s0 & Hreq & Hh)];
        [discriminate|].
      inversion Hh; subst. apply request_events in Hreq.
      exists 1. split; [simpl; lia|]. split.
      { rewrite Hreq. destruct rest; reflexivity. }
      right. eauto.
Qed.

(** X8: a batch attempt that returns gives one result for each text of the
    batch, whether the answer came from the single request, from the parsed
    answer to the batch prompt or from the item-by-item fallback. *)
Theorem translate_batch_keeps_count b s r s' :
  _translateBatch translateSingle aborted hasSender deliver wait json
                  _buildBatchPrompt jsonBatchStrategy b s = (Return r, s') ->
  length r = length b.
Proof. apply translateBatch_length. Qed.

(** X9: [_fallbackSingleRequests], when it returns, answers every item of the
    batch in order, and an item is left empty only when its text is. *)
Theorem fallback_answers_every_item b s r s' :
  _fallbackSingleRequests translateSingle aborted hasSender deliver wait b s
  = (Return r, s') ->
  Forall2 answered b r.
Proof.
  intros H. apply fallback_results in H as (new & -> & Hnew). exact Hnew.
Qed.

(** X10: [_traditionalBatchTranslate] asks for the texts one by one in their
    order and stops at the first request that fails or at a cancellation:
    the requests of a run are those of the first [n] texts; a run that
    returns has asked for all of them and answers each text, leaving a
    result empty only where the text is. *)
Theorem sequential_requests_in_order texts s o s' :
  _traditionalBatchTranslate translateSingle aborted isCancelled texts s
  = (o, s') ->
  exists n,
    n <= length texts
    /\ s'.2 = s.2 ++ map Request (take n texts)
    /\ ((exists r, o = Return r /\ n = length texts /\ Forall2 answered texts r)
        \/ (exists e, o = Throw e)).
Proof.
  intros H. apply traditional_runs in H as (n & Hn & E & Ho).
  exists n. split; [exact Hn|]. split; [exact E|]. exact Ho.
Qed.

(** X11: the batches of a streaming run are handed to the rate limiter in the
    order of the plan, numbered from 0, each one once: the dispatches of a
    run are those of the first [n] planned batches, and of all of them when
    the run returns. *)
Theorem dispatch_in_plan_order cls batchingConfig texts translateMode
    batches run s o s' :
  _createOptimalBatches cls batchingConfig texts translateMode = Some batches ->
  _streamingBatchTranslate translateSingle aborted isCancelled hasSender deliver
    wait json _buildBatchPrompt jsonBatchStrategy timer cls batchingConfig texts
    translateMode = Some run ->
  run s = (o, s') ->
  exists n new,
    s'.2 = s.2 ++ new
    /\ n <= length batches
    /\ omap dispatched new = zip (seq 0 n) (take n batches)
    /\ (forall r, o = Return r -> n = length batches).
Proof.
  intros Hplan Hrun H. unfold _streamingBatchTranslate in Hrun.
  rewrite Hplan in Hrun. inversion Hrun; subst run; clear Hrun.
  apply bind_cases in H as [(r & s1 & Hloop & H) | (e & Hloop & ->)].
  - apply loop_runs in Hloop as (n & pre & tail & late & E & Hn & Hd & _ & _ & Ho).
    destruct Ho as [(r' & [= <-] & -> & -> & -> & _) | (e & ? & _)];
      [|discriminate].
    rewrite !app_nil_r in E.
    apply bind_cases in H as [(u & s2 & Hsend & H) | (e & Hsend & _)];
      [|apply send_events in Hsend as [? _]; discriminate].
    inversion H; subst; clear H.
    apply send_events in Hsend as [_ [E2|E2]].
    + exists (length batches), pre. rewrite E2. auto.
    + exists (length batches), (pre ++ [Send (StreamEnd false)]).
      rewrite E2, E, <- app_assoc. repeat split; auto.
      rewrite omap_app, Hd. simpl. apply app_nil_r.
  - apply loop_runs in Hloop
      as (n & pre & tail & late & E & Hn & Hd & _ & Hlate & Ho).
    destruct Ho as [(r' & ? & _) | (e' & _ & Ht & _)]; [discriminate|].
    exists n, (pre ++ tail ++ late). split; [exact E|]. split; [exact Hn|].
    split; [|intros r' ?; discriminate].
    rewrite !omap_app, Hd, (omap_quiet late).
    + destruct Ht as [-> | ->]; simpl; apply app_nil_r.
    + eapply Forall_impl; [exact Hlate|apply inside_batch_quiet].
Qed.

(** X12: the end of the stream is sent at most once in a run; it carries
    the error flag only in a run that throws and the success flag only in
    a run that returns.  A run may send none: a cancellation seen at the
    head of a round, a sender that is not known.  Behind it come at most
    requests and updates of fallback items, those of an attempt whose timer
    has fired and that nothing stops: nothing follows it in a run that
    returns, and nothing when no timer fires. *)
Theorem stream_end_sent_once cls batchingConfig texts translateMode run s o s' :
  _streamingBatchTranslate translateSingle aborted isCancelled hasSender deliver
    wait json _buildBatchPrompt jsonBatchStrategy timer cls batchingConfig texts
    translateMode = Some run ->
  run s = (o, s') ->
  exists pre tail late,
    s'.2 = s.2 ++ pre ++ tail ++ late
    /\ Forall (fun ev => ~ is_stream_end ev) pre
    /\ (tail = []
        \/ (tail = [Send (StreamEnd true)] /\ exists e, o = Throw e)
        \/ (tail = [Send (StreamEnd false)] /\ exists r, o = Return r))
    /\ Forall inside_batch late
    /\ ((exists r, o = Return r) -> late = [])
    /\ ((forall w b, timer w b = None) -> late = []).
Proof.
  intros Hrun H. unfold _streamingBatchTranslate in Hrun.
  destruct (_createOptimalBatches cls batchingConfig texts translateMode)
    as [batches|]; [|discriminate].
  inversion Hrun; subst run; clear Hrun.
  apply bind_cases in H as [(r & s1 & Hloop & H) | (e & Hloop & ->)].
  - apply loop_runs in Hloop as (n & pre & tail & late & E & _ & _ & Hpre & _ & Ho).
    destruct Ho as [(r' & [= <-] & _ & -> & -> & _) | (e & ? & _)];
      [|discriminate].
    rewrite !app_nil_r in E.
    apply bind_cases in H as [(u & s2 & Hsend & H) | (e & Hsend & _)];
      [|apply send_events in Hsend as [? _]; discriminate].
    inversion H; subst; clear H.
    apply send_events in Hsend as [_ [E2|E2]].
    + exists pre, [], []. rewrite E2, E, !app_nil_r.
      repeat split; auto.
    + exists pre, [Send (StreamEnd false)], [].
      rewrite E2, E, app_nil_r, <- app_assoc.
      split; [reflexivity|]. split; [exact Hpre|].
      split; [right; right; eauto|]. repeat split; auto.
  - apply loop_runs in Hloop
      as (n & pre & tail & late & E & _ & _ & Hpre & Hlate & Ho).
    destruct Ho as [(r' & ? & _) | (e' & [= <-] & Ht & Htimer)]; [discriminate|].
    exists pre, tail, late.
    split; [exact E|]. split; [exact Hpre|]. split.
    { destruct Ht as [-> | ->]; [left; reflexivity|]. right. left. eauto. }
    split; [exact Hlate|]. split; [|exact Htimer].
    intros [r' ?]. discriminate.
Qed.

(** X13: whichever way [_batchTranslate] goes, by the streaming loop or by one
    request for each text, a call that returns gives one result for each
    text. *)
Theorem batch_translate_keeps_count supportsStreaming messageId engine cls
    batchingConfig texts translateMode run s r s' :
  _batchTranslate translateSingle aborted isCancelled hasSender deliver wait
    json _buildBatchPrompt jsonBatchStrategy timer supportsStreaming messageId
    engine cls batchingConfig texts translateMode = Some run ->
  run s = (Return r, s') ->
  length r = length texts.
Proof.
  unfold _batchTranslate. intros Hrun H.
  destruct (supportsStreaming && _shouldUseStreaming _ _ _ _).
  - unfold _streamingBatchTranslate in Hrun.
    destruct (_createOptimalBatches cls batchingConfig texts translateMode)
      as [batches|] eqn:Hplan; [|discriminate].
    inversion Hrun; subst run; clear Hrun.
    apply bind_cases in H as [(r1 & s1 & Hloop & H) | (e & _ & ?)];
      [|discriminate].
    apply loop_runs in Hloop as (n & pre & tail & late & _ & _ & _ & _ & _ & Ho).
    destruct Ho as [(r' & [= <-] & _ & _ & _ & Hlen) | (e & ? & _)];
      [|discriminate].
    apply bind_cases in H as [(u & s2 & _ & H) | (e & _ & ?)]; [|discriminate].
    inversion H; subst. rewrite Hlen.
    rewrite (optimal_batches_concat _ _ _ _ _ Hplan). reflexivity.
  - inversion Hrun; subst run; clear Hrun.
    apply traditional_runs in H as (n & _ & _ & [(new & [= ->] & _ & Hnew) | (e & ?)]);
      [|discriminate].
    apply Forall2_length in Hnew. simpl. lia.
Qed.

Lemma round_event_same_count batchIndex b ev :
  round_event batchIndex b ev -> same_count ev.
Proof.
  destruct ev as [i c|text|[i d o|i d o|i e|err]]; simpl; auto.
  - intros (_ & Hd & ->). exact Hd.
  - intros (_ & Hd & Ho). congruence.
Qed.

Lemma loop_same_count batches : forall batchIndex allResults,
  appends same_count (loop batches batchIndex allResults).
Proof.
  induction batches as [|b rest IH]; intros batchIndex allResults;
    cbn [stream_loop].
  - apply appends_ret.
  - apply appends_bind; [apply appends_observe|]. intros [|];
      [apply appends_throw|].
    apply appends_bind; [apply appends_observe|]. intros [|];
      [apply appends_throw|].
    apply appends_bind; [|intros r; apply IH].
    apply round_appends; [exact I|]. apply round_event_same_count.
Qed.

(** X14: every update of a streaming run carries as many translations as source
    texts, the updates of the item-by-item fallback included, whether the
    run returns or throws. *)
Theorem updates_pair_translations cls batchingConfig texts translateMode
    run s o s' :
  _streamingBatchTranslate translateSingle aborted isCancelled hasSender deliver
    wait json _buildBatchPrompt jsonBatchStrategy timer cls batchingConfig texts
    translateMode = Some run ->
  run s = (o, s') ->
  exists new, s'.2 = s.2 ++ new /\ Forall same_count new.
Proof.
  intros Hrun. unfold _streamingBatchTranslate in Hrun.
  destruct (_createOptimalBatches cls batchingConfig texts translateMode)
    as [batches|]; [|discriminate].
  inversion Hrun; subst run; clear Hrun.
  revert s o s'. change (appends same_count
    (allResults ← loop batches 0 [];
     send' (StreamEnd false);; mret allResults)).
  apply appends_bind; [apply loop_same_count|]. intros r.
  apply appends_bind; [apply appends_send; exact I|]. intros _.
  apply appends_ret.
Qed.

End CoordinatorResults.

Lemma translate_batch_keeps_count_witness :
  _translateBatch script_translate (fun _ => false) (fun _ => true)
    (fun _ w => w) (fun w => w) script_json (fun _ => "prompt") true
    ["a"; "b"] (0, [])
  = (Return ["A"; "B"], (1, [Request "prompt"]))
  /\ length ["A"; "B"] = length ["a"; "b"].
Proof.
  split; [reflexivity|].
  apply translate_batch_keeps_count
    with (translateSingle := script_translate) (aborted := fun _ : nat => false)
         (hasSender := fun _ : nat => true) (deliver := fun _ (w : nat) => w)
         (wait := fun w : nat => w) (json := script_json)
         (_buildBatchPrompt := fun _ => "prompt") (jsonBatchStrategy := true)
         (s := (0, [])) (s' := (1, [Request "prompt"])).
  reflexivity.
Defined.

Lemma fallback_answers_every_item_witness :
  Forall2 answered ["a"; ""] ["ok"; "ok"].
Proof.
  apply fallback_answers_every_item
    with (translateSingle := steady_translate) (aborted := fun _ : nat => false)
         (hasSender := fun _ : nat => true) (deliver := fun _ (w : nat) => w)
         (wait := fun w : nat => w) (s := (0, []))
         (s' := (2, [Request "a"; Send (FallbackResult 0 ["ok"] ["a"]);
                     Request ""; Send (FallbackResult 1 ["ok"] [""])])).
  reflexivity.
Defined.

(** The second request fails: the third text is never asked for. *)
Lemma sequential_requests_in_order_witness :
  exists n,
    n <= length five_texts
    /\ [Request "a"; Request "b"] = [] ++ map Request (take n five_texts)
    /\ ((exists r, Throw (Failure "timeout") = Return r /\ n = length five_texts
                   /\ Forall2 answered five_texts r)
        \/ (exists e, @Throw (list string) (Failure "timeout") = Throw e)).
Proof.
  apply (sequential_requests_in_order script_translate (fun _ => false)
           (fun _ => false) five_texts (0, []) (Throw (Failure "timeout"))
           (2, [Request "a"; Request "b"])).
  reflexivity.
Defined.

Lemma dispatch_in_plan_order_witness :
  exists n new,
    [ Execute 0 ["a"; "b"]; Request "prompt";
      Send (BatchResults 0 ["A"; "B"] ["a"; "b"]);
      Execute 1 ["c"; "d"]; Request "prompt";
      Send (BatchResults 1 ["A"; "B"] ["c"; "d"]);
      Execute 2 ["e"]; Request "e"; Send (BatchResults 2 ["ok"] ["e"]);
      Send (StreamEnd false) ] = [] ++ new
    /\ n <= 3
    /\ omap dispatched new = zip (seq 0 n) (take n [["a"; "b"]; ["c"; "d"]; ["e"]])
    /\ (forall r, Return ["A"; "B"; "A"; "B"; "ok"] = Return r -> n = 3).
Proof.
  eapply (dispatch_in_plan_order steady_translate (fun _ => false)
            (fun _ => false) (fun _ => true) (fun _ w => w) (fun w => w)
            script_json (fun _ => "prompt") true (fun _ _ => None) BaseAIProvider
            fixed_by_two five_texts OtherMode [["a"; "b"]; ["c"; "d"]; ["e"]] _
            (0, [])
            (Return ["A"; "B"; "A"; "B"; "ok"])
            (3, [ Execute 0 ["a"; "b"]; Request "prompt";
                  Send (BatchResults 0 ["A"; "B"] ["a"; "b"]);
                  Execute 1 ["c"; "d"]; Request "prompt";
                  Send (BatchResults 1 ["A"; "B"] ["c"; "d"]);
                  Execute 2 ["e"]; Request "e";
                  Send (BatchResults 2 ["ok"] ["e"]);
                  Send (StreamEnd false) ])).
  - reflexivity.
  - reflexivity.
  - reflexivity.
Defined.

(** A run whose timer fires in the first round: the end of the stream
    follows the failure of batch 0, and the attempt sends the updates of
    its fallback items behind it. *)
Lemma stream_end_sent_once_witness :
  exists pre tail late,
    [ Execute 0 ["a"; "b"; "c"]; Request "prompt"; Request "a";
      Send (ErrorResults 0 (Failure "Batch timeout"));
      Send (StreamEnd true);
      Send (FallbackResult 0 ["a"] ["a"]);
      Request "b"; Send (FallbackResult 1 ["b"] ["b"]);
      Request "c"; Send (FallbackResult 2 ["c"] ["c"]) ]
    = [] ++ pre ++ tail ++ late
    /\ Forall (fun ev => ~ is_stream_end ev) pre
    /\ (tail = []
        \/ (tail = [Send (StreamEnd true)]
            /\ exists e, @Throw (list string) (Failure "Batch timeout") = Throw e)
        \/ (tail = [Send (StreamEnd false)]
            /\ exists r : list string, Throw (Failure "Batch timeout") = Return r))
    /\ Forall inside_batch late
    /\ ((exists r : list string, Throw (Failure "Batch timeout") = Return r)
        -> late = [])
    /\ ((forall (w : nat) (b : batch), early_timer w b = None) -> late = []).
Proof.
  eapply (stream_end_sent_once (flaky_translate 9) (fun _ => false)
            (fun _ => false) (fun _ => true) (fun _ w => w) (fun w => w)
            (fun _ => None) (fun _ => "prompt") true early_timer BaseAIProvider
            fixed_by_three five_texts OtherMode _ (0, [])
            (Throw (Failure "Batch timeout"))
            (4, [ Execute 0 ["a"; "b"; "c"]; Request "prompt"; Request "a";
                  Send (ErrorResults 0 (Failure "Batch timeout"));
                  Send (StreamEnd true);
                  Send (FallbackResult 0 ["a"] ["a"]);
                  Request "b"; Send (FallbackResult 1 ["b"] ["b"]);
                  Request "c"; Send (FallbackResult 2 ["c"] ["c"]) ])).
  - reflexivity.
  - reflexivity.
Defined.

Lemma batch_translate_keeps_count_witness :
  length ["A"; "B"; "A"; "B"; "ok"] = length five_texts.
Proof.
  eapply (batch_translate_keeps_count steady_translate (fun _ => false)
            (fun _ => false) (fun _ => true) (fun _ w => w) (fun w => w)
            script_json (fun _ => "prompt") true (fun _ _ => None) true true true
            BaseAIProvider fixed_by_two five_texts OtherMode _ (0, [])
            ["A"; "B"; "A"; "B"; "ok"]
            (3, [ Execute 0 ["a"; "b"]; Request "prompt";
                  Send (BatchResults 0 ["A"; "B"] ["a"; "b"]);
                  Execute 1 ["c"; "d"]; Request "prompt";
                  Send (BatchResults 1 ["A"; "B"] ["c"; "d"]);
                  Execute 2 ["e"]; Request "e";
                  Send (BatchResults 2 ["ok"] ["e"]);
                  Send (StreamEnd false) ])).
  - reflexivity.
  - reflexivity.
Defined.

Lemma updates_pair_translations_witness :
  exists new,
    [ Execute 0 ["a"; "b"]; Request "prompt";
      Send (BatchResults 0 ["A"; "B"] ["a"; "b"]);
      Execute 1 ["c"; "d"]; Request "prompt"; Request "c";
      Send (FallbackResult 0 ["C"] ["c"]); Request "d";
      Send (ErrorResults 1 (Failure "quota")); Send (StreamEnd true) ]
    = [] ++ new
    /\ Forall same_count new.
Proof.
  eapply (updates_pair_translations script_translate (fun _ => false)
            (fun _ => false) (fun _ => true) (fun _ w => w) (fun w => w)
            script_json (fun _ => "prompt") true (fun _ _ => None) BaseAIProvider
            fixed_by_two five_texts OtherMode _ (0, []) (Throw (Failure "quota"))
            (4, [ Execute 0 ["a"; "b"]; Request "prompt";
                  Send (BatchResults 0 ["A"; "B"] ["a"; "b"]);
                  Execute 1 ["c"; "d"]; Request "prompt"; Request "c";
                  Send (FallbackResult 0 ["C"] ["c"]); Request "d";
                  Send (ErrorResults 1 (Failure "quota"));
                  Send (StreamEnd true) ])).
  - reflexivity.
  - reflexivity.
Defined.

(** ** The edit distance *)

Lemma length_chars (s : string) : length (JS.chars s) = String.length s.
Proof. induction s as [|c s IH]; simpl; [reflexivity|]. f_equal. exact IH. Qed.

Lemma levenshtein_row_length c2 : forall str1 prev diag left,
  length str1 <= length prev ->
  length (levenshtein_row c2 str1 prev diag left) = length str1.
Proof.
  induction str1 as [|c1 str1 IH]; intros prev diag left H; [reflexivity|].
  destruct prev as [|up prev]; [simpl in H; lia|].
  simpl. f_equal. apply IH. simpl in H. lia.
Qed.

Lemma levenshtein_row_cells c2 i : forall str1 prev diag left j,
  cell_bounds i j diag ->
  cell_bounds (S i) j left ->
  (forall k v, prev !! k = Some v -> cell_bounds i (S j + k) v) ->
  forall k v,
    levenshtein_row c2 str1 prev diag left !! k = Some v ->
    cell_bounds (S i) (S j + k) v.
Proof.
  induction str1 as [|c1 str1 IH]; intros prev diag left j Hd Hl Hp k v H;
    [discriminate|].
  destruct prev as [|up prev]; [discriminate|].
  cbn [levenshtein_row] in H.
  pose proof (Hp 0 up eq_refl) as Hup.
  set (cell := if Ascii.eqb c2 c1 then diag
               else Nat.min (diag + 1) (Nat.min (left + 1) (up + 1))) in *.
  assert (Hcell : cell_bounds (S i) (S j) cell).
  { unfold cell, cell_bounds in *. destruct (Ascii.eqb c2 c1); lia. }
  destruct k as [|k].
  - inversion H; subst v. replace (S j + 0) with (S j) by lia. exact Hcell.
  - replace (S j + S k) with (S (S j) + k) by lia.
    apply (IH prev up cell (S j)); auto.
    + replace (S j) with (S j + 0) by lia. exact Hup.
    + intros k' v' Hk'. replace (S (S j) + k') with (S j + S k') by lia.
      apply Hp. exact Hk'.
Qed.

Lemma levenshtein_rows_cells str1 : forall str2 i prev,
  length prev = S (length str1) ->
  (forall k v, prev !! k = Some v -> cell_bounds i k v) ->
  let row := levenshtein_rows str2 str1 (S i) prev in
  length row = S (length str1)
  /\ forall k v, row !! k = Some v -> cell_bounds (i + length str2) k v.
Proof.
  induction str2 as [|c2 str2 IH]; intros i prev Hlen Hprev.
  - simpl. rewrite Nat.add_0_r. auto.
  - cbn [levenshtein_rows]. destruct prev as [|first prev]; [discriminate|].
    replace (i + length (c2 :: str2)) with (S i + length str2) by (simpl; lia).
    apply IH.
    + simpl. rewrite levenshtein_row_length; [reflexivity|]. simpl in Hlen. lia.
    + intros [|k] v H.
      * inversion H; subst v. unfold cell_bounds. lia.
      * change (levenshtein_row c2 str1 prev first (S i) !! k = Some v) in H.
        change (S k) with (1 + k).
        assert (H1 : cell_bounds i 0 first) by (apply (Hprev 0); reflexivity).
        assert (H2 : cell_bounds (S i) 0 (S i)) by (unfold cell_bounds; lia).
        assert (H3 : forall k' v', prev !! k' = Some v' ->
                                   cell_bounds i (1 + k') v').
        { intros k' v' Hk'. apply (Hprev (S k')). exact Hk'. }
        exact (levenshtein_row_cells c2 i str1 prev first (S i) 0 H1 H2 H3 k v H).
Qed.

Lemma last_lookup_length (l : list nat) n v d :
  length l = S n -> l !! n = Some v -> List.last l d = v.
Proof.
  destruct l as [|x l] using rev_ind; [discriminate|].
  rewrite length_app. simpl. intros Hlen H.
  assert (n = length l) by lia. subst n.
  rewrite list_lookup_middle in H by reflexivity.
  inversion H; subst. apply List.last_last.
Qed.

Lemma seq_cells n k v : seq 0 n !! k = Some v -> v = k.
Proof. intros H. apply lookup_seq in H. lia. Qed.

(** X15: the edit distance lies between the difference of the two lengths and
    the greater of them, so that the similarity [1 - distance / maxLength]
    of the fallback match is between 0 and 1. *)
Theorem levenshtein_bounds (str1 str2 : string) :
  let distance := _calculateLevenshteinDistance str1 str2 in
  String.length str1 - String.length str2 <= distance
  /\ String.length str2 - String.length str1 <= distance
  /\ distance <= Nat.max (String.length str1) (String.length str2).
Proof.
  unfold _calculateLevenshteinDistance.
  destruct (levenshtein_rows_cells (JS.chars str1) (JS.chars str2) 0
              (seq 0 (S (String.length str1)))) as [Hlen Hcells].
  - rewrite length_seq, length_chars. reflexivity.
  - intros k v H. apply seq_cells in H. subst v. unfold cell_bounds. lia.
  - set (row := levenshtein_rows _ _ _ _) in *.
    destruct (lookup_lt_is_Some_2 row (length (JS.chars str1))) as [v Hv];
      [lia|].
    rewrite (last_lookup_length row _ v 0 Hlen Hv).
    apply Hcells in Hv. unfold cell_bounds in Hv.
    rewrite !length_chars in Hv. cbn zeta. lia.
Qed.

Lemma levenshtein_row_diagonal c2 : forall str1 prev diag left k d,
  str1 !! k = Some c2 ->
  (diag :: prev) !! k = Some d ->
  length str1 <= length prev ->
  levenshtein_row c2 str1 prev diag left !! k = Some d.
Proof.
  induction str1 as [|c1 str1 IH]; intros prev diag left k d Hc Hd Hlen;
    [discriminate|].
  destruct prev as [|up prev]; [simpl in Hlen; lia|].
  cbn [levenshtein_row]. destruct k as [|k].
  - inversion Hc; subst c1. inversion Hd; subst d.
    rewrite Ascii.eqb_refl. reflexivity.
  - apply IH; auto. simpl in Hlen. lia.
Qed.

Lemma levenshtein_rows_diagonal str : forall (rest pre : list ascii) prev,
  str = pre ++ rest ->
  length prev = S (length str) ->
  prev !! length pre = Some 0 ->
  List.last (levenshtein_rows rest str (S (length pre)) prev) 0 = 0.
Proof.
  induction rest as [|c rest IH]; intros pre prev Hs Hlen H0.
  - simpl. rewrite app_nil_r in Hs. subst pre.
    apply (last_lookup_length prev (length str)); auto.
  - cbn [levenshtein_rows]. destruct prev as [|first prev]; [discriminate|].
    specialize (IH (pre ++ [c])). rewrite length_app in IH. simpl in IH.
    replace (length pre + 1) with (S (length pre)) in IH by lia.
    apply IH.
    + rewrite <- app_assoc. exact Hs.
    + simpl. rewrite levenshtein_row_length; [reflexivity|]. simpl in Hlen. lia.
    + change ((S (length pre)
               :: levenshtein_row c str prev first (S (length pre)))
              !! S (length pre))
        with (levenshtein_row c str prev first (S (length pre)) !! length pre).
      apply levenshtein_row_diagonal.
      * rewrite Hs. apply list_lookup_middle. reflexivity.
      * exact H0.
      * simpl in Hlen. lia.
Qed.

(** X16: the edit distance of a string to itself is 0. *)
Theorem levenshtein_same (str : string) :
  _calculateLevenshteinDistance str str = 0.
Proof.
  unfold _calculateLevenshteinDistance.
  apply (levenshtein_rows_diagonal (JS.chars str) (JS.chars str) []).
  - reflexivity.
  - rewrite length_seq, length_chars. reflexivity.
  - reflexivity.
Qed.

Example levenshtein_examples :
  _calculateLevenshteinDistance "kitten" "sitting" = 3
  /\ _calculateLevenshteinDistance "" "abc" = 3
  /\ _calculateLevenshteinDistance "abc" "" = 3
  /\ _calculateLevenshteinDistance "flaw" "lawn" = 2.
Proof. repeat split; reflexivity. Qed.

(** ** The data handed to the reassembly *)

Lemma empty_lines_before_S originMapping i :
  empty_lines_before originMapping (S i)
  = empty_lines_before originMapping i
    + (if is_empty_line (originMapping !! i) then 1 else 0).
Proof.
  unfold empty_lines_before.
  destruct (originMapping !! i) as [mappingInfo|] eqn:E.
  - rewrite (take_S_r _ _ _ E), filter_app, length_app. f_equal.
    simpl. rewrite filter_cons, filter_nil.
    destruct (decide (isEmptyLine mappingInfo = true)) as [H|H].
    + rewrite H. reflexivity.
    + destruct (isEmptyLine mappingInfo); [contradiction|reflexivity].
  - apply lookup_ge_None in E. rewrite !take_ge by lia. simpl. lia.
Qed.

Lemma empty_lines_before_mono originMapping i k :
  empty_lines_before originMapping i <= empty_lines_before originMapping (i + k).
Proof.
  induction k as [|k IH]; [rewrite Nat.add_0_r; lia|].
  replace (i + S k) with (S (i + k)) by lia.
  rewrite empty_lines_before_S. lia.
Qed.

Lemma empty_lines_before_le originMapping i :
  empty_lines_before originMapping i <= i.
Proof.
  induction i as [|i IH]; [reflexivity|].
  rewrite empty_lines_before_S. destruct (is_empty_line _); lia.
Qed.

Lemma map_back_loop_lookup originMapping filtered translatedData :
  forall rest i translatedIndex k expandedText,
    rest !! k = Some expandedText ->
    is_empty_line (originMapping !! (i + k)) = false ->
    map_back_loop originMapping filtered translatedData rest i translatedIndex
      !! k
    = Some (default (source_text filtered (i + k) expandedText)
              (answer_text
                 (translatedData
                    !! (translatedIndex + k
                        - (empty_lines_before originMapping (i + k)
                           - empty_lines_before originMapping i))))).
Proof.
  induction rest as [|t rest IH]; intros i ti k expandedText Hk Hline;
    [discriminate|].
  destruct k as [|k].
  - rewrite Nat.add_0_r in *. inversion Hk; subst t.
    cbn [map_back_loop]. rewrite Hline. rewrite Nat.sub_diag, Nat.sub_0_r.
    rewrite Nat.add_0_r. reflexivity.
  - cbn [map_back_loop]. simpl in Hk.
    replace (i + S k) with (S i + k) in * by lia.
    pose proof (empty_lines_before_S originMapping i) as HS.
    pose proof (empty_lines_before_mono originMapping (S i) k) as Hmono.
    destruct (is_empty_line (originMapping !! i)).
    + change ((newline :: ?l) !! S k) with (l !! k).
      rewrite (IH (S i) ti k expandedText Hk Hline). do 4 f_equal. lia.
    + change ((?x :: ?l) !! S k) with (l !! k).
      rewrite (IH (S i) (S ti) k expandedText Hk Hline). do 4 f_equal. lia.
Qed.

Lemma map_back_lookup expandedTexts originMapping filtered translatedData
    k expandedText :
  expandedTexts !! k = Some expandedText ->
  is_empty_line (originMapping !! k) = false ->
  _processNonStreamingSuccess_data expandedTexts originMapping filtered
                                   translatedData !! k
  = Some (default (source_text filtered k expandedText)
            (answer_text
               (translatedData !! (k - empty_lines_before originMapping k)))).
Proof.
  intros Hk Hline. unfold _processNonStreamingSuccess_data.
  rewrite (map_back_loop_lookup _ _ _ _ 0 0 k expandedText Hk Hline).
  cbn [Nat.add]. unfold empty_lines_before at 2. rewrite take_0. simpl.
  rewrite Nat.sub_0_r. reflexivity.
Qed.

(** X17: [_processNonStreamingSuccess] reads the answer by rank: a segment that
    is not an empty line takes the item of the answer whose index is its
    own index less the number of empty lines before it, and its source text
    when that item is missing or empty. *)
Theorem answer_read_by_rank expandedTexts originMapping filtered translatedData
    k expandedText :
  expandedTexts !! k = Some expandedText ->
  is_empty_line (originMapping !! k) = false ->
  _processNonStreamingSuccess_data expandedTexts originMapping filtered
                                   translatedData !! k
  = Some (default (source_text filtered k expandedText)
            (answer_text
               (translatedData !! (k - empty_lines_before originMapping k)))).
Proof. apply map_back_lookup. Qed.

Lemma answer_read_by_rank_witness :
  _processNonStreamingSuccess_data
    ["Hello"; "[[EMPTY_LINE]]"; "World"]
    [ {| originalIndex := 0; isEmptyLine := false |};
      {| originalIndex := 0; isEmptyLine := true |};
      {| originalIndex := 0; isEmptyLine := false |} ]
    (Some ["Hello"; ""; "World"]) bonjour_monde !! 2
  = Some (default (source_text (Some ["Hello"; ""; "World"]) 2 "World")
                  (answer_text (bonjour_monde !! 1))).
Proof.
  apply (answer_read_by_rank ["Hello"; "[[EMPTY_LINE]]"; "World"]
           [ {| originalIndex := 0; isEmptyLine := false |};
             {| originalIndex := 0; isEmptyLine := true |};
             {| originalIndex := 0; isEmptyLine := false |} ]
           (Some ["Hello"; ""; "World"]) bonjour_monde 2 "World").
  - reflexivity.
  - reflexivity.
Defined.

(** The payload of "Hello", an empty line and "World" has three items
    ([payload_of_hello_world]); of an answer with three items the third is
    never read, and "World" stays as it is. *)
Example world_stays_untranslated :
  _processNonStreamingSuccess_data
    ["Hello"; "[[EMPTY_LINE]]"; "World"]
    [ {| originalIndex := 0; isEmptyLine := false |};
      {| originalIndex := 0; isEmptyLine := true |};
      {| originalIndex := 0; isEmptyLine := false |} ]
    (Some ["Hello"; ""; "World"]) bonjour_monde
  = ["Bonjour"; newline; "World"].
Proof. reflexivity. Qed.

Lemma map_back_loop_length originMapping filtered translatedData :
  forall rest i translatedIndex,
    length (map_back_loop originMapping filtered translatedData rest i
                          translatedIndex)
    = length rest.
Proof.
  induction rest as [|t rest IH]; intros i ti; [reflexivity|].
  cbn [map_back_loop]. destruct (is_empty_line _); simpl; rewrite IH; reflexivity.
Qed.

Lemma map_back_loop_empty_line originMapping filtered translatedData :
  forall rest i translatedIndex k expandedText,
    rest !! k = Some expandedText ->
    is_empty_line (originMapping !! (i + k)) = true ->
    map_back_loop originMapping filtered translatedData rest i translatedIndex
      !! k
    = Some newline.
Proof.
  induction rest as [|t rest IH]; intros i ti k expandedText Hk Hline;
    [discriminate|].
  destruct k as [|k].
  - rewrite Nat.add_0_r in Hline. cbn [map_back_loop]. rewrite Hline.
    reflexivity.
  - cbn [map_back_loop]. simpl in Hk.
    replace (i + S k) with (S i + k) in Hline by lia.
    destruct (is_empty_line (originMapping !! i));
      change ((?x :: ?l) !! S k) with (l !! k); eapply IH; eauto.
Qed.

Lemma empty_lines_before_step originMapping i d :
  empty_lines_before originMapping (i + d)
  <= empty_lines_before originMapping i + d.
Proof.
  induction d as [|d IH]; [rewrite Nat.add_0_r; lia|].
  replace (i + S d) with (S (i + d)) by lia.
  rewrite empty_lines_before_S. destruct (is_empty_line _); lia.
Qed.

(** X18: the answer is read up to the number of segments that are not empty
    lines and no further: two answers that agree on that many items give
    the same data, so that of an answer with one item for each item of the
    payload the last ones, as many as there are empty lines, are never
    read. *)
Theorem answer_read_up_to_rank expandedTexts originMapping filtered
    translatedData translatedData' :
  let read :=
    length expandedTexts
    - empty_lines_before originMapping (length expandedTexts) in
  take read translatedData = take read translatedData' ->
  _processNonStreamingSuccess_data expandedTexts originMapping filtered
                                   translatedData
  = _processNonStreamingSuccess_data expandedTexts originMapping filtered
                                     translatedData'.
Proof.
  intros read Hread. apply list_eq. intros k.
  destruct (expandedTexts !! k) as [expandedText|] eqn:Hk.
  - destruct (is_empty_line (originMapping !! k)) eqn:Hline.
    + unfold _processNonStreamingSuccess_data.
      rewrite !(map_back_loop_empty_line _ _ _ _ 0 0 k expandedText Hk Hline).
      reflexivity.
    + rewrite !(map_back_lookup _ _ _ _ k expandedText Hk Hline).
      assert (Hrank : k - empty_lines_before originMapping k < read).
      { apply lookup_lt_Some in Hk. unfold read.
        pose proof (empty_lines_before_S originMapping k) as HS.
        rewrite Hline in HS.
        pose proof (empty_lines_before_step originMapping (S k)
                      (length expandedTexts - S k)) as Hstep.
        replace (S k + (length expandedTexts - S k))
          with (length expandedTexts) in Hstep by lia.
        pose proof (empty_lines_before_le originMapping k). lia. }
      assert (Hsame : translatedData !! (k - empty_lines_before originMapping k)
                      = translatedData'
                          !! (k - empty_lines_before originMapping k)).
      { rewrite <- (lookup_take_lt translatedData read _ Hrank).
        rewrite <- (lookup_take_lt translatedData' read _ Hrank).
        rewrite Hread. reflexivity. }
      rewrite Hsame. reflexivity.
  - apply lookup_ge_None in Hk. unfold _processNonStreamingSuccess_data.
    rewrite !(proj2 (lookup_ge_None _ _));
      [reflexivity|rewrite map_back_loop_length; exact Hk..].
Qed.

Lemma answer_read_up_to_rank_witness :
  _processNonStreamingSuccess_data
    ["Hello"; "[[EMPTY_LINE]]"; "World"]
    [ {| originalIndex := 0; isEmptyLine := false |};
      {| originalIndex := 0; isEmptyLine := true |};
      {| originalIndex := 0; isEmptyLine := false |} ]
    (Some ["Hello"; ""; "World"]) bonjour_monde
  = _processNonStreamingSuccess_data
      ["Hello"; "[[EMPTY_LINE]]"; "World"]
      [ {| originalIndex := 0; isEmptyLine := false |};
        {| originalIndex := 0; isEmptyLine := true |};
        {| originalIndex := 0; isEmptyLine := false |} ]
      (Some ["Hello"; ""; "World"])
      [ AnswerObject (Some "Bonjour"); AnswerObject (Some "") ].
Proof.
  apply (answer_read_up_to_rank ["Hello"; "[[EMPTY_LINE]]"; "World"]
           [ {| originalIndex := 0; isEmptyLine := false |};
             {| originalIndex := 0; isEmptyLine := true |};
             {| originalIndex := 0; isEmptyLine := false |} ]
           (Some ["Hello"; ""; "World"]) bonjour_monde
           [ AnswerObject (Some "Bonjour"); AnswerObject (Some "") ]).
  reflexivity.
Defined.

(** ** The payload *)

(** X19: the payload of [processSelectedElement] holds one item for each
    expanded segment, in order, a lone segment included; there is none only
    when there is no text. *)
Theorem payload_one_item_per_segment
    (expandTextsForTranslation : list string -> list string * list origin)
    (textsToTranslate : list string) :
  textsToTranslate <> [] ->
  exists payload,
    processSelectedElement_payload expandTextsForTranslation textsToTranslate
    = Some payload
    /\ map text payload
       = filterExpandedTexts (expandTextsForTranslation textsToTranslate).1.
Proof.
  intros Hne. unfold processSelectedElement_payload.
  destruct textsToTranslate as [|t texts]; [contradiction|].
  cbn [length Nat.eqb].
  destruct (expandTextsForTranslation (t :: texts)) as [expanded mapping].
  eexists. split; [reflexivity|]. cbn [fst]. unfold jsonPayload.
  destruct (length (filterExpandedTexts expanded) =? 1) eqn:E.
  - apply Nat.eqb_eq in E.
    destruct (filterExpandedTexts expanded) as [|x [|y l]]; try discriminate.
    reflexivity.
  - rewrite map_map. simpl. apply map_id.
Qed.

Lemma payload_one_item_per_segment_witness :
  exists payload,
    processSelectedElement_payload expandTextsForTranslation_spec [hello_world]
    = Some payload
    /\ map text payload
       = filterExpandedTexts (expandTextsForTranslation_spec [hello_world]).1.
Proof.
  apply (payload_one_item_per_segment expandTextsForTranslation_spec
           [hello_world]).
  discriminate.
Defined.

Section StreamedSegmentsMore.

Context {DOM : Type}.
Variable _isPartialTranslation : string -> string -> bool.
Variable _applyStreamingTranslationsImmediately :
  DOM -> gmap string translation_data -> stream_request -> DOM.
Variable JSON_parse : string -> option json_array.

Local Abbreviation segments := (stream_segments _isPartialTranslation).
Local Abbreviation processed :=
  (_processStreamTranslationData _isPartialTranslation
     _applyStreamingTranslationsImmediately).

Lemma processed_request_fields request translatedBatch originalBatch
    (textNodes : DOM) :
  let request' := (processed request translatedBatch originalBatch textNodes).1 in
  expandedTexts request' = expandedTexts request
  /\ originMapping request' = originMapping request
  /\ textsToTranslate request' = textsToTranslate request.
Proof.
  unfold _processStreamTranslationData.
  destruct (stream_segments _ _ _ _ _ _) as [segs newly].
  destruct (0 <? size newly); simpl; auto.
Qed.

Lemma stream_segments_frame request originalBatch k :
  (forall i, segment_index request originalBatch i <> Some k) ->
  forall rest i state,
    (segments request originalBatch i rest state).1 !! k = state.1 !! k.
Proof.
  intros Hk. induction rest as [|translatedText rest IH]; intros i state;
    [reflexivity|].
  cbn [stream_segments]. rewrite IH. destruct state as [segs newly].
  rewrite stream_segment_stored.
  destruct (segment_index request originalBatch i) as [expandedIndex|] eqn:E;
    [|reflexivity].
  apply lookup_insert_ne. intros ->. apply (Hk i). exact E.
Qed.

Lemma segment_index_first request originalBatch i expandedIndex :
  segment_index request originalBatch i = Some expandedIndex ->
  exists originalText,
    expandedTexts request !! expandedIndex = Some originalText
    /\ forall j, j < expandedIndex ->
                 expandedTexts request !! j <> Some originalText.
Proof.
  unfold segment_index. intros H.
  destruct (originalBatch !! i) as [originalText|]; [|discriminate].
  simpl in H.
  destruct (list_find _ _) as [[index text]|] eqn:E; [|discriminate].
  inversion H; subst index.
  apply list_find_Some in E as (Hlook & -> & Hfirst).
  exists originalText. split; [exact Hlook|].
  intros j Hj Hsame. apply (Hfirst j originalText Hsame Hj). reflexivity.
Qed.

(** X20: the place of a streamed segment is looked up by its text, and the
    first place with that text is taken: a segment whose text also stands
    at an earlier place is never written by a stream update. *)
Theorem later_duplicate_never_stored request translatedBatch originalBatch
    (textNodes : DOM) j k originalText :
  j < k ->
  expandedTexts request !! j = Some originalText ->
  expandedTexts request !! k = Some originalText ->
  translatedSegments (processed request translatedBatch originalBatch textNodes).1
    !! k
  = translatedSegments request !! k.
Proof.
  intros Hjk Hj Hk. rewrite processed_request_segments.
  rewrite stream_segments_frame; [reflexivity|].
  intros i Hi. apply segment_index_first in Hi as (text & Hlook & Hfirst).
  apply (Hfirst j Hjk). congruence.
Qed.

Lemma stream_end_loop_lookup request filtered : forall rest i k expandedText,
  rest !! k = Some expandedText ->
  is_empty_line (originMapping request !! (i + k)) = false ->
  length (expandedTexts request) <> 1 ->
  forall translatedText,
    translatedSegments request !! (i + k) = Some translatedText ->
    stream_end_loop JSON_parse request filtered rest i !! k
    = Some (Some translatedText).
Proof.
  induction rest as [|t rest IH];
    intros i k expandedText Hk Hline Hlen translatedText Hseg; [discriminate|].
  destruct k as [|k].
  - rewrite Nat.add_0_r in *. cbn [stream_end_loop]. rewrite Hline, Hseg.
    apply Nat.eqb_neq in Hlen. rewrite Hlen. reflexivity.
  - cbn [stream_end_loop]. replace (i + S k) with (S i + k) in * by lia.
    change ((?x :: ?l) !! S k) with (l !! k).
    apply (IH (S i) k expandedText); auto.
Qed.

(** X21: a translation that came in a stream update is the text of its place
    when the stream ends: in a request of several segments, the place of a
    segment of the update that is not an empty line holds, in the data
    handed to the reassembly, the translation of a segment of the update
    with that place. *)
Theorem streamed_segment_reaches_final request translatedBatch originalBatch
    (textNodes : DOM) filtered i translatedText expandedIndex :
  translatedBatch !! i = Some translatedText ->
  segment_index request originalBatch i = Some expandedIndex ->
  is_empty_line (originMapping request !! expandedIndex) = false ->
  length (expandedTexts request) <> 1 ->
  exists j translatedText',
    translatedBatch !! j = Some translatedText'
    /\ segment_index request originalBatch j = Some expandedIndex
    /\ _handleStreamEndSuccess_data JSON_parse
         (processed request translatedBatch originalBatch textNodes).1 filtered
         !! expandedIndex
       = Some (Some translatedText').
Proof.
  intros Hi Hindex Hline Hlen.
  pose proof (processed_request_fields request translatedBatch originalBatch
                textNodes) as (Hexp & Hmap & _).
  pose proof (processed_request_segments _isPartialTranslation
                _applyStreamingTranslationsImmediately request translatedBatch
                originalBatch textNodes) as Hsegs.
  destruct (stream_segments_recorded _isPartialTranslation request
              translatedBatch originalBatch translatedBatch 0
              (translatedSegments request, ∅)) with (i := i)
      (translatedText := translatedText) (expandedIndex := expandedIndex)
    as (j & translatedText' & Hj & Hjindex & Hstored); auto.
  - intros i' t' k' Hlt. lia.
  - apply lookup_lt_Some in Hi. simpl. exact Hi.
  - exists j, translatedText'. split; [exact Hj|]. split; [exact Hjindex|].
    destruct (segment_index_first _ _ _ _ Hindex) as (text & Hlook & _).
    unfold _handleStreamEndSuccess_data. rewrite Hexp.
    apply (stream_end_loop_lookup _ filtered _ 0 expandedIndex text Hlook).
    + rewrite Hmap. exact Hline.
    + rewrite Hexp. exact Hlen.
    + rewrite Hsegs. exact Hstored.
Qed.

End StreamedSegmentsMore.

Lemma later_duplicate_never_stored_witness :
  translatedSegments
    (_processStreamTranslationData (fun _ _ => false) (fun (d : unit) _ _ => d)
       twice_yes ["Oui"; "Non"; "Oui"] ["Yes"; "No"; "Yes"] tt).1 !! 2
  = translatedSegments twice_yes !! 2.
Proof.
  apply (later_duplicate_never_stored (fun _ _ => false)
           (fun (d : unit) _ _ => d) twice_yes ["Oui"; "Non"; "Oui"]
           ["Yes"; "No"; "Yes"] tt 0 2 "Yes").
  - lia.
  - reflexivity.
  - reflexivity.
Defined.

Lemma streamed_segment_reaches_final_witness :
  exists j translatedText',
    ["Oui"; "Non"; "Oui"] !! j = Some translatedText'
    /\ segment_index twice_yes ["Yes"; "No"; "Yes"] j = Some 1
    /\ _handleStreamEndSuccess_data (fun _ => None)
         (_processStreamTranslationData (fun _ _ => false)
            (fun (d : unit) _ _ => d) twice_yes ["Oui"; "Non"; "Oui"]
            ["Yes"; "No"; "Yes"] tt).1 None !! 1
       = Some (Some translatedText').
Proof.
  apply (streamed_segment_reaches_final (fun _ _ => false)
           (fun (d : unit) _ _ => d) (fun _ => None) twice_yes
           ["Oui"; "Non"; "Oui"] ["Yes"; "No"; "Yes"] tt None 1 "Non" 1).
  - reflexivity.
  - reflexivity.
  - reflexivity.
  - simpl. lia.
Defined.

(** ** More about the authority of results *)

Lemma shouldReplace_same isFinalResult matchStrategy text :
  shouldReplace isFinalResult matchStrategy text text = false.
Proof.
  unfold shouldReplace. rewrite String.eqb_refl. cbn [negb].
  rewrite !andb_false_r. cbn [negb andb].
  destruct (includes_rescue matchStrategy && (0 <? String.length text)).
  - destruct (3 * String.length text <? 2 * String.length text) eqn:E;
      [|reflexivity].
    apply Nat.ltb_lt in E. lia.
  - reflexivity.
Qed.

(** X22: a translation whose trimmed text is the one the wrapper already shows
    never removes the wrapper: not as a final result, not in rescue mode. *)
Theorem same_text_is_kept isFinalResult matchStrategy textContent
    finalTranslation :
  JS.trim textContent = JS.trim finalTranslation ->
  replacement_decision isFinalResult matchStrategy (Some textContent)
                       finalTranslation
  <> ReplaceWrapper.
Proof.
  intros Hsame. unfold replacement_decision.
  destruct (negb (String.eqb finalTranslation "") && _); [|discriminate].
  rewrite Hsame, shouldReplace_same. discriminate.
Qed.

Lemma same_text_is_kept_witness :
  replacement_decision true rescue_longest_translation (Some " Bonjour ")
                       "Bonjour"
  <> ReplaceWrapper.
Proof.
  apply (same_text_is_kept true rescue_longest_translation " Bonjour " "Bonjour").
  reflexivity.
Defined.

(** ** The lookup table *)

Example regexp_examples :
  RegExp.replace_spaces " " "a  b   c" = "a b c"
  /\ RegExp.replace_spaces "" " 0 21 - 5 " = "021-5"
  /\ RegExp.phone_like "+98 (21) 555-0100" = true
  /\ RegExp.phone_like "+" = false
  /\ RegExp.phone_like "call 555" = false
  /\ RegExp.remove_empty_lines
       (JS.str (JS.chars "a" ++ [LF; " "%char; LF; " "%char] ++ JS.chars "b"))
     = JS.str (JS.chars "a" ++ [LF; " "%char] ++ JS.chars "b").
Proof. repeat split; reflexivity. Qed.

Example lookup_keys_of_hi :
  lookup_keys "Hi"
  = [ "Hi"; "Hi" +:+ newline; "Hi" +:+ newline +:+ newline; "Hi "; " Hi";
      "Hi "; " Hi " ].
Proof. reflexivity. Qed.

Lemma set_keys_lookup keys translation (table : gmap string string) key :
  set_keys keys translation table !! key
  = if bool_decide (key ∈ keys) then Some translation else table !! key.
Proof.
  unfold set_keys. revert table.
  induction keys as [|k keys IH]; intros table; [reflexivity|].
  cbn [fold_left]. rewrite IH.
  destruct (bool_decide (key ∈ keys)) eqn:E.
  - apply bool_decide_eq_true in E.
    rewrite bool_decide_eq_true_2 by (right; exact E). reflexivity.
  - apply bool_decide_eq_false in E.
    destruct (decide (key = k)) as [->|Hne].
    + rewrite bool_decide_eq_true_2 by left. apply lookup_insert_eq.
    + rewrite bool_decide_eq_false_2
        by (intros H; apply elem_of_cons in H as [?|?]; auto).
      apply lookup_insert_ne. congruence.
Qed.

Lemma translationLookup_snoc translations originalKey translation :
  translationLookup (translations ++ [(originalKey, translation)])
  = set_keys (lookup_keys originalKey) translation
             (translationLookup translations).
Proof. unfold translationLookup. rewrite fold_left_app. reflexivity. Qed.

Lemma lookup_keys_own originalKey : originalKey ∈ lookup_keys originalKey.
Proof. unfold lookup_keys. left. Qed.

Lemma lookup_keys_trimmed originalKey :
  JS.trim originalKey ∈ lookup_keys originalKey.
Proof.
  unfold lookup_keys.
  destruct (String.eqb_spec (JS.trim originalKey) originalKey) as [E|E].
  - rewrite E at 1. left.
  - right. left.
Qed.

Lemma table_sound translations key translation :
  translationLookup translations !! key = Some translation ->
  exists originalKey,
    (originalKey, translation) ∈ translations
    /\ key ∈ lookup_keys originalKey.
Proof.
  induction translations as [|[k t] translations IH] using rev_ind; intros H.
  - discriminate.
  - rewrite translationLookup_snoc, set_keys_lookup in H.
    destruct (bool_decide (key ∈ lookup_keys k)) eqn:E.
    + apply bool_decide_eq_true in E. inversion H; subst t.
      exists k. split; [apply elem_of_app; right; left|exact E].
    + destruct (IH H) as (k' & Hin & Hk'). exists k'.
      split; [apply elem_of_app; left; exact Hin|exact Hk'].
Qed.

Lemma table_has translations originalKey translation key :
  (originalKey, translation) ∈ translations ->
  key ∈ lookup_keys originalKey ->
  is_Some (translationLookup translations !! key).
Proof.
  induction translations as [|[k t] translations IH] using rev_ind;
    intros Hin Hkey.
  - inversion Hin.
  - rewrite translationLookup_snoc, set_keys_lookup.
    destruct (bool_decide (key ∈ lookup_keys k)) eqn:E; [eauto|].
    apply bool_decide_eq_false in E.
    apply elem_of_app in Hin as [Hin|Hin]; [apply IH; auto|].
    apply list_elem_of_singleton in Hin. inversion Hin; subst. contradiction.
Qed.

Lemma table_keeps pre originalKey translation post :
  Forall (fun entry => originalKey ∉ lookup_keys entry.1) post ->
  translationLookup (pre ++ (originalKey, translation) :: post) !! originalKey
  = Some translation.
Proof.
  induction post as [|[k t] post IH] using rev_ind; intros Hpost.
  - rewrite translationLookup_snoc, set_keys_lookup.
    rewrite bool_decide_eq_true_2 by apply lookup_keys_own. reflexivity.
  - apply Forall_app in Hpost as [Hpost Hlast].
    apply Forall_cons in Hlast as [Hlast _]. simpl in Hlast.
    replace (pre ++ (originalKey, translation) :: post ++ [(k, t)])
      with ((pre ++ (originalKey, translation) :: post) ++ [(k, t)])
      by (rewrite <- app_assoc; reflexivity).
    rewrite translationLookup_snoc, set_keys_lookup.
    rewrite bool_decide_eq_false_2 by exact Hlast. apply IH. exact Hpost.
Qed.

(** X23: whatever the lookup table answers is the translation of an entry of
    [translations], stored under one of the keys made from the key of that
    entry. *)
Theorem lookup_table_sound translations originalText finalTranslation
    matchStrategy :
  direct_lookup (translationLookup translations) originalText
  = Some (finalTranslation, matchStrategy) ->
  exists originalKey key,
    (originalKey, finalTranslation) ∈ translations
    /\ key ∈ lookup_keys originalKey
    /\ translationLookup translations !! key = Some finalTranslation.
Proof.
  unfold direct_lookup. intros H.
  destruct (translationLookup translations !! originalText) as [t|] eqn:E1.
  { inversion H; subst t. destruct (table_sound _ _ _ E1) as (k & Hin & Hk).
    exists k, originalText. auto. }
  destruct (translationLookup translations !! JS.trim originalText)
    as [t|] eqn:E2.
  { inversion H; subst t. destruct (table_sound _ _ _ E2) as (k & Hin & Hk).
    exists k, (JS.trim originalText). auto. }
  destruct (translationLookup translations
              !! JS.trim (RegExp.replace_spaces " " originalText))
    as [t|] eqn:E3; [|discriminate].
  inversion H; subst t. destruct (table_sound _ _ _ E3) as (k & Hin & Hk).
  exists k, (JS.trim (RegExp.replace_spaces " " originalText)). auto.
Qed.

Lemma lookup_table_sound_witness :
  exists originalKey key,
    (originalKey, "Salut") ∈ [("Hi ", "Bonjour"); ("Hi", "Salut")]
    /\ key ∈ lookup_keys originalKey
    /\ translationLookup [("Hi ", "Bonjour"); ("Hi", "Salut")] !! key
       = Some "Salut".
Proof.
  apply (lookup_table_sound [("Hi ", "Bonjour"); ("Hi", "Salut")] " Hi"
           "Salut" exact).
  vm_compute. reflexivity.
Defined.

(** X24: a node whose text is the key of an entry gets the translation of that
    entry, by the exact strategy, when no entry after it in [translations]
    stores one of its keys under that text. *)
Theorem own_key_is_found pre originalKey translation post :
  Forall (fun entry => originalKey ∉ lookup_keys entry.1) post ->
  direct_lookup (translationLookup (pre ++ (originalKey, translation) :: post))
                originalKey
  = Some (translation, exact).
Proof.
  intros Hpost. unfold direct_lookup. rewrite (table_keeps _ _ _ _ Hpost).
  reflexivity.
Qed.

Lemma own_key_is_found_witness :
  direct_lookup (translationLookup ([("Yes", "Oui")] ++ ("No", "Non") :: []))
                "No"
  = Some ("Non", exact).
Proof.
  apply (own_key_is_found [("Yes", "Oui")] "No" "Non" []). constructor.
Defined.

(** X25: a node whose text is the key of an entry up to the white space around
    it always finds a translation, by the exact or by the trimmed
    strategy. *)
Theorem trimmed_text_is_matched translations originalKey translation
    originalText :
  (originalKey, translation) ∈ translations ->
  JS.trim originalText = JS.trim originalKey ->
  exists finalTranslation matchStrategy,
    direct_lookup (translationLookup translations) originalText
    = Some (finalTranslation, matchStrategy)
    /\ (matchStrategy = exact \/ matchStrategy = trimmed).
Proof.
  intros Hin Htrim. unfold direct_lookup.
  destruct (translationLookup translations !! originalText) as [t|]; [eauto|].
  destruct (table_has translations originalKey translation
              (JS.trim originalText) Hin) as [t Ht].
  { rewrite Htrim. apply lookup_keys_trimmed. }
  rewrite Ht. eauto.
Qed.

Lemma trimmed_text_is_matched_witness :
  exists finalTranslation matchStrategy,
    direct_lookup (translationLookup [("Yes", "Oui"); (" No ", "Non")]) "No  "
    = Some (finalTranslation, matchStrategy)
    /\ (matchStrategy = exact \/ matchStrategy = trimmed).
Proof.
  apply (trimmed_text_is_matched [("Yes", "Oui"); (" No ", "Non")] " No "
           "Non" "No  ").
  - right. left.
  - reflexivity.
Defined.

(** X26: the keys of a later entry win over the key of an earlier one: of the
    two entries with the keys [key + ' '] and [key], in this order, a node
    whose text is exactly the first key gets the translation of the second
    entry, by the exact strategy. *)
Theorem later_entry_takes_exact_key key first second :
  JS.trim key <> "" ->
  direct_lookup (translationLookup [(key +:+ " ", first); (key, second)])
                (key +:+ " ")
  = Some (second, exact).
Proof.
  intros Hkey.
  change [(key +:+ " ", first); (key, second)]
    with ([(key +:+ " ", first)] ++ [(key, second)]).
  unfold direct_lookup. rewrite translationLookup_snoc, set_keys_lookup.
  rewrite bool_decide_eq_true_2; [reflexivity|].
  unfold lookup_keys.
  assert (Hlen : (0 <? String.length (JS.trim key)) = true).
  { apply Nat.ltb_lt. destruct (JS.trim key); [contradiction|simpl; lia]. }
  rewrite Hlen.
  rewrite !elem_of_app. right. right. right. right. right. left.
  right. right. left.
Qed.

Lemma later_entry_takes_exact_key_witness :
  direct_lookup (translationLookup [("Hi" +:+ " ", "Bonjour"); ("Hi", "Salut")])
                ("Hi" +:+ " ")
  = Some ("Salut", exact).
Proof.
  apply (later_entry_takes_exact_key "Hi" "Bonjour" "Salut"). discriminate.
Defined.

Lemma lookup_keys_normalized originalKey :
  JS.trim (RegExp.replace_spaces " " originalKey) ∈ lookup_keys originalKey.
Proof.
  set (normalizedKey := JS.trim (RegExp.replace_spaces " " originalKey)).
  destruct (String.eqb_spec normalizedKey originalKey) as [E1|E1].
  { rewrite E1. apply lookup_keys_own. }
  destruct (String.eqb_spec normalizedKey (JS.trim originalKey)) as [E2|E2].
  { rewrite E2. apply lookup_keys_trimmed. }
  unfold lookup_keys. fold normalizedKey.
  destruct (String.eqb_spec normalizedKey originalKey); [contradiction|].
  destruct (String.eqb_spec normalizedKey (JS.trim originalKey));
    [contradiction|].
  cbn [negb andb]. rewrite !elem_of_app. right. right. left. left.
Qed.

Lemma lookup_keys_no_whitespace originalKey :
  RegExp.replace_spaces "" originalKey ∈ lookup_keys originalKey.
Proof.
  set (noWhitespaceKey := RegExp.replace_spaces "" originalKey).
  destruct (String.eqb_spec noWhitespaceKey originalKey) as [E|E].
  { rewrite E. apply lookup_keys_own. }
  unfold lookup_keys. fold noWhitespaceKey.
  destruct (String.eqb_spec noWhitespaceKey originalKey); [contradiction|].
  cbn [negb]. rewrite !elem_of_app. right. right. right. left. left.
Qed.

(** X27: a node whose text is the key of an entry up to its runs of white space
    (each run counted as one blank, none at the ends) always finds a
    translation by one of the first three strategies. *)
Theorem normalized_text_is_matched translations originalKey translation
    originalText :
  (originalKey, translation) ∈ translations ->
  JS.trim (RegExp.replace_spaces " " originalText)
  = JS.trim (RegExp.replace_spaces " " originalKey) ->
  is_Some (direct_lookup (translationLookup translations) originalText).
Proof.
  intros Hin Hnorm. unfold direct_lookup.
  destruct (translationLookup translations !! originalText) as [t|]; [eauto|].
  destruct (translationLookup translations !! JS.trim originalText) as [t|];
    [eauto|].
  destruct (table_has translations originalKey translation
              (JS.trim (RegExp.replace_spaces " " originalText)) Hin)
    as [t Ht].
  { rewrite Hnorm. apply lookup_keys_normalized. }
  rewrite Ht. eauto.
Qed.

Lemma normalized_text_is_matched_witness :
  is_Some (direct_lookup (translationLookup [("Good  morning", "Bonjour")])
                         " Good morning ").
Proof.
  apply (normalized_text_is_matched [("Good  morning", "Bonjour")]
           "Good  morning" "Bonjour" " Good morning ").
  - left.
  - reflexivity.
Defined.

(** X28: a node that is translated for the first time and whose text is the key
    of an entry up to white space anywhere (a phone number written with
    other blanks) always gets a translation and a match type from the four
    strategies. *)
Theorem spaced_text_is_matched translations originalKey translation
    originalText :
  (originalKey, translation) ∈ translations ->
  RegExp.replace_spaces "" originalText = RegExp.replace_spaces "" originalKey ->
  exists translatedText matchType,
    node_lookup (translationLookup translations) originalText
    = (Some translatedText, Some matchType).
Proof.
  intros Hin Hsame. unfold node_lookup.
  destruct (table_has translations originalKey translation
              (RegExp.replace_spaces "" originalText) Hin) as [t4 Ht4].
  { rewrite Hsame. apply lookup_keys_no_whitespace. }
  rewrite Ht4.
  destruct (translationLookup translations !! originalText) as [t|].
  { destruct (is_falsy (Some t)); eauto. }
  destruct (translationLookup translations !! JS.trim originalText) as [t|].
  { destruct (is_falsy (Some t)); eauto. }
  destruct (translationLookup translations
              !! JS.trim (RegExp.replace_spaces " " originalText)) as [t|].
  { destruct (is_falsy (Some t)); eauto. }
  simpl. eauto.
Qed.

Lemma spaced_text_is_matched_witness :
  exists translatedText matchType,
    node_lookup (translationLookup [("021 555 0100", "021 555 0100")])
                "0215 550 100"
    = (Some translatedText, Some matchType).
Proof.
  apply (spaced_text_is_matched [("021 555 0100", "021 555 0100")]
           "021 555 0100" "021 555 0100" "0215 550 100").
  - left.
  - reflexivity.
Defined.
